(** * indxr: the entry extraction and tag aggregation pipeline

    A shallow embedding of [src/indxr/parser.py], of the tag index, the
    statistics and the loop over the tags of
    [src/indxr/generators/master_index.py] (the same [_build_tag_index],
    [_parse_page_num] and loop are repeated verbatim in [compact_index.py]),
    and of the page range and the file name of
    [src/indxr/generators/book_pdfs.py].

    Conventions of the embedding:
    - a Python [str] is a list of characters; a character is a code point
      below 256, classified as CPython's Unicode database classifies the
      Latin-1 range;
    - a Python exception is a value of [exn]; code that may raise returns a
      [result];
    - a [dict] is an association list in insertion order with unique keys;
    - a regular expression is given in parsed form ([regex]), for the
      fragment of the syntax of [re] that the default pattern is written in,
      and matched by a backtracking matcher that tries the alternatives in
      the order of [re]: what [finditer] returns is computed, not assumed;
    - the file system is a function from paths to files, and what
      [parse_multiple] prints is a list of lines threaded through it. *)

From Stdlib Require Import Ascii String.
From Stdlib Require Import List Bool Arith ZArith Lia.
From Stdlib Require Import Permutation Sorted.
Import ListNotations.

Set Implicit Arguments.

(* ================================================================== *)
(** * Part I: the embedding                                            *)
(* ================================================================== *)

(** ** Strings and characters *)

Definition str := list ascii.

Definition lit (s : string) : str := list_ascii_of_string s.

Arguments lit : simpl never.

Definition code (a : ascii) : nat := nat_of_ascii a.

Definition in_range (lo hi : nat) (a : ascii) : bool :=
  (lo <=? code a) && (code a <=? hi).

Definition is_code (n : nat) (a : ascii) : bool := code a =? n.

(** [str.isdecimal] on one character: what [\d] matches. *)
Definition isdecimal (a : ascii) : bool := in_range 48 57 a.

(** [str.isspace] on one character: what [\s] matches. *)
Definition isspace (a : ascii) : bool :=
  in_range 9 13 a || in_range 28 32 a || is_code 133 a || is_code 160 a.

(** [str.isalnum] on one character (letters, decimals, digits, numerics). *)
Definition isalnum (a : ascii) : bool :=
  in_range 48 57 a || in_range 65 90 a || in_range 97 122 a
  || is_code 170 a || is_code 178 a || is_code 179 a || is_code 181 a
  || is_code 185 a || is_code 186 a || in_range 188 190 a
  || in_range 192 214 a || in_range 216 246 a || in_range 248 255 a.

(** What [\w] matches. *)
Definition isword (a : ascii) : bool := isalnum a || is_code 95 a.

Definition ascii_eqb (a b : ascii) : bool := Ascii.eqb a b.

Arguments ascii_eqb : simpl never.

(** [c in s] for a one-character [c]. *)
Definition contains (c : ascii) (s : str) : bool := existsb (ascii_eqb c) s.

(** [s.split(c)[0]]: the text before the first [c], all of [s] without one. *)
Fixpoint split_head (c : ascii) (s : str) : str :=
  match s with
  | [] => []
  | a :: s' => if ascii_eqb c a then [] else a :: split_head c s'
  end.

(** ** Exceptions *)

Inductive exn : Type :=
| IndexError
| ValueError
| TypeError
| FileNotFoundError (msg : str)
| IOError (msg : str).

Inductive result (A : Type) : Type :=
| Ok (a : A)
| Raise (e : exn).

Arguments Ok {A} a.
Arguments Raise {A} e.

Definition is_ok {A} (r : result A) : bool :=
  match r with Ok _ => true | Raise _ => false end.

(** ** [int(s)] on a string

    White space is stripped at both ends, then comes an optional sign, then
    decimal digits with single underscores between digits. Anything else is
    a [ValueError], as are more digits than [int_max_str_digits]. *)

(** The white space [int] strips: the C locale's, and, in a string that is
    not pure ASCII, the Unicode spaces, which are x85 and xA0 below 256. *)
Definition int_space (a : ascii) : bool :=
  in_range 9 13 a || is_code 32 a || is_code 133 a || is_code 160 a.

Fixpoint lstrip (f : ascii -> bool) (s : str) : str :=
  match s with
  | [] => []
  | a :: s' => if f a then lstrip f s' else s
  end.

Definition strip (f : ascii -> bool) (s : str) : str :=
  rev (lstrip f (rev (lstrip f s))).

Definition digit_val (a : ascii) : Z := Z.of_nat (code a - 48).

(** Decimal digits with single underscores between digits; returns the value
    and the number of digits read. [prev] tells whether the previous
    character was a digit. *)
Fixpoint int_digits (prev : bool) (s : str) (acc : Z) (n : nat)
  : option (Z * nat) :=
  match s with
  | [] => if prev then Some (acc, n) else None
  | a :: s' =>
      if isdecimal a then int_digits true s' (10 * acc + digit_val a)%Z (S n)
      else if is_code 95 a then
        if prev then int_digits false s' acc n else None
      else None
  end.

(** [sys.get_int_max_str_digits()], CPython's default since 3.11. *)
Definition int_max_str_digits : nat := 4300.

Definition int_sign (s : str) : bool * str :=
  match s with
  | a :: s' =>
      if is_code 45 a then (true, s')
      else if is_code 43 a then (false, s')
      else (false, s)
  | [] => (false, s)
  end.

Definition py_int (s : str) : result Z :=
  let (neg, body) := int_sign (strip int_space s) in
  match int_digits false body 0%Z 0 with
  | Some (v, n) =>
      if int_max_str_digits <? n then Raise ValueError
      else Ok (if neg then (- v)%Z else v)
  | None => Raise ValueError
  end.

(** ** [str(n)] on an integer

    The decimal digits, most significant first, after a minus sign for a
    negative number; a [ValueError] when there are more digits than
    [int_max_str_digits]. *)

(** The digits of [n >= 0]; [fuel] above the binary logarithm of [n] never
    runs out, each step dividing by ten. *)
Fixpoint digits_from (fuel : nat) (n : Z) (acc : str) : str :=
  match fuel with
  | 0 => acc
  | S fuel' =>
      let d := ascii_of_nat (48 + Z.to_nat (n mod 10)) in
      if (n <? 10)%Z then d :: acc
      else digits_from fuel' (n / 10)%Z (d :: acc)
  end.

Definition digits_of (n : Z) : str :=
  digits_from (S (Z.to_nat (Z.log2 n))) n [].

Definition py_str (n : Z) : result str :=
  let ds := digits_of (Z.abs n) in
  if int_max_str_digits <? length ds then Raise ValueError
  else Ok (if (n <? 0)%Z then "-"%char :: ds else ds).

(** ** Result monad *)

Definition bind {A B} (r : result A) (f : A -> result B) : result B :=
  match r with
  | Ok a => f a
  | Raise e => Raise e
  end.

Notation "x <- r ;; k" := (bind r (fun x => k))
  (at level 61, r at next level, right associativity).

(** ** Dictionaries: association lists in insertion order *)

Section Dict.
Variables K V : Type.
Variable keq : K -> K -> bool.

Definition dict := list (K * V).

(** [d.get(k)] *)
Fixpoint dict_get (k : K) (d : dict) : option V :=
  match d with
  | [] => None
  | (k', v) :: d' => if keq k k' then Some v else dict_get k d'
  end.

(** [k in d] *)
Definition dict_mem (k : K) (d : dict) : bool :=
  match dict_get k d with Some _ => true | None => false end.

(** [d[k] = v]: an existing key keeps its place, a new one goes last. *)
Fixpoint dict_set (k : K) (v : V) (d : dict) : dict :=
  match d with
  | [] => [(k, v)]
  | (k', v') :: d' =>
      if keq k k' then (k', v) :: d' else (k', v') :: dict_set k v d'
  end.

Definition dict_keys (d : dict) : list K := map fst d.
Definition dict_values (d : dict) : list V := map snd d.
End Dict.

Arguments dict_get {K V} keq k d.
Arguments dict_mem {K V} keq k d.
Arguments dict_set {K V} keq k v d.
Arguments dict_keys {K V} d.
Arguments dict_values {K V} d.

Fixpoint str_eqb (s t : str) : bool :=
  match s, t with
  | [], [] => true
  | a :: s', b :: t' => ascii_eqb a b && str_eqb s' t'
  | _, _ => false
  end.

(** ** Regular expressions: the fragment of [re] syntax that is modelled

    Literals, escapes and classes (one character), concatenation,
    alternation, the greedy quantifiers [*], [+] and [?], capturing groups
    (numbered by their opening parenthesis, from 1) and non-capturing
    groups. *)

Inductive citem : Type :=
| CLit (a : ascii)
| CRange (lo hi : ascii)
| CDigit
| CWord
| CSpace.

Definition citem_mem (i : citem) (a : ascii) : bool :=
  match i with
  | CLit b => ascii_eqb b a
  | CRange lo hi => in_range (code lo) (code hi) a
  | CDigit => isdecimal a
  | CWord => isword a
  | CSpace => isspace a
  end.

(** A literal or escape is [Chr false [item]]; [[...]] is [Chr false items]
    and [[^...]] is [Chr true items]. *)
Definition class_mem (neg : bool) (items : list citem) (a : ascii) : bool :=
  xorb neg (existsb (fun i => citem_mem i a) items).

Inductive regex : Type :=
| Eps
| Chr (neg : bool) (items : list citem)
| Seq (r1 r2 : regex)
| Alt (r1 r2 : regex)
| Star (r : regex)
| Plus (r : regex)
| Opt (r : regex)
| Group (r : regex)
| NonCap (r : regex).

Fixpoint ngroups (r : regex) : nat :=
  match r with
  | Eps | Chr _ _ => 0
  | Seq r1 r2 | Alt r1 r2 => ngroups r1 + ngroups r2
  | Star r1 | Plus r1 | Opt r1 | NonCap r1 => ngroups r1
  | Group r1 => S (ngroups r1)
  end.

(** The text of each group that took part in the match so far. *)
Definition caps := nat -> option str.

Definition no_caps : caps := fun _ => None.

Definition set_cap (i : nat) (v : str) (c : caps) : caps :=
  fun j => if j =? i then Some v else c j.

Section Matcher.
Variable R : Type.

(** What remains to be matched after a sub-pattern: the rest of the text
    and the groups; [None] makes the matcher backtrack. *)
Definition kont := str -> caps -> option R.

Definition orelse (a b : option R) : option R :=
  match a with Some x => Some x | None => b end.

(** The loop of a greedy repeat: one more item if one matches, the tail
    otherwise. An item that matched the empty text is kept but not
    repeated. Every other item shortens the text, so [fuel] above the
    length of the text never runs out ([rep_loop_fuel] below). *)
Fixpoint rep_loop (body : kont -> kont) (k : kont) (fuel : nat)
  (s : str) (c : caps) : option R :=
  match fuel with
  | 0 => k s c
  | S fuel' =>
      orelse
        (body (fun s' c' =>
                 if length s' =? length s then k s' c'
                 else rep_loop body k fuel' s' c') s c)
        (k s c)
  end.

(** [base] is the number of the first group inside [r]. *)
Fixpoint rmatch (base : nat) (r : regex) (k : kont) (s : str) (c : caps)
  : option R :=
  match r with
  | Eps => k s c
  | Chr neg items =>
      match s with
      | a :: s' => if class_mem neg items a then k s' c else None
      | [] => None
      end
  | Seq r1 r2 => rmatch base r1 (rmatch (base + ngroups r1) r2 k) s c
  | Alt r1 r2 =>
      orelse (rmatch base r1 k s c) (rmatch (base + ngroups r1) r2 k s c)
  | Star r1 => rep_loop (rmatch base r1) k (S (length s)) s c
  | Plus r1 =>
      rmatch base r1
        (fun s' c' => rep_loop (rmatch base r1) k (S (length s')) s' c') s c
  | Opt r1 => orelse (rmatch base r1 k s c) (k s c)
  | Group r1 =>
      rmatch (S base) r1
        (fun s' c' =>
           k s' (set_cap base (firstn (length s - length s') s) c')) s c
  | NonCap r1 => rmatch base r1 k s c
  end.
End Matcher.

(** A match object: its span and [group(0)], [group(1)], ... *)
Record Match : Type := mkMatch {
  m_start : nat;
  m_end : nat;
  m_groups : list (option str)
}.

(** One attempt at the head of [s]: the rest of the text and the groups.
    [must_advance] refuses the empty match (set after an empty match, so
    that the scan moves on). *)
Definition match_here (r : regex) (must_advance : bool) (s : str)
  : option (str * caps) :=
  rmatch 1 r
    (fun s' c =>
       if must_advance && (length s' =? length s) then None
       else Some (s', c))
    s no_caps.

Definition groups_of (r : regex) (whole : str) (c : caps)
  : list (option str) :=
  Some whole :: map c (seq 1 (ngroups r)).

(** The scan of [re.finditer]: leftmost matches, not overlapping; after an
    empty match the next one must not be empty at the same place. Each step
    moves on in the text or sets [must_advance], so the fuel that
    [finditer] gives never runs out ([scan_fuel] below). *)
Fixpoint scan (r : regex) (fuel : nat) (pos : nat) (must_advance : bool)
  (s : str) : list Match :=
  match fuel with
  | 0 => []
  | S fuel' =>
      match match_here r must_advance s with
      | Some (s', c) =>
          let n := length s - length s' in
          mkMatch pos (pos + n) (groups_of r (firstn n s) c)
            :: scan r fuel' (pos + n) (n =? 0) s'
      | None =>
          match s with
          | [] => []
          | _ :: s1 => scan r fuel' (S pos) false s1
          end
      end
  end.

Definition finditer (r : regex) (s : str) : list Match :=
  scan r (2 * length s + 2) 0 false s.

(** [m.group(i)]: [IndexError] without such a group, Python's [None] for a
    group that took no part in the match. *)
Definition group (m : Match) (i : nat) : result (option str) :=
  match nth_error (m_groups m) i with
  | Some g => Ok g
  | None => Raise IndexError
  end.

Definition match_text (m : Match) : str :=
  match nth_error (m_groups m) 0 with
  | Some (Some w) => w
  | _ => []
  end.

(** [re.findall(r, s)] for a pattern without groups. *)
Definition findall (r : regex) (s : str) : list str :=
  map match_text (finditer r s).

(** Pattern builders. *)
Definition dquote : ascii := ascii_of_nat 34.

Definition chr (a : ascii) : regex := Chr false [CLit a].

Fixpoint text (s : str) : regex :=
  match s with
  | [] => Eps
  | [a] => chr a
  | a :: s' => Seq (chr a) (text s')
  end.

Definition seqs (rs : list regex) : regex :=
  fold_right (fun r acc => match acc with Eps => r | _ => Seq r acc end)
    Eps rs.

Definition re_d : regex := Chr false [CDigit].
Definition re_s : regex := Chr false [CSpace].

(** ** parser.py *)

(** The dataclass. [page_number] and [slide_title] are whatever
    [match.group] returned, which is [None] for a group that took no part in
    the match: the annotation [str] is not enforced. *)
Record SlideEntry : Type := mkSlideEntry {
  book_number : Z;
  page_number : option str;
  slide_title : option str;
  tags : list str
}.

(** [str(x)] for an attribute that holds a string or [None]. *)
Definition str_of_attr (g : option str) : str :=
  match g with
  | Some s => s
  | None => lit "None"
  end.

(** [sep.join(l)] *)
Fixpoint join (sep : str) (l : list str) : str :=
  match l with
  | [] => []
  | [x] => x
  | x :: l' => x ++ sep ++ join sep l'
  end.

(** [SlideEntry.__repr__]: the text [Book b, Page p, Slide: ] followed by
    the title between double quotes, a space and the tags joined by
    spaces. *)
Definition __repr__ (self : SlideEntry) : result str :=
  let tags_str := join (lit " ") (tags self) in
  b <- py_str (book_number self) ;;
  Ok (lit "Book " ++ b ++ lit ", Page " ++ str_of_attr (page_number self)
        ++ lit ", Slide: " ++ dquote :: str_of_attr (slide_title self)
        ++ dquote :: lit " " ++ tags_str).

(** [r'#[\w\-]+'] *)
Definition TAG_PATTERN : regex :=
  Seq (chr "#"%char) (Plus (Chr false [CWord; CLit "-"%char])).

(** A file as the parser sees it: absent, present but not readable (with
    the text of the error that [open] or [read] raises), or readable. *)
Inductive file : Type :=
| Missing
| Unreadable (err : str)
| Readable (content : str).

Definition filesystem := str -> file.

Module IndexParser.

(** The default pattern, piece by piece: [Book\s+(\d+),\s+Page\s+],
    [(\d+(?:-\d+)?),\s+Slide:\s+], the title between double quotes as
    a group of one or more characters other than the double quote,
    [\s+], and a group of one tag [#[\w\-]+] followed by any number of
    [\s+#[\w\-]+]. *)
Definition DEFAULT_PATTERN : regex :=
  seqs
    [ text (lit "Book"); Plus re_s; Group (Plus re_d);
      chr ","%char; Plus re_s; text (lit "Page"); Plus re_s;
      Group (Seq (Plus re_d) (Opt (NonCap (Seq (chr "-"%char) (Plus re_d)))));
      chr ","%char; Plus re_s; text (lit "Slide:"); Plus re_s; chr dquote;
      Group (Plus (Chr true [CLit dquote]));
      chr dquote; Plus re_s;
      Group (Seq TAG_PATTERN
               (Star (NonCap (Seq (Plus re_s) TAG_PATTERN)))) ].

Record t : Type := mk {
  index_file_path : str;
  pattern : regex;
  entries : list SlideEntry
}.

(** [pattern or self.DEFAULT_PATTERN]: [None] and the empty string are
    falsy. *)
Definition pattern_or_default (pattern : option regex) : regex :=
  match pattern with
  | None | Some Eps => DEFAULT_PATTERN
  | Some r => r
  end.

Definition file_exists (fs : filesystem) (path : str) : bool :=
  match fs path with Missing => false | _ => true end.

(** [FileNotFoundError(f"Index file not found: {index_file_path}")] *)
Definition not_found (index_file_path : str) : exn :=
  FileNotFoundError (lit "Index file not found: " ++ index_file_path).

(** [IOError(f"Error reading {self.index_file_path}: {e}")] *)
Definition read_error (index_file_path err : str) : exn :=
  IOError (lit "Error reading " ++ index_file_path ++ lit ": " ++ err).

Definition __init__ (fs : filesystem) (index_file_path : str)
  (pattern : option regex) : result t :=
  let self := mk index_file_path (pattern_or_default pattern) [] in
  if file_exists fs index_file_path then Ok self
  else Raise (not_found index_file_path).

(** [int(match.group(1))] *)
Definition int_of (g : option str) : result Z :=
  match g with
  | Some s => py_int s
  | None => Raise TypeError
  end.

(** [re.findall(r'#[\w\-]+', tags_str)] *)
Definition findall_tags (g : option str) : result (list str) :=
  match g with
  | Some s => Ok (findall TAG_PATTERN s)
  | None => Raise TypeError
  end.

(** The body of the [try] in the loop of [parse]. *)
Definition parse_match (m : Match) : result SlideEntry :=
  g1 <- group m 1 ;;
  book_num <- int_of g1 ;;
  page_num <- group m 2 ;;
  slide_title <- group m 3 ;;
  tags_str <- group m 4 ;;
  tags <- findall_tags tags_str ;;
  Ok (mkSlideEntry book_num page_num slide_title tags).

(** The loop of [parse] over the matches: [IndexError] and [ValueError]
    skip the match, anything else leaves the loop with what was appended
    so far. *)
Fixpoint parse_loop (ms : list Match) (entries : list SlideEntry)
  : list SlideEntry * option exn :=
  match ms with
  | [] => (entries, None)
  | m :: ms' =>
      match parse_match m with
      | Ok entry => parse_loop ms' (entries ++ [entry])
      | Raise IndexError | Raise ValueError => parse_loop ms' entries
      | Raise e => (entries, Some e)
      end
  end.

(** [parse]: the parser after the call, and what the call returns,
    which is the parser's own list. *)
Definition parse (fs : filesystem) (self : t)
  : t * result (list SlideEntry) :=
  match fs (index_file_path self) with
  | Readable content =>
      let matches := finditer (pattern self) content in
      let (entries', raised) := parse_loop matches (entries self) in
      let self' := mk (index_file_path self) (pattern self) entries' in
      match raised with
      | None => (self', Ok entries')
      | Some e => (self', Raise e)
      end
  | Unreadable err => (self, Raise (read_error (index_file_path self) err))
  | Missing =>
      (self, Raise (read_error (index_file_path self)
                      (lit "[Errno 2] No such file or directory: '"
                         ++ index_file_path self ++ lit "'")))
  end.

(** The grouping loop of [parse_multiple]. *)
Fixpoint group_entries (entries : list SlideEntry)
  (all_entries : dict Z (list SlideEntry)) : dict Z (list SlideEntry) :=
  match entries with
  | [] => all_entries
  | entry :: rest =>
      let all1 :=
        if negb (dict_mem Z.eqb (book_number entry) all_entries)
        then dict_set Z.eqb (book_number entry) [] all_entries
        else all_entries in
      let bucket :=
        match dict_get Z.eqb (book_number entry) all1 with
        | Some l => l
        | None => []
        end in
      group_entries rest
        (dict_set Z.eqb (book_number entry) (bucket ++ [entry]) all1)
  end.

Definition exn_text (e : exn) : str :=
  match e with
  | FileNotFoundError msg | IOError msg => msg
  | _ => []
  end.

(** [print(f"Warning: Skipping {file_path}: {e}")] *)
Definition warning (file_path : str) (e : exn) : str :=
  lit "Warning: Skipping " ++ file_path ++ lit ": " ++ exn_text e.

(** One file of [parse_multiple]: a new parser, its parse, the grouping. *)
Definition parse_file (fs : filesystem) (pattern : option regex)
  (file_path : str) : result (list SlideEntry) :=
  parser <- __init__ fs file_path pattern ;;
  snd (parse fs parser).

(** The loop of [parse_multiple]; [out] is what was printed so far. *)
Fixpoint parse_multiple_loop (fs : filesystem) (pattern : option regex)
  (index_file_paths : list str) (all_entries : dict Z (list SlideEntry))
  (out : list str) : list str * result (dict Z (list SlideEntry)) :=
  match index_file_paths with
  | [] => (out, Ok all_entries)
  | file_path :: rest =>
      match parse_file fs pattern file_path with
      | Ok entries =>
          parse_multiple_loop fs pattern rest
            (group_entries entries all_entries) out
      | Raise (FileNotFoundError msg) =>
          parse_multiple_loop fs pattern rest all_entries
            (out ++ [warning file_path (FileNotFoundError msg)])
      | Raise (IOError msg) =>
          parse_multiple_loop fs pattern rest all_entries
            (out ++ [warning file_path (IOError msg)])
      | Raise e => (out, Raise e)
      end
  end.

Definition parse_multiple (fs : filesystem) (out : list str)
  (index_file_paths : list str) (pattern : option regex)
  : list str * result (dict Z (list SlideEntry)) :=
  parse_multiple_loop fs pattern index_file_paths [] out.

(** [get_all_tags]: for each entry and each of its tags, the bucket of the
    tag is created when missing and the entry appended to it. *)
Definition get_all_tags (entries : list SlideEntry)
  : dict str (list SlideEntry) :=
  fold_left
    (fun tag_map entry =>
       fold_left
         (fun tag_map tag =>
            let tm1 :=
              if negb (dict_mem str_eqb tag tag_map)
              then dict_set str_eqb tag [] tag_map
              else tag_map in
            let bucket :=
              match dict_get str_eqb tag tm1 with
              | Some l => l
              | None => []
              end in
            dict_set str_eqb tag (bucket ++ [entry]) tm1)
         (tags entry) tag_map)
    entries [].

End IndexParser.

(** ** [list.sort] and [sorted]

    The keys are computed first, one per element and in order, and the sort
    itself is stable: insertion of each element before the first one whose
    key is not smaller. *)

Section Sort.
Variables A K : Type.
Variable lt : K -> K -> bool.

Fixpoint keyed (key : A -> result K) (l : list A) : result (list (K * A)) :=
  match l with
  | [] => Ok []
  | x :: l' =>
      k <- key x ;;
      kl <- keyed key l' ;;
      Ok ((k, x) :: kl)
  end.

Fixpoint insert_by (x : K * A) (l : list (K * A)) : list (K * A) :=
  match l with
  | [] => [x]
  | y :: l' => if lt (fst y) (fst x) then y :: insert_by x l' else x :: l
  end.

Definition stable_sort (l : list (K * A)) : list (K * A) :=
  fold_right insert_by [] l.

(** [l.sort(key=key)] *)
Definition list_sort (key : A -> result K) (l : list A) : result (list A) :=
  kl <- keyed key l ;;
  Ok (map snd (stable_sort kl)).

(** [sorted(l, key=key, reverse=True)] for a key that cannot raise: the
    list is reversed, sorted, and reversed again, which keeps the order of
    elements with equal keys. *)
Definition sorted_reverse (key : A -> K) (l : list A) : list A :=
  rev (map snd (stable_sort (map (fun x => (key x, x)) (rev l)))).
End Sort.

(** [<] on pairs of integers, as on Python tuples. *)
Definition pair_ltb (a b : Z * Z) : bool :=
  (fst a <? fst b)%Z || ((fst a =? fst b)%Z && (snd a <? snd b)%Z).

(** [<] on strings: by code points, a proper prefix first. *)
Fixpoint str_ltb (s t : str) : bool :=
  match s, t with
  | _, [] => false
  | [], _ :: _ => true
  | a :: s', b :: t' =>
      (code a <? code b) || ((code a =? code b) && str_ltb s' t')
  end.

(** ** master_index.py (and, word for word, compact_index.py) *)

Record tag_stat : Type := mkTagStat {
  stat_tag : str;
  stat_count : nat;
  stat_books : nat
}.

Record statistics : Type := mkStatistics {
  total_books : nat;
  total_slides : nat;
  total_tags : nat;
  top_tags : list tag_stat
}.

Module MasterIndexGenerator.

(** The hyphen branch converts outside the [try]; only the other branch
    catches [ValueError]. *)
Definition _parse_page_num (page_str : str) : result Z :=
  if contains "-"%char page_str then
    py_int (split_head "-"%char page_str)
  else
    match py_int page_str with
    | Ok v => Ok v
    | Raise ValueError => Ok 0%Z
    | Raise e => Raise e
    end.

(** [tag_map[tag].append(entry)] on a [defaultdict(list)] *)
Definition tag_append (tag_map : dict str (list SlideEntry)) (tag : str)
  (entry : SlideEntry) : dict str (list SlideEntry) :=
  let bucket :=
    match dict_get str_eqb tag tag_map with
    | Some l => l
    | None => []
    end in
  dict_set str_eqb tag (bucket ++ [entry]) tag_map.

Definition fill_entry (tag_map : dict str (list SlideEntry))
  (entry : SlideEntry) : dict str (list SlideEntry) :=
  fold_left (fun tm tag => tag_append tm tag entry) (tags entry) tag_map.

Definition fill_entries (tag_map : dict str (list SlideEntry))
  (entries : list SlideEntry) : dict str (list SlideEntry) :=
  fold_left fill_entry entries tag_map.

(** The first loop of [_build_tag_index]. *)
Definition fill (all_entries : dict Z (list SlideEntry))
  : dict str (list SlideEntry) :=
  fold_left (fun tm item => fill_entries tm (snd item)) all_entries [].

(** [lambda e: (e.book_number, self._parse_page_num(e.page_number))];
    [in] on [None] is a [TypeError]. *)
Definition sort_key (e : SlideEntry) : result (Z * Z) :=
  match page_number e with
  | Some page_str =>
      n <- _parse_page_num page_str ;;
      Ok (book_number e, n)
  | None => Raise TypeError
  end.

(** The second loop of [_build_tag_index]: each bucket sorted in place, in
    the order of the keys. *)
Fixpoint sort_buckets (tag_map : dict str (list SlideEntry))
  : result (dict str (list SlideEntry)) :=
  match tag_map with
  | [] => Ok []
  | (tag, bucket) :: rest =>
      bucket' <- list_sort pair_ltb sort_key bucket ;;
      rest' <- sort_buckets rest ;;
      Ok ((tag, bucket') :: rest')
  end.

Definition _build_tag_index (all_entries : dict Z (list SlideEntry))
  : result (dict str (list SlideEntry)) :=
  sort_buckets (fill all_entries).

Record t : Type := mk {
  all_entries : dict Z (list SlideEntry);
  tag_index : dict str (list SlideEntry)
}.

Definition __init__ (all_entries : dict Z (list SlideEntry)) : result t :=
  tag_index <- _build_tag_index all_entries ;;
  Ok (mk all_entries tag_index).

(** [len(set(e.book_number for e in entries))] *)
Definition distinct_books (entries : list SlideEntry) : nat :=
  length (nodup Z.eq_dec (map book_number entries)).

Definition get_statistics (self : t) : statistics :=
  let total_slides :=
    fold_left (fun acc entries => acc + length entries)
      (dict_values (all_entries self)) 0 in
  let tag_stats :=
    map (fun item =>
           mkTagStat (fst item) (length (snd item))
             (distinct_books (snd item)))
      (sorted_reverse Nat.ltb
         (fun x : str * list SlideEntry => length (snd x))
         (tag_index self)) in
  mkStatistics (length (all_entries self)) total_slides
    (length (tag_index self)) (firstn 20 tag_stats).

(** [sorted(self.tag_index.keys())] *)
Definition sorted_tags (self : t) : list str :=
  map snd
    (stable_sort str_ltb
       (map (fun tag => (tag, tag)) (dict_keys (tag_index self)))).

(** [self.tag_index[tag]] for each tag of a list; [None] stands for the
    [KeyError] of a tag that is no key. *)
Fixpoint tag_sections (tag_index : dict str (list SlideEntry))
  (tags : list str) : option (list (str * list SlideEntry)) :=
  match tags with
  | [] => Some []
  | tag :: rest =>
      match dict_get str_eqb tag tag_index with
      | None => None
      | Some entries =>
          match tag_sections tag_index rest with
          | None => None
          | Some sections => Some ((tag, entries) :: sections)
          end
      end
  end.

(** The loop of [generate]: the tags and their entries in the order in
    which the sections are written. *)
Definition sections (self : t) : option (list (str * list SlideEntry)) :=
  tag_sections (tag_index self) (sorted_tags self).

End MasterIndexGenerator.

(** ** book_pdfs.py *)

(** [min(l)] and [max(l)] of a list that is not empty. *)
Definition list_min (x : Z) (l : list Z) : Z := fold_left Z.min l x.
Definition list_max (x : Z) (l : list Z) : Z := fold_left Z.max l x.

Module BookPDFGenerator.

(** The loop of [_get_page_range]: the hyphen branch converts outside the
    [try], the other branch skips a token that does not convert. *)
Fixpoint page_nums (entries : list SlideEntry) (acc : list Z)
  : result (list Z) :=
  match entries with
  | [] => Ok acc
  | entry :: rest =>
      let page_str := str_of_attr (page_number entry) in
      if contains "-"%char page_str then
        n <- py_int (split_head "-"%char page_str) ;;
        page_nums rest (acc ++ [n])
      else
        match py_int page_str with
        | Ok n => page_nums rest (acc ++ [n])
        | Raise ValueError => page_nums rest acc
        | Raise e => Raise e
        end
  end.

Record t : Type := mk {
  book_number : Z;
  entries : list SlideEntry;
  output_dir : str;
  title_prefix : str
}.

(** The constructor, without the creation of the output directory;
    [title_prefix or "Study Material"]. *)
Definition __init__ (book_number : Z) (entries : list SlideEntry)
  (output_dir : str) (title_prefix : option str) : t :=
  mk book_number entries output_dir
    match title_prefix with
    | None | Some [] => lit "Study Material"
    | Some p => p
    end.

Definition _get_page_range (self : t) : result str :=
  match entries self with
  | [] => Ok (lit "N/A")
  | _ =>
      nums <- page_nums (entries self) [] ;;
      match nums with
      | [] => Ok (lit "N/A")
      | x :: l =>
          lo <- py_str (list_min x l) ;;
          hi <- py_str (list_max x l) ;;
          Ok (lo ++ lit "-" ++ hi)
      end
  end.

(** The name of the file that [generate] writes in [output_dir]. *)
Definition file_name (self : t) : result str :=
  b <- py_str (book_number self) ;;
  Ok (lit "Book_" ++ b ++ lit "_Contents.pdf").

End BookPDFGenerator.

(** ** Vocabulary of the statements *)

(** The sort key of an entry whose page token converts; [(0, 0)] stands in
    where it does not (no such entry is in a bucket that was sorted). *)
Definition key_of (e : SlideEntry) : Z * Z :=
  match MasterIndexGenerator.sort_key e with
  | Ok k => k
  | Raise _ => (0%Z, 0%Z)
  end.

Definition pair_eqb (a b : Z * Z) : bool :=
  (fst a =? fst b)%Z && (snd a =? snd b)%Z.

(** [(book, page)] of the first entry is not above that of the second. *)
Definition pair_le (a b : Z * Z) : Prop :=
  (fst a < fst b)%Z \/ (fst a = fst b /\ snd a <= snd b)%Z.

Definition entry_le (e1 e2 : SlideEntry) : Prop :=
  pair_le (key_of e1) (key_of e2).

(** The entries of [l] with sort key [k], in the order of [l]. *)
Definition with_key (k : Z * Z) (l : list SlideEntry) : list SlideEntry :=
  filter (fun e => pair_eqb (key_of e) k) l.

(** [sorted] is [original] sorted by [(book, page)], entries with equal
    keys in their original order. *)
Definition stable_sorted (original sorted : list SlideEntry) : Prop :=
  Permutation original sorted
  /\ StronglySorted entry_le sorted
  /\ forall k, with_key k sorted = with_key k original.

(** The bucket of a key, empty without the key. *)
Definition bucket_of {K V} (keq : K -> K -> bool) (k : K)
  (d : dict K (list V)) : list V :=
  match dict_get keq k d with
  | Some l => l
  | None => []
  end.

(** Appending to the bucket of [k], which is created when missing. *)
Definition bucket_append {K V} (keq : K -> K -> bool) (k : K) (x : V)
  (d : dict K (list V)) : dict K (list V) :=
  dict_set keq k (bucket_of keq k d ++ [x]) d.

Definition dict_wf {K V} (d : dict K V) : Prop := NoDup (dict_keys d).

(** A page token the tag index can sort: one whose numeric value exists. *)
Definition page_sortable (e : SlideEntry) : bool :=
  is_ok (MasterIndexGenerator.sort_key e).

(** The entries that the loop of [parse] keeps from a list of matches. *)
Definition kept (ms : list Match) : list SlideEntry :=
  flat_map (fun m => match IndexParser.parse_match m with
                     | Ok entry => [entry]
                     | Raise _ => []
                     end) ms.

(** A match on which the body of the loop raises nothing that the loop
    does not catch. *)
Definition caught (m : Match) : bool :=
  match IndexParser.parse_match m with
  | Raise TypeError => false
  | _ => true
  end.

Definition readable (fs : filesystem) (path : str) : bool :=
  match fs path with
  | Readable _ => true
  | _ => false
  end.

(** Why [parse_multiple] skips a file that is not readable. *)
Definition skip_reason (fs : filesystem) (path : str) : exn :=
  match fs path with
  | Unreadable err => IndexParser.read_error path err
  | _ => IndexParser.not_found path
  end.

(** How many times an entry carries a tag. *)
Definition occurrences (tag : str) (e : SlideEntry) : nat :=
  length (filter (str_eqb tag) (tags e)).

(** The bucket of a tag before it is sorted: the entries of the mapping in
    its order (book keys as met, then each book's list), once per occurrence
    of the tag in the entry. *)
Definition insertion_bucket (tag : str) (d : dict Z (list SlideEntry))
  : list SlideEntry :=
  flat_map (fun e => repeat e (occurrences tag e)) (concat (dict_values d)).

Definition str_dec : forall s t : str, {s = t} + {s <> t} :=
  list_eq_dec ascii_dec.

(** The statistics item of one tag and its bucket. *)
Definition stat_of (item : str * list SlideEntry) : tag_stat :=
  mkTagStat (fst item) (length (snd item))
    (length (nodup Z.eq_dec (map book_number (snd item)))).

(** The tags of [ti] ranked by decreasing bucket size, tags with buckets of
    one size in the order of [ti]. *)
Definition ranked_by_size (ti ranked : dict str (list SlideEntry)) : Prop :=
  Permutation ti ranked
  /\ StronglySorted (fun a b => length (snd b) <= length (snd a)) ranked
  /\ forall n, filter (fun a => length (snd a) =? n) ranked
               = filter (fun a => length (snd a) =? n) ti.

(** What one file contributes to [parse_multiple]: the entries its own new
    parser returns, nothing when the file is skipped. *)
Definition file_entries (fs : filesystem) (pattern : option regex)
  (file_path : str) : list SlideEntry :=
  match IndexParser.parse_file fs pattern file_path with
  | Ok entries => entries
  | Raise _ => []
  end.

Definition in_book (b : Z) (e : SlideEntry) : bool :=
  Z.eqb b (book_number e).

(** [n] calls of [parse] in a row on one parser: the parser after them and
    what the last call returned (the parser's list, before any call). *)
Fixpoint parse_times (n : nat) (fs : filesystem) (self : IndexParser.t)
  : IndexParser.t * result (list SlideEntry) :=
  match n with
  | 0 => (self, Ok (IndexParser.entries self))
  | S n' =>
      match parse_times n' fs self with
      | (self', Ok _) => IndexParser.parse fs self'
      | (self', Raise e) => (self', Raise e)
      end
  end.

(** ** What a pattern matches

    [mt base r w c c']: the pattern [r], whose first group has number
    [base], can match the text [w], taking the groups from [c] to [c'].
    This is every way the matcher may take, without the order in which it
    tries them. *)
Inductive mt : nat -> regex -> str -> caps -> caps -> Prop :=
| mt_eps base c : mt base Eps [] c c
| mt_chr base neg items a c :
    class_mem neg items a = true -> mt base (Chr neg items) [a] c c
| mt_seq base r1 r2 w1 w2 c c1 c2 :
    mt base r1 w1 c c1 -> mt (base + ngroups r1) r2 w2 c1 c2 ->
    mt base (Seq r1 r2) (w1 ++ w2) c c2
| mt_alt_l base r1 r2 w c c' :
    mt base r1 w c c' -> mt base (Alt r1 r2) w c c'
| mt_alt_r base r1 r2 w c c' :
    mt (base + ngroups r1) r2 w c c' -> mt base (Alt r1 r2) w c c'
| mt_star_nil base r c : mt base (Star r) [] c c
| mt_star_cons base r w1 w2 c c1 c2 :
    mt base r w1 c c1 -> mt base (Star r) w2 c1 c2 ->
    mt base (Star r) (w1 ++ w2) c c2
| mt_plus base r w1 w2 c c1 c2 :
    mt base r w1 c c1 -> mt base (Star r) w2 c1 c2 ->
    mt base (Plus r) (w1 ++ w2) c c2
| mt_opt_some base r w c c' : mt base r w c c' -> mt base (Opt r) w c c'
| mt_opt_none base r c : mt base (Opt r) [] c c
| mt_group base r w c c' :
    mt (S base) r w c c' -> mt base (Group r) w c (set_cap base w c')
| mt_noncap base r w c c' : mt base r w c c' -> mt base (NonCap r) w c c'.

(** A matching function [f] for [r] succeeds only by matching, as [mt]
    allows, a prefix of the text and passing the rest on. *)
Definition sound_at (R : Type) (base : nat) (r : regex)
  (f : kont R -> kont R) : Prop :=
  forall k s c res, f k s c = Some res ->
    exists w s' c', s = w ++ s' /\ mt base r w c c' /\ k s' c' = Some res.

(** One or more decimal digits. *)
Definition is_digits (g : str) : Prop :=
  g <> [] /\ Forall (fun a => isdecimal a = true) g.

(** A page token of the default pattern: digits, or digits, a hyphen and
    digits. *)
Definition is_page_token (g : str) : Prop :=
  exists lo, is_digits lo
             /\ (g = lo \/ exists hi, is_digits hi /\ g = lo ++ "-"%char :: hi).

(** A title of the default pattern: not empty, without a double quote. *)
Definition is_title (g : str) : Prop :=
  g <> [] /\ Forall (fun a => ascii_eqb dquote a = false) g.

(** The value of a string of decimal digits. *)
Definition digits_value (g : str) : Z :=
  fold_left (fun acc a => (10 * acc + digit_val a)%Z) g 0%Z.

(** A matching function looks at its continuation only on texts that are
    not longer than the one it is given. *)
Definition local_at (R : Type) (f : kont R -> kont R) : Prop :=
  forall (k1 k2 : kont R) (s : str) (c : caps),
    (forall s' c', length s' <= length s -> k1 s' c' = k2 s' c') ->
    f k1 s c = f k2 s c.

(** A tag token: [#] and one or more word characters or hyphens. *)
Definition tag_char (a : ascii) : bool := isword a || ascii_eqb "-"%char a.

Definition is_tag (t : str) : Prop :=
  exists body, t = "#"%char :: body /\ body <> []
               /\ Forall (fun a => tag_char a = true) body.

Definition is_blank (ws : str) : Prop :=
  ws <> [] /\ Forall (fun a => isspace a = true) ws.

(** [tag_block toks s]: the text [s] is the tokens [toks], in this order,
    with white space between one and the next. *)
Inductive tag_block : list str -> str -> Prop :=
| tag_block_one t : is_tag t -> tag_block [t] t
| tag_block_more t ws toks rest :
    is_tag t -> is_blank ws -> tag_block toks rest ->
    tag_block (t :: toks) (t ++ ws ++ rest).

(** The field constraints of an entry of the default pattern. *)
Definition entry_wf (e : SlideEntry) : Prop :=
  (0 <= book_number e)%Z
  /\ (exists p, page_number e = Some p /\ is_page_token p)
  /\ (exists t, slide_title e = Some t /\ is_title t)
  /\ tags e <> [] /\ Forall is_tag (tags e).

(** What [parse_multiple] prints for the files of a list it skips. *)
Definition skip_warnings (fs : filesystem) (paths : list str) : list str :=
  map (fun p => IndexParser.warning p (skip_reason fs p))
    (filter (fun p => negb (readable fs p)) paths).

(** The first group of the pattern, when it has one, took part in the
    match (so that [int] is given a string and not [None]). *)
Definition group1_bound (m : Match) : bool :=
  match nth_error (m_groups m) 1 with
  | Some None => false
  | _ => true
  end.

(** ** Sample inputs *)

Definition newline : str := [ascii_of_nat 10].

Definition quoted (s : str) : str := dquote :: s ++ [dquote].

(** Two records; the second has a page range and a repeated tag. *)
Definition sample_a : str :=
  lit "Book 1, Page 6, Slide: " ++ quoted (lit "Intro")
    ++ lit " #networking #basics" ++ newline
    ++ lit "Book 2, Page 120-121, Slide: " ++ quoted (lit "Review")
    ++ lit " #review #basics #review" ++ newline.

(** One record, and a line whose book is not a number. *)
Definition sample_b : str :=
  lit "Book 1, Page 3, Slide: " ++ quoted (lit "Setup") ++ lit " #basics"
    ++ newline
    ++ lit "Book X, Page 6, Slide: " ++ quoted (lit "Bad") ++ lit " #x"
    ++ newline.

Definition sample_fs : filesystem :=
  fun path =>
    if str_eqb path (lit "a.md") then Readable sample_a
    else if str_eqb path (lit "b.md") then Readable sample_b
    else if str_eqb path (lit "notes.md") then Readable (lit "no record here")
    else if str_eqb path (lit "locked.md") then
      Unreadable (lit "[Errno 13] Permission denied: 'locked.md'")
    else Missing.

Definition entry_a1 : SlideEntry :=
  mkSlideEntry 1 (Some (lit "6")) (Some (lit "Intro"))
    [lit "#networking"; lit "#basics"].

Definition entry_a2 : SlideEntry :=
  mkSlideEntry 2 (Some (lit "120-121")) (Some (lit "Review"))
    [lit "#review"; lit "#basics"; lit "#review"].

Definition entry_b1 : SlideEntry :=
  mkSlideEntry 1 (Some (lit "3")) (Some (lit "Setup")) [lit "#basics"].

Definition sample_mapping : dict Z (list SlideEntry) :=
  [(1%Z, [entry_a1; entry_b1]); (2%Z, [entry_a2])].

Definition sample_index : dict str (list SlideEntry) :=
  [(lit "#networking", [entry_a1]);
   (lit "#basics", [entry_b1; entry_a1; entry_a2]);
   (lit "#review", [entry_a2; entry_a2])].

Definition sample_generator : MasterIndexGenerator.t :=
  MasterIndexGenerator.mk sample_mapping sample_index.

(** [Book\s+(\d+)]: one group. *)
Definition one_group_pattern : regex :=
  seqs [text (lit "Book"); Plus re_s; Group (Plus re_d)].

(** The default pattern followed by [(!)?]: five groups. *)
Definition five_group_pattern : regex :=
  Seq IndexParser.DEFAULT_PATTERN (Opt (Group (chr "!"%char))).

(** The default pattern with [(\w+)] for the page token. *)
Definition word_page_pattern : regex :=
  seqs
    [ text (lit "Book"); Plus re_s; Group (Plus re_d);
      chr ","%char; Plus re_s; text (lit "Page"); Plus re_s;
      Group (Plus (Chr false [CWord]));
      chr ","%char; Plus re_s; text (lit "Slide:"); Plus re_s; chr dquote;
      Group (Plus (Chr true [CLit dquote]));
      chr dquote; Plus re_s;
      Group (Seq TAG_PATTERN
               (Star (NonCap (Seq (Plus re_s) TAG_PATTERN)))) ].

(** [(\d)?x]: the first group may take no part in a match. *)
Definition optional_book_pattern : regex :=
  Seq (Opt (Group re_d)) (chr "x"%char).

Definition word_page_text : str :=
  lit "Book 1, Page abc, Slide: " ++ quoted (lit "T") ++ lit " #x".

Definition custom_fs : filesystem :=
  fun path =>
    if str_eqb path (lit "words.md") then Readable word_page_text
    else if str_eqb path (lit "x.md") then Readable (lit "x")
    else if str_eqb path (lit "a.md") then Readable sample_a
    else Missing.

(** A match object whose first group is not a number. *)
Definition bad_book_match : Match :=
  mkMatch 0 6
    [Some (lit "Book X"); Some (lit "X"); Some (lit "6"); Some (lit "Bad");
     Some (lit "#x")].

(** The first match of the default pattern in [sample_a]. *)
Definition first_match : Match :=
  mkMatch 0 50
    [Some (lit "Book 1, Page 6, Slide: " ++ quoted (lit "Intro")
             ++ lit " #networking #basics");
     Some (lit "1"); Some (lit "6"); Some (lit "Intro");
     Some (lit "#networking #basics")].

(** ** Vocabulary of the further properties *)

(** The distinct elements of [l] in the order in which they first occur,
    without those of [seen]. *)
Fixpoint first_seen {K} (keq : K -> K -> bool) (seen l : list K) : list K :=
  match l with
  | [] => []
  | x :: l' =>
      if existsb (keq x) seen then first_seen keq seen l'
      else x :: first_seen keq (x :: seen) l'
  end.

(** Appending each value to the bucket of its key, pair after pair. *)
Definition group_pairs {K V} (keq : K -> K -> bool) (ps : list (K * V))
  (d : dict K (list V)) : dict K (list V) :=
  fold_left (fun d p => bucket_append keq (fst p) (snd p) d) ps d.

(** Each entry once per tag it carries, under that tag. *)
Definition tag_pairs (entries : list SlideEntry) : list (str * SlideEntry) :=
  flat_map (fun e => map (fun tag => (tag, e)) (tags e)) entries.

Definition book_pairs (entries : list SlideEntry) : list (Z * SlideEntry) :=
  map (fun e => (book_number e, e)) entries.

(** The page text that [_get_page_range] looks at. *)
Definition page_text (e : SlideEntry) : str := str_of_attr (page_number e).

(** The number that [_get_page_range] reads from an entry: [int] of the page
    text before the first hyphen, nothing when [int] rejects it. *)
Definition range_value (e : SlideEntry) : option Z :=
  match py_int (split_head "-"%char (page_text e)) with
  | Ok v => Some v
  | Raise _ => None
  end.

Definition range_values (entries : list SlideEntry) : list Z :=
  flat_map (fun e => match range_value e with
                     | Some v => [v]
                     | None => []
                     end) entries.

(** A page text with a hyphen whose beginning is no number. *)
Definition bad_range (e : SlideEntry) : bool :=
  contains "-"%char (page_text e)
  && match range_value e with Some _ => false | None => true end.

(** [passes base r s s' c c']: at the head of [s], the way through [r] that
    the matcher tries first leaves the text [s'] and the groups [c'];
    whatever follows [r], if it accepts [s'] with [c'], the match succeeds
    with its result. *)
Definition passes (R : Type) (base : nat) (r : regex) (s s' : str)
  (c c' : caps) : Prop :=
  forall (k : kont R) (res : R),
    k s' c' = Some res -> rmatch base r k s c = Some res.

(** No tag follows: the text goes on neither with a character of a tag nor
    with white space and a tag. *)
Definition no_tag_ahead (rest : str) : Prop :=
  match rest with
  | [] => True
  | a :: _ => tag_char a = false
  end
  /\ forall ws t post, is_blank ws -> is_tag t -> rest <> ws ++ t ++ post.

(** [is_record e s]: the text [s] is a record of the default format whose
    fields are those of [e]: the words [Book], [Page] and [Slide:], the
    commas and the quoted title, with white space where the pattern has
    [\s+], the book number in at most [int_max_str_digits] digits, and a
    block of tags. *)
Definition is_record (e : SlideEntry) (s : str) : Prop :=
  exists ws1 ws2 ws3 ws4 ws5 ws6 b p t block,
    s = lit "Book" ++ ws1 ++ b ++ ","%char :: ws2 ++ lit "Page" ++ ws3 ++ p
          ++ ","%char :: ws4 ++ lit "Slide:" ++ ws5 ++ dquote :: t
          ++ dquote :: ws6 ++ block
    /\ Forall is_blank [ws1; ws2; ws3; ws4; ws5; ws6]
    /\ is_digits b /\ length b <= int_max_str_digits
    /\ book_number e = digits_value b
    /\ page_number e = Some p /\ is_page_token p
    /\ slide_title e = Some t /\ is_title t
    /\ tag_block (tags e) block.

(** What the default pattern guarantees about the tags of an entry parsed
    from [content]: there are some, each is a tag token, and they are the
    tokens of the entry's own block: the text holds a record with the
    fields of the entry whose block of tags gives the tags, all of them
    (a tag that is repeated in the block is repeated in the list) and in
    the order of the block, and after which no further tag follows, so
    that the block is the whole of the tags of the record. *)
Definition tags_from (content : str) (e : SlideEntry) : Prop :=
  tags e <> []
  /\ Forall is_tag (tags e)
  /\ exists pre record post,
       content = pre ++ record ++ post
       /\ is_record e record /\ no_tag_ahead post.

(** [records_in s es]: the entries [es] are those of records that follow
    one another in the text [s], in this order and without overlap, each
    record with the whole of its tags. *)
Inductive records_in : str -> list SlideEntry -> Prop :=
| records_end s : records_in s []
| records_skip a s es : records_in s es -> records_in (a :: s) es
| records_here e record rest es :
    is_record e record -> no_tag_ahead rest -> records_in rest es ->
    records_in (record ++ rest) (e :: es).

(** The lines of a file, each ended by a line feed. *)
Definition unlines (lines : list str) : str :=
  concat (map (fun l => l ++ newline) lines).

(** ** Further sample inputs *)

(** An entry whose page text has a hyphen after a letter. *)
Definition appendix_entry : SlideEntry :=
  mkSlideEntry 1 (Some (lit "A-12")) (Some (lit "Appendix"))
    [lit "#appendix"].

(** The first record of [sample_a]. *)
Definition record_a1 : str :=
  lit "Book 1, Page 6, Slide: " ++ quoted (lit "Intro")
    ++ lit " #networking #basics".

Definition record_a2 : str :=
  lit "Book 2, Page 120-121, Slide: " ++ quoted (lit "Review")
    ++ lit " #review #basics #review".

(** The first book of [sample_mapping] as [books] hands it to its
    generator. *)
Definition sample_book : BookPDFGenerator.t :=
  BookPDFGenerator.__init__ 1 [entry_a1; entry_b1] (lit "output") None.

(* ================================================================== *)
(** * Part II: properties                                              *)
(* ================================================================== *)

(** ** Characters *)

Lemma ascii_eqb_eq (a b : ascii) : ascii_eqb a b = true <-> a = b.
Proof. unfold ascii_eqb. apply Ascii.eqb_eq. Qed.

Lemma ascii_eqb_refl (a : ascii) : ascii_eqb a a = true.
Proof. apply ascii_eqb_eq. reflexivity. Qed.

Lemma str_eqb_eq (s t : str) : str_eqb s t = true <-> s = t.
Proof.
  revert t. induction s as [|a s IH]; intros [|b t]; simpl;
    try (split; [discriminate | discriminate]); try tauto.
  rewrite andb_true_iff, ascii_eqb_eq, IH. split.
  - intros [-> ->]. reflexivity.
  - intros H. inversion H. auto.
Qed.

Lemma str_eqb_refl (s : str) : str_eqb s s = true.
Proof. apply str_eqb_eq. reflexivity. Qed.

Lemma str_eqb_neq (s t : str) : str_eqb s t = false <-> s <> t.
Proof.
  split.
  - intros H E. apply str_eqb_eq in E. congruence.
  - intros H. destruct (str_eqb s t) eqn:E; auto.
    apply str_eqb_eq in E. contradiction.
Qed.

(** ** [int] and [_parse_page_num] *)

Example py_int_ex1 : py_int (lit " 12 ") = Ok 12%Z.
Proof. reflexivity. Qed.

Example py_int_ex2 : py_int (lit "1_0") = Ok 10%Z.
Proof. reflexivity. Qed.

Example py_int_ex3 : py_int (lit "1__0") = Raise ValueError.
Proof. reflexivity. Qed.

Example py_int_ex4 : py_int (lit "-7") = Ok (-7)%Z.
Proof. reflexivity. Qed.

Example parse_page_num_range :
  MasterIndexGenerator._parse_page_num (lit "120-121") = Ok 120%Z.
Proof. reflexivity. Qed.

Example parse_page_num_fallback :
  MasterIndexGenerator._parse_page_num (lit "abc") = Ok 0%Z.
Proof. reflexivity. Qed.

(** [int] raises nothing but [ValueError] on a string. *)
Lemma py_int_raises (s : str) (e : exn) :
  py_int s = Raise e -> e = ValueError.
Proof.
  unfold py_int. destruct (int_sign _) as [neg body].
  destruct (int_digits false body 0 0) as [[v n]|].
  - destruct (int_max_str_digits <? n); congruence.
  - congruence.
Qed.

(** Without a hyphen the page value is total: the integer, or 0. *)
Lemma parse_page_num_no_hyphen (s : str) :
  contains "-"%char s = false ->
  exists v, MasterIndexGenerator._parse_page_num s = Ok v
            /\ (py_int s = Ok v \/ (py_int s = Raise ValueError /\ v = 0%Z)).
Proof.
  intros H. unfold MasterIndexGenerator._parse_page_num. rewrite H.
  destruct (py_int s) as [v|e] eqn:E.
  - exists v. auto.
  - apply py_int_raises in E as E'. subst e. exists 0%Z. auto.
Qed.

(** With a hyphen the page value is the conversion of what precedes the
    first hyphen, whatever that conversion does. *)
Lemma parse_page_num_hyphen (s : str) :
  contains "-"%char s = true ->
  MasterIndexGenerator._parse_page_num s = py_int (split_head "-"%char s).
Proof.
  intros H. unfold MasterIndexGenerator._parse_page_num. rewrite H.
  reflexivity.
Qed.

(** C1 (the code departs from the claim): on a token with a hyphen whose
    first part is not a number, the page value function raises [ValueError]
    instead of returning 0; the same holds for a token that starts with the
    hyphen. *)
Theorem parse_page_num_raises_on_hyphen_token :
  MasterIndexGenerator._parse_page_num (lit "A-12") = Raise ValueError
  /\ MasterIndexGenerator._parse_page_num (lit "-") = Raise ValueError
  /\ contains "-"%char (lit "A-12") = true
  /\ py_int (split_head "-"%char (lit "A-12")) = Raise ValueError.
Proof. repeat split; reflexivity. Qed.

(** The same token in an entry makes [_build_tag_index] raise. *)
Example build_tag_index_raises_on_hyphen_token :
  MasterIndexGenerator._build_tag_index
    [(1%Z, [mkSlideEntry 1 (Some (lit "A-12")) (Some (lit "Appendix"))
              [lit "#appendix"]])]
  = Raise ValueError.
Proof. vm_compute. reflexivity. Qed.

(** With more digits than [int] accepts, a page token of digits has value
    0, and the same digits before a hyphen raise. *)
Example parse_page_num_long_digits :
  MasterIndexGenerator._parse_page_num (repeat "9"%char 4301) = Ok 0%Z
  /\ MasterIndexGenerator._parse_page_num
       (repeat "9"%char 4301 ++ lit "-2")
     = Raise ValueError.
Proof. split; vm_compute; reflexivity. Qed.

(** ** [int] on decimal digits *)

Lemma digit_not_special (a : ascii) :
  isdecimal a = true ->
  int_space a = false /\ is_code 45 a = false /\ is_code 43 a = false
  /\ is_code 95 a = false.
Proof.
  unfold isdecimal, int_space, in_range, is_code.
  rewrite andb_true_iff, !Nat.leb_le. intros [H1 H2].
  rewrite !orb_false_iff, andb_false_iff, !Nat.leb_gt, !Nat.eqb_neq. lia.
Qed.

Lemma lstrip_none (f : ascii -> bool) (w : str) :
  Forall (fun a => f a = false) w -> lstrip f w = w.
Proof.
  intros H. destruct H as [|a w Ha _]; simpl; [reflexivity|].
  rewrite Ha. reflexivity.
Qed.

Lemma strip_none (f : ascii -> bool) (w : str) :
  Forall (fun a => f a = false) w -> strip f w = w.
Proof.
  intros H. unfold strip. rewrite (@lstrip_none f w H).
  rewrite lstrip_none by (apply Forall_rev; exact H).
  apply rev_involutive.
Qed.

Lemma int_digits_all (w : str) :
  Forall (fun a => isdecimal a = true) w ->
  forall prev acc n, prev = true \/ w <> [] ->
    int_digits prev w acc n
    = Some (fold_left (fun acc a => (10 * acc + digit_val a)%Z) w acc,
            n + length w).
Proof.
  induction 1 as [|a w Ha _ IH]; intros prev acc n Hp; simpl.
  - destruct Hp as [->|Hp]; [|contradiction]. rewrite Nat.add_0_r.
    reflexivity.
  - rewrite Ha. rewrite IH by (left; reflexivity).
    rewrite Nat.add_succ_r. reflexivity.
Qed.

Lemma digits_value_nonneg (w : str) (acc : Z) :
  (0 <= acc)%Z ->
  (0 <= fold_left (fun acc a => (10 * acc + digit_val a)%Z) w acc)%Z.
Proof.
  revert acc. induction w as [|a w IH]; intros acc H; cbn [fold_left];
    [exact H|].
  apply IH. unfold digit_val.
  pose proof (Nat2Z.is_nonneg (code a - 48)). lia.
Qed.

(** On one or more decimal digits [int] gives their value, unless there are
    more of them than [int] accepts. *)
Lemma py_int_digits (g : str) :
  is_digits g ->
  py_int g = if int_max_str_digits <? length g then Raise ValueError
             else Ok (digits_value g).
Proof.
  intros [Hne Hd]. unfold py_int.
  assert (Hs : Forall (fun a => int_space a = false) g).
  { eapply Forall_impl; [|exact Hd]. intros a Ha.
    apply digit_not_special in Ha. tauto. }
  rewrite strip_none by exact Hs.
  destruct g as [|a g]; [contradiction|].
  inversion Hd as [|a' g' Ha Hg]; subst.
  destruct (digit_not_special a Ha) as [_ [H45 [H43 _]]].
  unfold int_sign. rewrite H45, H43.
  rewrite int_digits_all; [|exact Hd|right; discriminate].
  reflexivity.
Qed.

Lemma digits_no_hyphen (g : str) :
  is_digits g -> contains "-"%char g = false.
Proof.
  intros [_ H]. unfold contains. induction H as [|a g Ha _ IH]; simpl;
    [reflexivity|].
  rewrite IH, orb_false_r.
  destruct (ascii_eqb "-"%char a) eqn:E; [|reflexivity].
  apply ascii_eqb_eq in E. subst a. vm_compute in Ha. discriminate Ha.
Qed.

(** ** The stable sort *)

Section SortFacts.
Variables A K : Type.
Variable lt : K -> K -> bool.
Hypothesis lt_asym : forall a b, lt a b = true -> lt b a = false.
Hypothesis le_trans :
  forall a b c, lt b a = false -> lt c b = false -> lt c a = false.

(** The key of [x] is not above the key of [y]. *)
Definition kle (x y : K * A) : Prop := lt (fst y) (fst x) = false.

Lemma insert_by_perm (x : K * A) (l : list (K * A)) :
  Permutation (x :: l) (insert_by lt x l).
Proof.
  induction l as [|y l IH]; simpl.
  - apply Permutation_refl.
  - destruct (lt (fst y) (fst x)).
    + eapply perm_trans; [apply perm_swap|]. apply perm_skip. exact IH.
    + apply Permutation_refl.
Qed.

Lemma stable_sort_perm (l : list (K * A)) :
  Permutation l (stable_sort lt l).
Proof.
  induction l as [|x l IH]; simpl.
  - apply Permutation_refl.
  - eapply perm_trans; [apply perm_skip; exact IH|]. apply insert_by_perm.
Qed.

Lemma insert_by_In (x y : K * A) (l : list (K * A)) :
  In y (insert_by lt x l) -> y = x \/ In y l.
Proof.
  intros H. apply Permutation_in with (l' := x :: l) in H.
  - destruct H; auto.
  - apply Permutation_sym, insert_by_perm.
Qed.

Lemma insert_by_sorted (x : K * A) (l : list (K * A)) :
  StronglySorted kle l -> StronglySorted kle (insert_by lt x l).
Proof.
  induction 1 as [|y l Hs IH Hy]; simpl.
  - constructor; [constructor | constructor].
  - destruct (lt (fst y) (fst x)) eqn:E.
    + constructor; [exact IH|].
      rewrite Forall_forall. intros z Hz.
      apply insert_by_In in Hz. destruct Hz as [->|Hz].
      * unfold kle. apply lt_asym. exact E.
      * rewrite Forall_forall in Hy. apply Hy. exact Hz.
    + constructor; [constructor; assumption|].
      constructor; [exact E|].
      rewrite Forall_forall in Hy |- *. intros z Hz.
      unfold kle in *. apply le_trans with (b := fst y); auto.
Qed.

Lemma stable_sort_sorted (l : list (K * A)) :
  StronglySorted kle (stable_sort lt l).
Proof.
  induction l as [|x l IH]; simpl.
  - constructor.
  - apply insert_by_sorted. exact IH.
Qed.

(** Elements that [p] selects and that [lt] does not separate keep their
    order. *)
Lemma insert_by_filter (p : K -> bool) (x : K * A) (l : list (K * A)) :
  (forall a b, p a = true -> p b = true -> lt a b = false) ->
  filter (fun y => p (fst y)) (insert_by lt x l)
  = filter (fun y => p (fst y)) (x :: l).
Proof.
  intros Hp. induction l as [|y l IH]; simpl; [reflexivity|].
  destruct (lt (fst y) (fst x)) eqn:E; simpl; [|reflexivity].
  simpl in IH. rewrite IH.
  destruct (p (fst x)) eqn:Px, (p (fst y)) eqn:Py; try reflexivity.
  rewrite (Hp _ _ Py Px) in E. discriminate.
Qed.

Lemma stable_sort_filter (p : K -> bool) (l : list (K * A)) :
  (forall a b, p a = true -> p b = true -> lt a b = false) ->
  filter (fun y => p (fst y)) (stable_sort lt l)
  = filter (fun y => p (fst y)) l.
Proof.
  intros Hp. induction l as [|x l IH]; simpl; [reflexivity|].
  rewrite insert_by_filter by exact Hp. simpl. rewrite IH. reflexivity.
Qed.

(** The keys computed by [keyed]. *)
Lemma keyed_ok (key : A -> result K) (l : list A) (kl : list (K * A)) :
  keyed key l = Ok kl ->
  map snd kl = l /\ Forall (fun p => key (snd p) = Ok (fst p)) kl.
Proof.
  revert kl. induction l as [|x l IH]; simpl; intros kl H.
  - inversion H. split; [reflexivity | constructor].
  - destruct (key x) as [k|] eqn:Ek; simpl in H; [|discriminate].
    destruct (keyed key l) as [kl'|] eqn:El; simpl in H; [|discriminate].
    inversion H; subst. destruct (IH kl' eq_refl) as [H1 H2].
    simpl. split; [f_equal; exact H1 | constructor; auto].
Qed.

Lemma keyed_total (key : A -> result K) (l : list A) :
  Forall (fun x => is_ok (key x) = true) l ->
  exists kl, keyed key l = Ok kl.
Proof.
  induction 1 as [|x l Hx _ [kl IH]]; simpl.
  - eexists. reflexivity.
  - destruct (key x) as [k|]; [|discriminate]. simpl.
    rewrite IH. simpl. eexists. reflexivity.
Qed.

Lemma keyed_raises (key : A -> result K) (l : list A) (e : exn) :
  keyed key l = Raise e -> exists x, In x l /\ key x = Raise e.
Proof.
  induction l as [|x l IH]; simpl; [discriminate|].
  destruct (key x) as [k|e'] eqn:Ek; simpl.
  - destruct (keyed key l) as [kl'|e'']; simpl; [discriminate|].
    intros H. inversion H; subst.
    destruct (IH eq_refl) as [y [Hy1 Hy2]]. exists y. auto.
  - intros H. inversion H; subst. exists x. auto.
Qed.
End SortFacts.

Lemma StronglySorted_map {A B} (R : A -> A -> Prop) (R' : B -> B -> Prop)
  (f : A -> B) (l : list A) :
  (forall x y, In x l -> In y l -> R x y -> R' (f x) (f y)) ->
  StronglySorted R l -> StronglySorted R' (map f l).
Proof.
  intros H Hs. induction Hs as [|x l Hs IH Hx]; simpl; constructor.
  - apply IH. intros; apply H; simpl; auto.
  - rewrite Forall_forall in Hx |- *. intros y Hy.
    apply in_map_iff in Hy. destruct Hy as [z [<- Hz]].
    apply H; simpl; auto.
Qed.

Lemma filter_map_snd {A K} (q : K -> bool) (kt : A -> K)
  (kl : list (K * A)) :
  Forall (fun p => kt (snd p) = fst p) kl ->
  filter (fun x => q (kt x)) (map snd kl)
  = map snd (filter (fun p => q (fst p)) kl).
Proof.
  induction 1 as [|p kl Hp _ IH]; simpl; [reflexivity|].
  rewrite Hp, IH. destruct (q (fst p)); reflexivity.
Qed.

(** ** The order on [(book, page)] pairs *)

Lemma pair_ltb_asym (a b : Z * Z) : pair_ltb a b = true -> pair_ltb b a = false.
Proof.
  unfold pair_ltb. destruct a as [a1 a2], b as [b1 b2]; simpl.
  rewrite orb_true_iff, andb_true_iff, orb_false_iff, andb_false_iff.
  rewrite !Z.ltb_lt, !Z.eqb_eq, !Z.ltb_ge, Z.eqb_neq. lia.
Qed.

Lemma pair_ltb_false (a b : Z * Z) : pair_ltb b a = false <-> pair_le a b.
Proof.
  unfold pair_ltb, pair_le. destruct a as [a1 a2], b as [b1 b2]; simpl.
  rewrite orb_false_iff, andb_false_iff.
  rewrite Z.ltb_ge, Z.eqb_neq, Z.ltb_ge. lia.
Qed.

Lemma pair_le_trans (a b c : Z * Z) :
  pair_ltb b a = false -> pair_ltb c b = false -> pair_ltb c a = false.
Proof.
  rewrite !pair_ltb_false. unfold pair_le. lia.
Qed.

Lemma pair_eqb_eq (a b : Z * Z) : pair_eqb a b = true <-> a = b.
Proof.
  unfold pair_eqb. destruct a, b; simpl.
  rewrite andb_true_iff, !Z.eqb_eq. split.
  - intros [-> ->]. reflexivity.
  - intros H. inversion H. auto.
Qed.

Lemma pair_ltb_irrefl_on (k a b : Z * Z) :
  pair_eqb a k = true -> pair_eqb b k = true -> pair_ltb a b = false.
Proof.
  rewrite !pair_eqb_eq. intros -> ->. apply pair_ltb_false.
  unfold pair_le. lia.
Qed.

Lemma pair_le_antisym (a b : Z * Z) : pair_le a b -> pair_le b a -> a = b.
Proof.
  unfold pair_le. destruct a, b; simpl. intros H1 H2.
  f_equal; lia.
Qed.

(** ** Dictionaries *)

Section DictFacts.
Variables K V : Type.
Variable keq : K -> K -> bool.
Hypothesis keq_spec : forall a b, keq a b = true <-> a = b.

Lemma keq_refl (a : K) : keq a a = true.
Proof. apply keq_spec. reflexivity. Qed.

Lemma keq_neq (a b : K) : a <> b -> keq a b = false.
Proof.
  intros H. destruct (keq a b) eqn:E; [|reflexivity].
  apply keq_spec in E. contradiction.
Qed.

Lemma dict_get_set_same (k : K) (v : V) (d : dict K V) :
  dict_get keq k (dict_set keq k v d) = Some v.
Proof.
  induction d as [|[k' v'] d IH]; simpl.
  - rewrite keq_refl. reflexivity.
  - destruct (keq k k') eqn:E; simpl; rewrite E; auto.
Qed.

Lemma dict_get_set_other (k k' : K) (v : V) (d : dict K V) :
  k' <> k -> dict_get keq k' (dict_set keq k v d) = dict_get keq k' d.
Proof.
  intros Hne. induction d as [|[k0 v0] d IH]; simpl.
  - rewrite keq_neq by exact Hne. reflexivity.
  - destruct (keq k k0) eqn:E; simpl.
    + apply keq_spec in E. subst k0.
      rewrite (keq_neq Hne). reflexivity.
    + rewrite IH. reflexivity.
Qed.

Lemma dict_get_None (k : K) (d : dict K V) :
  dict_get keq k d = None <-> ~ In k (dict_keys d).
Proof.
  induction d as [|[k' v'] d IH]; simpl; [tauto|].
  destruct (keq k k') eqn:E.
  - apply keq_spec in E. subst. split; [discriminate | tauto].
  - rewrite IH. split.
    + intros H [H1|H1]; [|tauto]. subst.
      rewrite keq_refl in E. discriminate.
    + tauto.
Qed.

Lemma dict_get_In (k : K) (v : V) (d : dict K V) :
  dict_get keq k d = Some v -> In (k, v) d.
Proof.
  induction d as [|[k' v'] d IH]; simpl; [discriminate|].
  destruct (keq k k') eqn:E.
  - apply keq_spec in E. intros H. inversion H; subst. auto.
  - auto.
Qed.

Lemma dict_In_get (k : K) (v : V) (d : dict K V) :
  dict_wf d -> In (k, v) d -> dict_get keq k d = Some v.
Proof.
  unfold dict_wf. induction d as [|[k' v'] d IH]; simpl; [tauto|].
  intros Hnd [H|H].
  - inversion H; subst. rewrite keq_refl. reflexivity.
  - inversion Hnd; subst. destruct (keq k k') eqn:E.
    + apply keq_spec in E. subst. exfalso. apply H2.
      change (In (fst (k', v)) (map fst d)). apply in_map. exact H.
    + apply IH; assumption.
Qed.

Lemma dict_keys_set (k : K) (v : V) (d : dict K V) :
  dict_keys (dict_set keq k v d)
  = if dict_mem keq k d then dict_keys d else dict_keys d ++ [k].
Proof.
  unfold dict_mem. induction d as [|[k' v'] d IH]; simpl; [reflexivity|].
  destruct (keq k k') eqn:E; simpl; [reflexivity|].
  rewrite IH. destruct (dict_get keq k d); reflexivity.
Qed.

Lemma dict_set_wf (k : K) (v : V) (d : dict K V) :
  dict_wf d -> dict_wf (dict_set keq k v d).
Proof.
  unfold dict_wf. intros H. rewrite dict_keys_set. unfold dict_mem.
  destruct (dict_get keq k d) eqn:E; [exact H|].
  apply dict_get_None in E.
  apply NoDup_rev in H. rewrite <- (rev_involutive (_ ++ _)).
  apply NoDup_rev. rewrite rev_app_distr. simpl. constructor; [|exact H].
  rewrite <- in_rev. exact E.
Qed.

End DictFacts.

Section BucketFacts.
Variables K V : Type.
Variable keq : K -> K -> bool.
Hypothesis keq_spec : forall a b, keq a b = true <-> a = b.

Lemma bucket_append_same (k : K) (x : V) (d : dict K (list V)) :
  bucket_of keq k (bucket_append keq k x d) = bucket_of keq k d ++ [x].
Proof.
  unfold bucket_append, bucket_of at 1.
  rewrite dict_get_set_same by exact keq_spec. reflexivity.
Qed.

Lemma bucket_append_other (k k' : K) (x : V) (d : dict K (list V)) :
  k' <> k -> bucket_of keq k' (bucket_append keq k x d) = bucket_of keq k' d.
Proof.
  intros H. unfold bucket_append, bucket_of at 1.
  rewrite dict_get_set_other by assumption. reflexivity.
Qed.

Lemma bucket_append_eq (k k' : K) (x : V) (d : dict K (list V)) :
  bucket_of keq k' (bucket_append keq k x d)
  = bucket_of keq k' d ++ (if keq k' k then [x] else []).
Proof.
  destruct (keq k' k) eqn:E.
  - apply keq_spec in E. subst. apply bucket_append_same.
  - rewrite bucket_append_other; [rewrite app_nil_r; reflexivity|].
    intros ->. rewrite (keq_refl keq keq_spec) in E. discriminate.
Qed.

Lemma bucket_append_wf (k : K) (x : V) (d : dict K (list V)) :
  dict_wf d -> dict_wf (bucket_append keq k x d).
Proof. apply dict_set_wf. exact keq_spec. Qed.

Lemma bucket_append_mem (k k' : K) (x : V) (d : dict K (list V)) :
  dict_mem keq k' (bucket_append keq k x d) = dict_mem keq k' d || keq k' k.
Proof.
  unfold bucket_append, dict_mem. destruct (keq k' k) eqn:E.
  - apply keq_spec in E. subst.
    rewrite dict_get_set_same by exact keq_spec.
    rewrite orb_true_r. reflexivity.
  - rewrite dict_get_set_other;
      [rewrite orb_false_r; reflexivity | exact keq_spec |].
    intros ->. rewrite (keq_refl keq keq_spec) in E. discriminate.
Qed.

(** The values of the dictionary after an append, up to order. *)
Lemma bucket_append_values (k : K) (x : V) (d : dict K (list V)) :
  Permutation (concat (dict_values (bucket_append keq k x d)))
              (x :: concat (dict_values d)).
Proof.
  unfold bucket_append, bucket_of.
  induction d as [|[k' l'] d IH]; simpl.
  - apply Permutation_refl.
  - destruct (keq k k') eqn:E; simpl.
    + rewrite <- app_assoc. simpl.
      apply Permutation_sym. apply Permutation_middle.
    + eapply perm_trans; [apply Permutation_app_head; exact IH|].
      apply Permutation_sym. apply Permutation_middle.
Qed.
End BucketFacts.

(** ** The tag index *)

Lemma tag_append_bucket (tm : dict str (list SlideEntry)) (tag : str)
  (e : SlideEntry) :
  MasterIndexGenerator.tag_append tm tag e = bucket_append str_eqb tag e tm.
Proof. reflexivity. Qed.

Lemma fill_tags_bucket (e : SlideEntry) (t : str) (tgs : list str)
  (tm : dict str (list SlideEntry)) :
  bucket_of str_eqb t
    (fold_left (fun tm tag => MasterIndexGenerator.tag_append tm tag e) tgs tm)
  = bucket_of str_eqb t tm ++ repeat e (length (filter (str_eqb t) tgs)).
Proof.
  revert tm. induction tgs as [|tag tgs IH]; intros tm; simpl.
  - rewrite app_nil_r. reflexivity.
  - rewrite IH, tag_append_bucket.
    rewrite (bucket_append_eq str_eqb str_eqb_eq). rewrite <- app_assoc.
    destruct (str_eqb t tag); reflexivity.
Qed.

Lemma fill_entry_bucket (t : str) (e : SlideEntry)
  (tm : dict str (list SlideEntry)) :
  bucket_of str_eqb t (MasterIndexGenerator.fill_entry tm e)
  = bucket_of str_eqb t tm ++ repeat e (occurrences t e).
Proof. apply fill_tags_bucket. Qed.

Lemma fill_entries_bucket (t : str) (es : list SlideEntry)
  (tm : dict str (list SlideEntry)) :
  bucket_of str_eqb t (MasterIndexGenerator.fill_entries tm es)
  = bucket_of str_eqb t tm ++ flat_map (fun e => repeat e (occurrences t e)) es.
Proof.
  unfold MasterIndexGenerator.fill_entries.
  revert tm. induction es as [|e es IH]; intros tm; simpl.
  - rewrite app_nil_r. reflexivity.
  - rewrite IH, fill_entry_bucket, <- app_assoc. reflexivity.
Qed.

Lemma fill_from_bucket (t : str) (d : dict Z (list SlideEntry))
  (tm : dict str (list SlideEntry)) :
  bucket_of str_eqb t
    (fold_left (fun tm item => MasterIndexGenerator.fill_entries tm (snd item))
       d tm)
  = bucket_of str_eqb t tm ++ insertion_bucket t d.
Proof.
  unfold insertion_bucket.
  revert tm. induction d as [|[bk es] d IH]; intros tm; simpl.
  - rewrite app_nil_r. reflexivity.
  - rewrite IH, fill_entries_bucket, flat_map_app, <- app_assoc.
    reflexivity.
Qed.

(** Before the sort, the bucket of a tag holds the entries of the mapping in
    its order, once per occurrence of the tag. *)
Lemma fill_bucket (t : str) (d : dict Z (list SlideEntry)) :
  bucket_of str_eqb t (MasterIndexGenerator.fill d) = insertion_bucket t d.
Proof. unfold MasterIndexGenerator.fill. rewrite fill_from_bucket. reflexivity. Qed.

Lemma fill_tags_wf (e : SlideEntry) (tgs : list str)
  (tm : dict str (list SlideEntry)) :
  dict_wf tm ->
  dict_wf (fold_left (fun tm tag => MasterIndexGenerator.tag_append tm tag e)
             tgs tm).
Proof.
  revert tm. induction tgs as [|tag tgs IH]; intros tm H; simpl; [exact H|].
  apply IH. rewrite tag_append_bucket.
  apply (bucket_append_wf str_eqb str_eqb_eq). exact H.
Qed.

Lemma fill_entries_wf (es : list SlideEntry)
  (tm : dict str (list SlideEntry)) :
  dict_wf tm -> dict_wf (MasterIndexGenerator.fill_entries tm es).
Proof.
  unfold MasterIndexGenerator.fill_entries.
  revert tm. induction es as [|e es IH]; intros tm H; simpl; [exact H|].
  apply IH. apply fill_tags_wf. exact H.
Qed.

Lemma fill_wf (d : dict Z (list SlideEntry)) :
  dict_wf (MasterIndexGenerator.fill d).
Proof.
  unfold MasterIndexGenerator.fill.
  assert (G : forall tm : dict str (list SlideEntry), dict_wf tm ->
    dict_wf (fold_left
      (fun tm item => MasterIndexGenerator.fill_entries tm (snd item)) d tm)).
  { induction d as [|[bk es] d IH]; intros tm H; simpl; [exact H|].
    apply IH. apply fill_entries_wf. exact H. }
  apply G. constructor.
Qed.

Lemma insertion_bucket_In (t : str) (d : dict Z (list SlideEntry))
  (e : SlideEntry) :
  In e (insertion_bucket t d) <->
  In e (concat (dict_values d)) /\ In t (tags e).
Proof.
  unfold insertion_bucket. rewrite in_flat_map. split.
  - intros [x [Hx Hr]]. apply repeat_spec in Hr as Hxe. subst x.
    split; [exact Hx|].
    unfold occurrences in Hr.
    destruct (filter (str_eqb t) (tags e)) as [|t' l] eqn:E;
      [simpl in Hr; contradiction|].
    assert (Ht : In t' (filter (str_eqb t) (tags e))) by (rewrite E; left; auto).
    apply filter_In in Ht. destruct Ht as [Ht1 Ht2].
    apply str_eqb_eq in Ht2. subst. exact Ht1.
  - intros [H1 H2]. exists e. split; [exact H1|].
    unfold occurrences.
    assert (Ht : In t (filter (str_eqb t) (tags e))).
    { apply filter_In. split; [exact H2 | apply str_eqb_refl]. }
    destruct (filter (str_eqb t) (tags e)); [contradiction|].
    simpl. left. reflexivity.
Qed.

(** ** [list.sort] on entries *)

Lemma sort_key_key_of (e : SlideEntry) (k : Z * Z) :
  MasterIndexGenerator.sort_key e = Ok k -> key_of e = k.
Proof. unfold key_of. intros ->. reflexivity. Qed.

Lemma list_sort_stable (l l' : list SlideEntry) :
  list_sort pair_ltb MasterIndexGenerator.sort_key l = Ok l' ->
  stable_sorted l l'.
Proof.
  unfold list_sort. intros H.
  destruct (keyed MasterIndexGenerator.sort_key l) as [kl|] eqn:Ek;
    simpl in H; [|discriminate].
  inversion H; subst l'; clear H.
  apply keyed_ok in Ek. destruct Ek as [Hl Hk].
  assert (Hk' : Forall (fun p => key_of (snd p) = fst p) kl).
  { eapply Forall_impl; [|exact Hk]. intros p Hp.
    apply sort_key_key_of. exact Hp. }
  assert (Hs' : Forall (fun p => key_of (snd p) = fst p)
                  (stable_sort pair_ltb kl)).
  { rewrite Forall_forall in Hk' |- *. intros p Hp. apply Hk'.
    eapply Permutation_in; [apply Permutation_sym, stable_sort_perm|].
    exact Hp. }
  split; [|split].
  - rewrite <- Hl. apply Permutation_map. apply stable_sort_perm.
  - apply StronglySorted_map with (R := kle pair_ltb (A := SlideEntry)).
    + intros x y Hx Hy Hxy. unfold entry_le.
      rewrite Forall_forall in Hs'.
      rewrite (Hs' x Hx), (Hs' y Hy). apply pair_ltb_false. exact Hxy.
    + apply stable_sort_sorted.
      * apply pair_ltb_asym.
      * apply pair_le_trans.
  - intros k. unfold with_key. rewrite <- Hl.
    rewrite (filter_map_snd (fun k' => pair_eqb k' k) key_of Hs').
    rewrite (filter_map_snd (fun k' => pair_eqb k' k) key_of Hk').
    f_equal.
    apply (stable_sort_filter pair_ltb (fun k' => pair_eqb k' k)).
    intros a b. apply pair_ltb_irrefl_on.
Qed.

Lemma list_sort_keys_ok (l l' : list SlideEntry) :
  list_sort pair_ltb MasterIndexGenerator.sort_key l = Ok l' ->
  Forall (fun e => MasterIndexGenerator.sort_key e = Ok (key_of e)) l'.
Proof.
  unfold list_sort. intros H.
  destruct (keyed MasterIndexGenerator.sort_key l) as [kl|] eqn:Ek;
    simpl in H; [|discriminate].
  inversion H; subst l'; clear H.
  apply keyed_ok in Ek. destruct Ek as [_ Hk].
  rewrite Forall_forall in Hk |- *. intros e He.
  apply in_map_iff in He. destruct He as [p [<- Hp]].
  assert (Hp' : In p kl).
  { eapply Permutation_in; [apply Permutation_sym, stable_sort_perm|].
    exact Hp. }
  specialize (Hk p Hp'). rewrite Hk.
  rewrite (sort_key_key_of _ Hk). reflexivity.
Qed.

Lemma list_sort_total (l : list SlideEntry) :
  Forall (fun e => page_sortable e = true) l ->
  exists l', list_sort pair_ltb MasterIndexGenerator.sort_key l = Ok l'.
Proof.
  intros H. unfold list_sort.
  destruct (keyed_total MasterIndexGenerator.sort_key H) as [kl ->].
  simpl. eexists. reflexivity.
Qed.

Lemma sort_buckets_ok (tm ti : dict str (list SlideEntry)) :
  MasterIndexGenerator.sort_buckets tm = Ok ti ->
  Forall2 (fun a b =>
             fst a = fst b /\ stable_sorted (snd a) (snd b)
             /\ Forall (fun e => MasterIndexGenerator.sort_key e
                                 = Ok (key_of e)) (snd b)) tm ti.
Proof.
  revert ti. induction tm as [|[tag bucket] tm IH]; simpl; intros ti H.
  - inversion H. constructor.
  - destruct (list_sort pair_ltb MasterIndexGenerator.sort_key bucket)
      as [b'|] eqn:Eb; simpl in H; [|discriminate].
    destruct (MasterIndexGenerator.sort_buckets tm) as [rest|] eqn:Er;
      simpl in H; [|discriminate].
    inversion H; subst. constructor.
    + simpl. split; [reflexivity|].
      split; [apply list_sort_stable | apply (list_sort_keys_ok bucket)];
        exact Eb.
    + apply IH. reflexivity.
Qed.

Lemma sort_buckets_total (tm : dict str (list SlideEntry)) :
  Forall (fun item => Forall (fun e => page_sortable e = true) (snd item)) tm ->
  exists ti, MasterIndexGenerator.sort_buckets tm = Ok ti.
Proof.
  induction 1 as [|[tag bucket] tm Hb _ [ti IH]]; simpl.
  - eexists. reflexivity.
  - simpl in Hb. destruct (list_sort_total Hb) as [b' ->]. simpl.
    rewrite IH. simpl.
    eexists. reflexivity.
Qed.

Lemma Forall2_In_r {A B} (R : A -> B -> Prop) (l : list A) (l' : list B)
  (y : B) :
  Forall2 R l l' -> In y l' -> exists x, In x l /\ R x y.
Proof.
  induction 1 as [|a b l l' Hab _ IH]; simpl; [tauto|].
  intros [<-|H].
  - exists a. auto.
  - destruct (IH H) as [x [Hx Hr]]. exists x. auto.
Qed.

(** What precedes the first hyphen of a range is what is converted. *)
Lemma split_head_app (lo hi : str) :
  contains "-"%char lo = false ->
  split_head "-"%char (lo ++ "-"%char :: hi) = lo
  /\ contains "-"%char (lo ++ "-"%char :: hi) = true.
Proof.
  unfold contains. induction lo as [|a lo IH]; simpl.
  - auto.
  - destruct (ascii_eqb "-"%char a) eqn:E; simpl; intros H;
      [discriminate H|].
    destruct (IH H) as [H1 H2]. rewrite H1, H2. auto.
Qed.

Lemma tag_index_buckets (d : dict Z (list SlideEntry))
  (ti : dict str (list SlideEntry)) :
  MasterIndexGenerator._build_tag_index d = Ok ti ->
  forall tag bucket, In (tag, bucket) ti ->
    stable_sorted (insertion_bucket tag d) bucket.
Proof.
  unfold MasterIndexGenerator._build_tag_index.
  intros H tag bucket Hin.
  apply sort_buckets_ok in H.
  destruct (@Forall2_In_r _ _ _ _ _ _ H Hin)
    as [[tag0 b0] [Hin0 [Ht [Hs _]]]].
  simpl in Ht, Hs. subst tag0.
  apply (@dict_In_get _ _ str_eqb str_eqb_eq _ _ _ (fill_wf d)) in Hin0.
  rewrite <- fill_bucket. unfold bucket_of. rewrite Hin0. exact Hs.
Qed.

(** In a bucket that was sorted every entry has its sort key: its book
    number and the numeric value of its page token. *)
Lemma tag_index_keys (d : dict Z (list SlideEntry))
  (ti : dict str (list SlideEntry)) :
  MasterIndexGenerator._build_tag_index d = Ok ti ->
  forall tag bucket, In (tag, bucket) ti ->
    Forall (fun e => exists page_str n,
                page_number e = Some page_str
                /\ MasterIndexGenerator._parse_page_num page_str = Ok n
                /\ key_of e = (book_number e, n)) bucket.
Proof.
  unfold MasterIndexGenerator._build_tag_index.
  intros H tag bucket Hin.
  apply sort_buckets_ok in H.
  destruct (@Forall2_In_r _ _ _ _ _ _ H Hin) as [b0 [_ [_ [_ Hk]]]].
  simpl in Hk. eapply Forall_impl; [|exact Hk].
  intros e He. unfold MasterIndexGenerator.sort_key in He.
  destruct (page_number e) as [page_str|] eqn:Ep; [|discriminate].
  destruct (MasterIndexGenerator._parse_page_num page_str) as [n|] eqn:En;
    simpl in He; [|discriminate].
  inversion He as [Hkey]. exists page_str, n. auto.
Qed.

(** C3: every bucket of the tag index that [_build_tag_index] returns is the
    bucket as filled (entries in the order of the mapping) sorted
    non-decreasingly by (book number, numeric page value), entries with equal
    keys in their order of insertion, the key of an entry being its book
    number and the value that [_parse_page_num] gives its page token; the
    numeric value of a range is that of its lower bound; and the index is
    returned whenever the page token of every tagged entry has a numeric
    value. *)
Theorem tag_buckets_sorted_stable (d : dict Z (list SlideEntry)) :
  (forall ti, MasterIndexGenerator._build_tag_index d = Ok ti ->
     forall tag bucket, In (tag, bucket) ti ->
       stable_sorted (insertion_bucket tag d) bucket
       /\ Forall (fun e => exists page_str n,
                     page_number e = Some page_str
                     /\ MasterIndexGenerator._parse_page_num page_str = Ok n
                     /\ key_of e = (book_number e, n)) bucket)
  /\ ((forall e, In e (concat (dict_values d)) -> tags e <> [] ->
         page_sortable e = true) ->
      exists ti, MasterIndexGenerator._build_tag_index d = Ok ti)
  /\ (forall lo hi, contains "-"%char lo = false ->
        MasterIndexGenerator._parse_page_num (lo ++ "-"%char :: hi)
        = py_int lo)
  /\ (forall lo hi, is_digits lo -> length lo <= int_max_str_digits ->
        MasterIndexGenerator._parse_page_num (lo ++ "-"%char :: hi)
        = Ok (digits_value lo)).
Proof.
  assert (Hrange : forall lo hi, contains "-"%char lo = false ->
            MasterIndexGenerator._parse_page_num (lo ++ "-"%char :: hi)
            = py_int lo).
  { intros lo hi H. destruct (split_head_app lo hi H) as [H1 H2].
    rewrite parse_page_num_hyphen by exact H2. rewrite H1. reflexivity. }
  unfold MasterIndexGenerator._build_tag_index.
  split; [|split; [|split]].
  - intros ti H tag bucket Hin. split.
    + apply (tag_index_buckets d H tag bucket Hin).
    + apply (tag_index_keys d H tag bucket Hin).
  - intros Hok. apply sort_buckets_total.
    rewrite Forall_forall. intros [tag b] Hin. simpl.
    apply (@dict_In_get _ _ str_eqb str_eqb_eq _ _ _ (fill_wf d)) in Hin.
    assert (Hb : b = insertion_bucket tag d).
    { rewrite <- fill_bucket. unfold bucket_of. rewrite Hin. reflexivity. }
    subst b. rewrite Forall_forall. intros e He.
    apply insertion_bucket_In in He. destruct He as [He1 He2].
    apply Hok; [exact He1|]. intros E. rewrite E in He2. contradiction.
  - exact Hrange.
  - intros lo hi Hd Hlen. rewrite Hrange.
    + rewrite (py_int_digits Hd).
      replace (int_max_str_digits <? length lo) with false; [reflexivity|].
      symmetry. apply Nat.ltb_ge. exact Hlen.
    + apply digits_no_hyphen. exact Hd.
Qed.

(** ** Statistics *)

Lemma StronglySorted_rev {A} (R : A -> A -> Prop) (l : list A) :
  StronglySorted R l -> StronglySorted (fun a b => R b a) (rev l).
Proof.
  induction 1 as [|x l Hs IH Hx]; simpl; [constructor|].
  assert (G : forall l1 : list A, StronglySorted (fun a b => R b a) l1 ->
            Forall (fun y => R x y) l1 ->
            StronglySorted (fun a b => R b a) (l1 ++ [x])).
  { induction l1 as [|y l1 IH1]; simpl; intros H1 H2.
    - constructor; constructor.
    - inversion H1; subst. inversion H2; subst. constructor.
      + apply IH1; assumption.
      + apply Forall_app. split; [assumption|]. constructor; [assumption|].
        constructor. }
  apply G; [exact IH|]. apply Forall_rev. exact Hx.
Qed.

Lemma filter_rev {A} (p : A -> bool) (l : list A) :
  filter p (rev l) = rev (filter p l).
Proof.
  induction l as [|x l IH]; simpl; [reflexivity|].
  rewrite filter_app, IH. simpl. destruct (p x); simpl.
  - reflexivity.
  - rewrite app_nil_r. reflexivity.
Qed.

Lemma nat_ltb_asym (a b : nat) : (a <? b) = true -> (b <? a) = false.
Proof. rewrite Nat.ltb_lt, Nat.ltb_ge. lia. Qed.

Lemma nat_le_trans (a b c : nat) :
  (b <? a) = false -> (c <? b) = false -> (c <? a) = false.
Proof. rewrite !Nat.ltb_ge. lia. Qed.

Lemma keyed_pairs_fst {A K} (key : A -> K) (l : list A) :
  Forall (fun p => key (snd p) = fst p) (map (fun x => (key x, x)) l).
Proof.
  rewrite Forall_forall. intros p Hp. apply in_map_iff in Hp.
  destruct Hp as [x [<- _]]. reflexivity.
Qed.

Lemma map_snd_keyed {A K} (key : A -> K) (l : list A) :
  map snd (map (fun x => (key x, x)) l) = l.
Proof. rewrite map_map. simpl. apply map_id. Qed.

Section SortedReverse.
Variable A : Type.
Variable key : A -> nat.

Lemma sorted_reverse_keys (l : list A) :
  Forall (fun p => key (snd p) = fst p)
    (stable_sort Nat.ltb (map (fun x => (key x, x)) l)).
Proof.
  pose proof (keyed_pairs_fst key l) as Hk.
  rewrite Forall_forall in Hk |- *. intros p Hp. apply Hk.
  eapply Permutation_in; [apply Permutation_sym, stable_sort_perm|].
  exact Hp.
Qed.

Lemma sorted_reverse_perm (l : list A) :
  Permutation l (sorted_reverse Nat.ltb key l).
Proof.
  unfold sorted_reverse.
  eapply perm_trans; [apply Permutation_rev|].
  eapply perm_trans; [|apply Permutation_rev].
  rewrite <- (map_snd_keyed key (rev l)) at 1.
  apply Permutation_map. apply stable_sort_perm.
Qed.

Lemma sorted_reverse_sorted (l : list A) :
  StronglySorted (fun a b => key b <= key a) (sorted_reverse Nat.ltb key l).
Proof.
  unfold sorted_reverse.
  apply (StronglySorted_rev (R := fun a b => key a <= key b)).
  apply StronglySorted_map with (R := kle Nat.ltb (A := A)).
  - intros x y Hx Hy Hxy.
    pose proof (sorted_reverse_keys (rev l)) as Hs.
    rewrite Forall_forall in Hs.
    rewrite (Hs x Hx), (Hs y Hy). unfold kle in Hxy.
    apply Nat.ltb_ge in Hxy. exact Hxy.
  - apply stable_sort_sorted; [apply nat_ltb_asym | apply nat_le_trans].
Qed.

Lemma sorted_reverse_stable (l : list A) (n : nat) :
  filter (fun a => key a =? n) (sorted_reverse Nat.ltb key l)
  = filter (fun a => key a =? n) l.
Proof.
  unfold sorted_reverse. rewrite filter_rev.
  rewrite (filter_map_snd (fun k => k =? n) key
             (sorted_reverse_keys (rev l))).
  rewrite (stable_sort_filter Nat.ltb (fun k => k =? n)).
  - rewrite <- (filter_map_snd (fun k => k =? n) key
                  (keyed_pairs_fst key (rev l))).
    rewrite map_snd_keyed, filter_rev, rev_involutive. reflexivity.
  - intros a b Ha Hb. apply Nat.eqb_eq in Ha, Hb. subst.
    apply Nat.ltb_irrefl.
Qed.
End SortedReverse.

(** [sorted(..., key=size, reverse=True)] ranks by decreasing size and keeps
    the order of items of one size. *)
Lemma sorted_reverse_ranked (ti : dict str (list SlideEntry)) :
  ranked_by_size ti
    (sorted_reverse Nat.ltb
       (fun x : str * list SlideEntry => length (snd x)) ti).
Proof.
  split; [|split].
  - apply sorted_reverse_perm.
  - apply (sorted_reverse_sorted
             (fun x : str * list SlideEntry => length (snd x))).
  - intros n.
    apply (sorted_reverse_stable
             (fun x : str * list SlideEntry => length (snd x))).
Qed.

Lemma total_slides_sum (vals : list (list SlideEntry)) (acc : nat) :
  fold_left (fun acc entries => acc + length entries) vals acc
  = acc + list_sum (map (@length SlideEntry) vals).
Proof.
  revert acc. induction vals as [|v vals IH]; intros acc; simpl.
  - lia.
  - rewrite IH. lia.
Qed.

Lemma nodup_length_le {A} (dec : forall x y : A, {x = y} + {x <> y})
  (l : list A) : length (nodup dec l) <= length l.
Proof.
  induction l as [|x l IH]; simpl; [lia|].
  destruct (in_dec dec x l); simpl; lia.
Qed.

Lemma sort_buckets_keys (tm ti : dict str (list SlideEntry)) :
  MasterIndexGenerator.sort_buckets tm = Ok ti ->
  dict_keys ti = dict_keys tm.
Proof.
  intros H. apply sort_buckets_ok in H.
  induction H as [|a b l l' [Hab _] _ IH]; simpl; [reflexivity|].
  rewrite Hab, IH. reflexivity.
Qed.

Lemma build_tag_index_wf (d : dict Z (list SlideEntry))
  (ti : dict str (list SlideEntry)) :
  MasterIndexGenerator._build_tag_index d = Ok ti -> dict_wf ti.
Proof.
  unfold MasterIndexGenerator._build_tag_index. intros H.
  unfold dict_wf. rewrite (sort_buckets_keys _ H). apply fill_wf.
Qed.

(** C6: for a mapping (a dictionary: its keys are distinct) and the
    generator built from it, [total_books] is the number of distinct book
    keys, [total_slides] the sum of the lengths of the lists of the books,
    [total_tags] the number of distinct tags of the tag index; [top_tags]
    is the first 20 items of the tags ranked by decreasing bucket size
    (tags with buckets of one size in the order of the tag index), so at
    most 20 items; each item holds a tag of the index, the length of its
    bucket and the number of distinct book numbers in its bucket, which is
    at most the length. *)
Theorem statistics_summary (d : dict Z (list SlideEntry))
  (self : MasterIndexGenerator.t) :
  dict_wf d ->
  MasterIndexGenerator.__init__ d = Ok self ->
  let st := MasterIndexGenerator.get_statistics self in
  let ti := MasterIndexGenerator.tag_index self in
  total_books st = length (nodup Z.eq_dec (dict_keys d))
  /\ total_slides st = list_sum (map (fun item => length (snd item)) d)
  /\ total_tags st = length (nodup str_dec (dict_keys ti))
  /\ (exists ranked,
        ranked_by_size ti ranked
        /\ top_tags st = firstn 20 (map stat_of ranked))
  /\ length (top_tags st) <= 20
  /\ Forall (fun item =>
               stat_books item <= stat_count item
               /\ exists entries,
                    In (stat_tag item, entries) ti
                    /\ stat_count item = length entries
                    /\ stat_books item
                       = length (nodup Z.eq_dec (map book_number entries)))
       (top_tags st).
Proof.
  intros Hwf Hinit st ti.
  unfold MasterIndexGenerator.__init__ in Hinit.
  destruct (MasterIndexGenerator._build_tag_index d) as [ti0|] eqn:Eb;
    simpl in Hinit; [|discriminate].
  inversion Hinit; subst self. simpl in ti. subst ti.
  pose proof (sorted_reverse_ranked ti0) as Hr.
  set (ranked := sorted_reverse Nat.ltb
         (fun x : str * list SlideEntry => length (snd x)) ti0) in *.
  assert (Etop : top_tags st = firstn 20 (map stat_of ranked)) by reflexivity.
  split; [|split; [|split; [|split; [|split]]]].
  - simpl. unfold dict_keys. rewrite nodup_fixed_point by exact Hwf.
    rewrite length_map. reflexivity.
  - simpl. rewrite total_slides_sum. unfold dict_values.
    rewrite map_map. reflexivity.
  - simpl. rewrite nodup_fixed_point by exact (build_tag_index_wf d Eb).
    unfold dict_keys. rewrite length_map. reflexivity.
  - exists ranked. split; [exact Hr | exact Etop].
  - rewrite Etop. rewrite length_firstn. lia.
  - rewrite Etop. rewrite Forall_forall. intros item Hitem.
    assert (Hin : In item (map stat_of ranked)).
    { revert Hitem. generalize 20. generalize (map stat_of ranked).
      induction l as [|x l IH]; intros [|n]; simpl; try tauto.
      intros [H|H]; [auto | right; eapply IH; exact H]. }
    apply in_map_iff in Hin. destruct Hin as [[tag entries] [<- Hin]].
    simpl. split.
    { eapply Nat.le_trans; [apply nodup_length_le|].
      rewrite length_map. apply Nat.le_refl. }
    exists entries. split; [|split; reflexivity].
    destruct Hr as [Hp _].
    eapply Permutation_in; [apply Permutation_sym; exact Hp|]. exact Hin.
Qed.

(** ** The grouping loop of [parse_multiple] *)

Lemma dict_set_set {K V} (keq : K -> K -> bool) (k : K) (v v0 : V)
  (d : dict K V) :
  (forall a b, keq a b = true <-> a = b) ->
  dict_set keq k v (dict_set keq k v0 d) = dict_set keq k v d.
Proof.
  intros keq_spec. induction d as [|[k' v'] d IH]; simpl.
  - rewrite (keq_refl keq keq_spec). reflexivity.
  - destruct (keq k k') eqn:E; simpl; rewrite E; [reflexivity|].
    rewrite IH. reflexivity.
Qed.

Lemma group_entries_step (entry : SlideEntry) (rest : list SlideEntry)
  (d : dict Z (list SlideEntry)) :
  IndexParser.group_entries (entry :: rest) d
  = IndexParser.group_entries rest
      (bucket_append Z.eqb (book_number entry) entry d).
Proof.
  simpl. f_equal. unfold bucket_append, bucket_of, dict_mem.
  destruct (dict_get Z.eqb (book_number entry) d) as [l|] eqn:E; simpl.
  - rewrite E. reflexivity.
  - rewrite (dict_get_set_same Z.eqb Z.eqb_eq).
    apply dict_set_set. exact Z.eqb_eq.
Qed.

Lemma group_entries_app (es1 es2 : list SlideEntry)
  (d : dict Z (list SlideEntry)) :
  IndexParser.group_entries (es1 ++ es2) d
  = IndexParser.group_entries es2 (IndexParser.group_entries es1 d).
Proof.
  revert d. induction es1 as [|e es1 IH]; intros d; [reflexivity|].
  rewrite <- app_comm_cons, !group_entries_step. apply IH.
Qed.

Lemma group_entries_bucket (b : Z) (es : list SlideEntry)
  (d : dict Z (list SlideEntry)) :
  bucket_of Z.eqb b (IndexParser.group_entries es d)
  = bucket_of Z.eqb b d ++ filter (in_book b) es.
Proof.
  revert d. induction es as [|e es IH]; intros d.
  - simpl. rewrite app_nil_r. reflexivity.
  - rewrite group_entries_step, IH.
    rewrite (bucket_append_eq Z.eqb Z.eqb_eq), <- app_assoc.
    simpl. unfold in_book at 2. destruct (Z.eqb b (book_number e)); reflexivity.
Qed.

Lemma group_entries_mem (b : Z) (es : list SlideEntry)
  (d : dict Z (list SlideEntry)) :
  dict_mem Z.eqb b (IndexParser.group_entries es d)
  = dict_mem Z.eqb b d || existsb (in_book b) es.
Proof.
  revert d. induction es as [|e es IH]; intros d.
  - simpl. rewrite orb_false_r. reflexivity.
  - rewrite group_entries_step, IH.
    rewrite (bucket_append_mem Z.eqb Z.eqb_eq). simpl.
    rewrite orb_assoc. reflexivity.
Qed.

Lemma group_entries_wf (es : list SlideEntry)
  (d : dict Z (list SlideEntry)) :
  dict_wf d -> dict_wf (IndexParser.group_entries es d).
Proof.
  revert d. induction es as [|e es IH]; intros d H; [exact H|].
  rewrite group_entries_step. apply IH.
  apply (bucket_append_wf Z.eqb Z.eqb_eq). exact H.
Qed.

Lemma group_entries_values (es : list SlideEntry)
  (d : dict Z (list SlideEntry)) :
  Permutation (concat (dict_values (IndexParser.group_entries es d)))
              (concat (dict_values d) ++ es).
Proof.
  revert d. induction es as [|e es IH]; intros d.
  - simpl. rewrite app_nil_r. apply Permutation_refl.
  - rewrite group_entries_step.
    eapply perm_trans; [apply IH|].
    eapply perm_trans;
      [apply Permutation_app_tail; apply bucket_append_values|].
    simpl. apply Permutation_middle.
Qed.

(** ** The loop of [parse] *)

Lemma parse_loop_acc (ms : list Match) (acc : list SlideEntry) :
  IndexParser.parse_loop ms acc
  = (acc ++ fst (IndexParser.parse_loop ms []),
     snd (IndexParser.parse_loop ms [])).
Proof.
  revert acc. induction ms as [|m ms IH]; intros acc; simpl.
  - rewrite app_nil_r. reflexivity.
  - destruct (IndexParser.parse_match m) as [entry|e].
    + rewrite (IH (acc ++ [entry])), (IH [entry]). simpl.
      rewrite <- app_assoc. reflexivity.
    + destruct e; simpl; try (rewrite app_nil_r; reflexivity); apply IH.
Qed.

Lemma parse_file_depends (fs1 fs2 : filesystem) (pattern : option regex)
  (path : str) :
  fs1 path = fs2 path ->
  IndexParser.parse_file fs1 pattern path
  = IndexParser.parse_file fs2 pattern path.
Proof.
  intros H. unfold IndexParser.parse_file, IndexParser.__init__,
    IndexParser.file_exists, IndexParser.parse.
  rewrite H. destruct (fs2 path) eqn:E2; simpl; rewrite ?H, ?E2; reflexivity.
Qed.

(** ** The loop of [parse_multiple] *)

Lemma parse_multiple_loop_result (fs1 fs2 : filesystem)
  (pattern : option regex) (paths : list str)
  (d : dict Z (list SlideEntry)) (out1 out2 : list str) :
  (forall path, In path paths -> fs1 path = fs2 path) ->
  snd (IndexParser.parse_multiple_loop fs1 pattern paths d out1)
  = snd (IndexParser.parse_multiple_loop fs2 pattern paths d out2).
Proof.
  revert d out1 out2. induction paths as [|path paths IH];
    intros d out1 out2 H; simpl; [reflexivity|].
  rewrite (parse_file_depends fs1 fs2 pattern path) by (apply H; left; auto).
  assert (H' : forall p, In p paths -> fs1 p = fs2 p)
    by (intros; apply H; right; auto).
  destruct (IndexParser.parse_file fs2 pattern path) as [es|e].
  - apply IH. exact H'.
  - destruct e; try reflexivity; apply IH; exact H'.
Qed.

Lemma parse_multiple_loop_ok (fs : filesystem) (pattern : option regex)
  (paths : list str) (d d' : dict Z (list SlideEntry))
  (out out' : list str) :
  IndexParser.parse_multiple_loop fs pattern paths d out = (out', Ok d') ->
  d' = IndexParser.group_entries (flat_map (file_entries fs pattern) paths) d.
Proof.
  revert d out. induction paths as [|path paths IH]; intros d out; simpl.
  - intros H. inversion H. reflexivity.
  - unfold file_entries at 1.
    destruct (IndexParser.parse_file fs pattern path) as [es|e].
    + intros H. rewrite group_entries_app. apply IH in H. exact H.
    + destruct e; try discriminate; simpl; intros H; apply IH in H; exact H.
Qed.

(** ** The matcher takes only ways that [mt] allows *)

Section MatcherSound.
Variable R : Type.

Lemma rep_loop_sound (base : nat) (r : regex) (body : kont R -> kont R)
  (k : kont R) :
  sound_at base r body ->
  forall fuel s c res, rep_loop body k fuel s c = Some res ->
    exists w s' c',
      s = w ++ s' /\ mt base (Star r) w c c' /\ k s' c' = Some res.
Proof.
  intros Hbody. induction fuel as [|fuel IH]; intros s c res; simpl.
  - intros H. exists [], s, c. split; [reflexivity|].
    split; [constructor | exact H].
  - unfold orelse.
    destruct (body _ s c) as [x|] eqn:E.
    + intros H. inversion H; subst x; clear H.
      apply Hbody in E. destruct E as [w [s' [c' [Hs [Hm Hk]]]]].
      destruct (length s' =? length s).
      * exists w, s', c'. split; [exact Hs|]. split; [|exact Hk].
        rewrite <- (app_nil_r w). eapply mt_star_cons; [exact Hm|].
        constructor.
      * apply IH in Hk. destruct Hk as [w2 [s2 [c2 [Hs2 [Hm2 Hk2]]]]].
        exists (w ++ w2), s2, c2. split.
        { rewrite Hs, Hs2, app_assoc. reflexivity. }
        split; [|exact Hk2]. eapply mt_star_cons; eassumption.
    + intros H. exists [], s, c. split; [reflexivity|].
      split; [constructor | exact H].
Qed.

Lemma firstn_consumed (w s' : str) :
  firstn (length (w ++ s') - length s') (w ++ s') = w.
Proof.
  rewrite length_app. replace (length w + length s' - length s')
    with (length w) by lia.
  rewrite firstn_app, Nat.sub_diag, firstn_all. simpl.
  apply app_nil_r.
Qed.

Theorem rmatch_sound (r : regex) (base : nat) :
  sound_at base r (rmatch (R := R) base r).
Proof.
  revert base. induction r as
    [ | neg items | r1 IH1 r2 IH2 | r1 IH1 r2 IH2 | r1 IH1 | r1 IH1
      | r1 IH1 | r1 IH1 | r1 IH1 ];
    intros base k s c res; cbn [rmatch].
  - intros H. exists [], s, c. repeat split; [constructor | exact H].
  - destruct s as [|a s']; [discriminate|].
    destruct (class_mem neg items a) eqn:E; [|discriminate].
    intros H. exists [a], s', c. repeat split; [|exact H].
    constructor. exact E.
  - intros H. apply IH1 in H.
    destruct H as [w1 [s1 [c1 [Hs1 [Hm1 H]]]]].
    apply IH2 in H. destruct H as [w2 [s2 [c2 [Hs2 [Hm2 H]]]]].
    exists (w1 ++ w2), s2, c2. split.
    { rewrite Hs1, Hs2, app_assoc. reflexivity. }
    split; [|exact H]. econstructor; eassumption.
  - unfold orelse. destruct (rmatch base r1 k s c) as [x|] eqn:E.
    + intros H. inversion H; subst x. apply IH1 in E.
      destruct E as [w [s' [c' [Hs [Hm Hk]]]]].
      exists w, s', c'. repeat split; auto. apply mt_alt_l. exact Hm.
    + intros H. apply IH2 in H.
      destruct H as [w [s' [c' [Hs [Hm Hk]]]]].
      exists w, s', c'. repeat split; auto. apply mt_alt_r. exact Hm.
  - apply rep_loop_sound. apply IH1.
  - intros H. apply IH1 in H.
    destruct H as [w1 [s1 [c1 [Hs1 [Hm1 H]]]]].
    apply (@rep_loop_sound base r1 _ k (IH1 base)) in H.
    destruct H as [w2 [s2 [c2 [Hs2 [Hm2 H]]]]].
    exists (w1 ++ w2), s2, c2. split.
    { rewrite Hs1, Hs2, app_assoc. reflexivity. }
    split; [|exact H]. eapply mt_plus; eassumption.
  - unfold orelse. destruct (rmatch base r1 k s c) as [x|] eqn:E.
    + intros H. inversion H; subst x. apply IH1 in E.
      destruct E as [w [s' [c' [Hs [Hm Hk]]]]].
      exists w, s', c'. repeat split; auto. apply mt_opt_some. exact Hm.
    + intros H. exists [], s, c. repeat split; [apply mt_opt_none | exact H].
  - intros H. apply IH1 in H.
    destruct H as [w [s' [c' [Hs [Hm Hk]]]]].
    exists w, s', (set_cap base w c'). split; [exact Hs|].
    split; [constructor; exact Hm|].
    rewrite Hs in Hk. rewrite firstn_consumed in Hk. exact Hk.
  - intros H. apply IH1 in H.
    destruct H as [w [s' [c' [Hs [Hm Hk]]]]].
    exists w, s', c'. repeat split; auto. constructor. exact Hm.
Qed.
End MatcherSound.

(** A pattern touches only its own groups. *)
Lemma mt_frame (base : nat) (r : regex) (w : str) (c c' : caps) :
  mt base r w c c' ->
  forall i, i < base \/ base + ngroups r <= i -> c' i = c i.
Proof.
  induction 1; intros i Hi; simpl in *; try reflexivity.
  - rewrite IHmt2 by lia. apply IHmt1. lia.
  - apply IHmt. lia.
  - apply IHmt. lia.
  - rewrite IHmt2 by lia. apply IHmt1. lia.
  - rewrite IHmt2 by lia. apply IHmt1. lia.
  - apply IHmt. lia.
  - unfold set_cap. destruct (i =? base) eqn:E.
    + apply Nat.eqb_eq in E. lia.
    + apply IHmt. lia.
  - apply IHmt. lia.
Qed.

Lemma match_here_sound (r : regex) (adv : bool) (s s' : str) (c : caps) :
  match_here r adv s = Some (s', c) ->
  exists w, s = w ++ s' /\ mt 1 r w no_caps c /\ (adv = true -> w <> []).
Proof.
  unfold match_here. intros H. apply rmatch_sound in H.
  destruct H as [w [s1 [c1 [Hs [Hm Hk]]]]].
  destruct (adv && (length s1 =? length s)) eqn:E; [discriminate|].
  inversion Hk; subst s1 c1. exists w. split; [exact Hs|].
  split; [exact Hm|]. intros Hadv. subst adv. simpl in E.
  apply Nat.eqb_neq in E. intros Hw. subst w. simpl in Hs. subst s.
  apply E. reflexivity.
Qed.

(** Every match that the scan yields is a piece of the text that the
    pattern can match, with the groups of that way of matching. *)
Lemma scan_sound (r : regex) (fuel : nat) :
  forall pos adv s,
    Forall (fun m => exists pre w post c,
                s = pre ++ w ++ post /\ mt 1 r w no_caps c
                /\ m_groups m = groups_of r w c)
      (scan r fuel pos adv s).
Proof.
  induction fuel as [|fuel IH]; intros pos adv s; simpl; [constructor|].
  destruct (match_here r adv s) as [[s' c]|] eqn:E.
  - apply match_here_sound in E. destruct E as [w [Hs [Hm _]]].
    assert (Hw : firstn (length s - length s') s = w).
    { rewrite Hs. apply firstn_consumed. }
    constructor.
    + exists [], w, s', c. simpl. rewrite Hw. auto.
    + eapply Forall_impl; [|apply IH].
      intros m [pre [w2 [post [c2 [H1 [H2 H3]]]]]].
      exists (w ++ pre), w2, post, c2. split; [|auto].
      rewrite Hs, H1, <- app_assoc. reflexivity.
  - destruct s as [|a s1]; [constructor|].
    eapply Forall_impl; [|apply IH].
    intros m [pre [w2 [post [c2 [H1 [H2 H3]]]]]].
    exists (a :: pre), w2, post, c2. split; [|auto].
    rewrite H1. reflexivity.
Qed.

Lemma finditer_sound (r : regex) (s : str) (m : Match) :
  In m (finditer r s) ->
  exists pre w post c,
    s = pre ++ w ++ post /\ mt 1 r w no_caps c
    /\ m_groups m = groups_of r w c.
Proof.
  unfold finditer. intros H.
  pose proof (scan_sound r (2 * length s + 2) 0 false s) as Hs.
  rewrite Forall_forall in Hs. apply Hs. exact H.
Qed.

(** ** The fuel of the matcher and of the scan never runs out *)

Section MatcherFuel.
Variable R : Type.

Lemma rep_loop_local (body : kont R -> kont R) (k1 k2 : kont R) :
  local_at body ->
  forall fuel s c,
    (forall s' c', length s' <= length s -> k1 s' c' = k2 s' c') ->
    rep_loop body k1 fuel s c = rep_loop body k2 fuel s c.
Proof.
  intros Hb. induction fuel as [|fuel IH]; intros s c Hk; simpl.
  - apply Hk. apply Nat.le_refl.
  - rewrite (Hk s c (Nat.le_refl _)). f_equal.
    apply Hb. intros s' c' Hs'.
    destruct (length s' =? length s); [apply Hk; exact Hs'|].
    apply IH. intros s2 c2 Hs2. apply Hk. lia.
Qed.

Lemma rmatch_local (r : regex) (base : nat) :
  local_at (rmatch (R := R) base r).
Proof.
  revert base. induction r as
    [ | neg items | r1 IH1 r2 IH2 | r1 IH1 r2 IH2 | r1 IH1 | r1 IH1
      | r1 IH1 | r1 IH1 | r1 IH1 ];
    intros base k1 k2 s c Hk; cbn [rmatch].
  - apply Hk. apply Nat.le_refl.
  - destruct s as [|a s']; [reflexivity|].
    destruct (class_mem neg items a); [|reflexivity].
    apply Hk. simpl. lia.
  - apply IH1. intros s1 c1 Hs1. apply IH2.
    intros s2 c2 Hs2. apply Hk. lia.
  - rewrite (IH1 base k1 k2 s c Hk).
    rewrite (IH2 (base + ngroups r1) k1 k2 s c Hk). reflexivity.
  - apply rep_loop_local; [apply IH1 | exact Hk].
  - apply IH1. intros s1 c1 Hs1.
    apply rep_loop_local; [apply IH1|].
    intros s2 c2 Hs2. apply Hk. lia.
  - rewrite (IH1 base k1 k2 s c Hk).
    rewrite (Hk s c (Nat.le_refl _)). reflexivity.
  - apply IH1. intros s1 c1 Hs1. apply Hk. exact Hs1.
  - apply IH1. exact Hk.
Qed.

(** Any fuel above the length of the text gives the repeat the same
    result: the fuel [rmatch] gives it never runs out. *)
Lemma rep_loop_fuel (body : kont R -> kont R) (k : kont R) :
  local_at body ->
  forall f1 f2 s c, length s < f1 -> length s < f2 ->
    rep_loop body k f1 s c = rep_loop body k f2 s c.
Proof.
  intros Hb. induction f1 as [|f1 IH]; intros f2 s c H1 H2; [lia|].
  destruct f2 as [|f2]; [lia|]. simpl. f_equal.
  apply Hb. intros s' c' Hs'.
  destruct (length s' =? length s) eqn:E; [reflexivity|].
  apply Nat.eqb_neq in E. apply IH; lia.
Qed.
End MatcherFuel.

Lemma match_here_shorter (r : regex) (adv : bool) (s s' : str) (c : caps) :
  match_here r adv s = Some (s', c) ->
  length s' <= length s /\ (adv = true -> length s' < length s).
Proof.
  intros H. apply match_here_sound in H. destruct H as [w [-> [_ Hw]]].
  rewrite length_app. split; [lia|].
  intros Hadv. specialize (Hw Hadv). destruct w; [contradiction|].
  simpl. lia.
Qed.

(** Any fuel above twice the length of the text (and one more before an
    attempt that may be empty) gives the scan the same matches: the fuel
    [finditer] gives it never runs out. *)
Lemma scan_fuel (r : regex) :
  forall (f1 f2 pos : nat) (adv : bool) (s : str),
    2 * length s + (if adv then 0 else 1) < f1 ->
    2 * length s + (if adv then 0 else 1) < f2 ->
    scan r f1 pos adv s = scan r f2 pos adv s.
Proof.
  induction f1 as [|f1 IH]; intros f2 pos adv s H1 H2; [lia|].
  destruct f2 as [|f2]; [lia|]. simpl.
  destruct (match_here r adv s) as [[s' c]|] eqn:E.
  - apply match_here_shorter in E. destruct E as [Hle Hlt].
    f_equal.
    destruct (length s - length s' =? 0) eqn:En.
    + apply Nat.eqb_eq in En.
      destruct adv; [specialize (Hlt eq_refl); lia|].
      apply IH; lia.
    + apply Nat.eqb_neq in En. apply IH; destruct adv; lia.
  - destruct s as [|a s1]; [reflexivity|].
    simpl in H1, H2. apply IH; destruct adv; lia.
Qed.

Lemma finditer_fuel (r : regex) (s : str) (fuel : nat) :
  2 * length s + 1 < fuel -> finditer r s = scan r fuel 0 false s.
Proof. intros H. unfold finditer. apply scan_fuel; lia. Qed.

(** ** Inversion of [mt] *)

Lemma mt_seq_inv (base : nat) (r1 r2 : regex) (w : str) (c c' : caps) :
  mt base (Seq r1 r2) w c c' ->
  exists w1 w2 c1,
    w = w1 ++ w2 /\ mt base r1 w1 c c1 /\ mt (base + ngroups r1) r2 w2 c1 c'.
Proof. intros H. inversion H; subst. eauto 7. Qed.

Lemma mt_group_inv (base : nat) (r : regex) (w : str) (c c' : caps) :
  mt base (Group r) w c c' ->
  exists c1, mt (S base) r w c c1 /\ c' = set_cap base w c1.
Proof. intros H. inversion H; subst. eauto. Qed.

Lemma mt_chr_inv (base : nat) (neg : bool) (items : list citem) (w : str)
  (c c' : caps) :
  mt base (Chr neg items) w c c' ->
  exists a, w = [a] /\ class_mem neg items a = true /\ c' = c.
Proof. intros H. inversion H; subst. eauto. Qed.

Lemma mt_plus_inv (base : nat) (r : regex) (w : str) (c c' : caps) :
  mt base (Plus r) w c c' ->
  exists w1 w2 c1,
    w = w1 ++ w2 /\ mt base r w1 c c1 /\ mt base (Star r) w2 c1 c'.
Proof. intros H. inversion H; subst. eauto 7. Qed.

Lemma mt_opt_inv (base : nat) (r : regex) (w : str) (c c' : caps) :
  mt base (Opt r) w c c' -> mt base r w c c' \/ (w = [] /\ c' = c).
Proof. intros H. inversion H; subst; auto. Qed.

Lemma mt_noncap_inv (base : nat) (r : regex) (w : str) (c c' : caps) :
  mt base (NonCap r) w c c' -> mt base r w c c'.
Proof. intros H. inversion H; subst; auto. Qed.

(** A pattern without a group leaves the groups as they are. *)
Lemma mt_nogroups (base : nat) (r : regex) (w : str) (c c' : caps) :
  ngroups r = 0 -> mt base r w c c' -> c' = c.
Proof.
  intros Hn H. induction H; simpl in Hn; try reflexivity;
    try (apply IHmt; exact Hn); try discriminate.
  - rewrite IHmt2, IHmt1 by lia. reflexivity.
  - apply IHmt. lia.
  - apply IHmt. lia.
  - rewrite IHmt2, IHmt1 by (simpl; lia). reflexivity.
  - rewrite IHmt2, IHmt1 by (simpl; lia). reflexivity.
Qed.

Lemma mt_star_chr_inv (base : nat) (neg : bool) (items : list citem)
  (w : str) (c c' : caps) :
  mt base (Star (Chr neg items)) w c c' ->
  Forall (fun a => class_mem neg items a = true) w.
Proof.
  intros H. remember (Star (Chr neg items)) as r eqn:Er.
  induction H; inversion Er; subst.
  - constructor.
  - apply mt_chr_inv in H. destruct H as [a [-> [Ha _]]].
    simpl. constructor; [exact Ha | apply IHmt2; reflexivity].
Qed.

Lemma mt_plus_chr_inv (base : nat) (neg : bool) (items : list citem)
  (w : str) (c c' : caps) :
  mt base (Plus (Chr neg items)) w c c' ->
  w <> [] /\ Forall (fun a => class_mem neg items a = true) w.
Proof.
  intros H. apply mt_plus_inv in H.
  destruct H as [w1 [w2 [c1 [-> [H1 H2]]]]].
  apply mt_chr_inv in H1. destruct H1 as [a [-> [Ha _]]].
  apply mt_star_chr_inv in H2. simpl. split; [discriminate|].
  constructor; assumption.
Qed.

Lemma class_digit (a : ascii) : class_mem false [CDigit] a = isdecimal a.
Proof. unfold class_mem. simpl. rewrite orb_false_r. reflexivity. Qed.

Lemma class_space (a : ascii) : class_mem false [CSpace] a = isspace a.
Proof. unfold class_mem. simpl. rewrite orb_false_r. reflexivity. Qed.

Lemma class_tag (a : ascii) :
  class_mem false [CWord; CLit "-"%char] a = tag_char a.
Proof.
  unfold class_mem, tag_char. simpl. rewrite orb_false_r. reflexivity.
Qed.

Lemma class_lit (b a : ascii) :
  class_mem false [CLit b] a = ascii_eqb b a.
Proof. unfold class_mem. simpl. rewrite orb_false_r. reflexivity. Qed.

Lemma class_not_lit (b a : ascii) :
  class_mem true [CLit b] a = negb (ascii_eqb b a).
Proof.
  unfold class_mem. simpl. rewrite orb_false_r.
  destruct (ascii_eqb b a); reflexivity.
Qed.

Lemma Forall_eq_bool (f g : ascii -> bool) (w : str) :
  (forall a, f a = g a) ->
  Forall (fun a => f a = true) w -> Forall (fun a => g a = true) w.
Proof.
  intros E H. eapply Forall_impl; [|exact H]. intros a Ha.
  rewrite <- E. exact Ha.
Qed.

Lemma mt_digits (base : nat) (w : str) (c c' : caps) :
  mt base (Plus re_d) w c c' -> is_digits w.
Proof.
  intros H. apply mt_plus_chr_inv in H. destruct H as [H1 H2].
  split; [exact H1|]. eapply Forall_eq_bool; [apply class_digit | exact H2].
Qed.

Lemma mt_blank (base : nat) (w : str) (c c' : caps) :
  mt base (Plus re_s) w c c' -> is_blank w.
Proof.
  intros H. apply mt_plus_chr_inv in H. destruct H as [H1 H2].
  split; [exact H1|]. eapply Forall_eq_bool; [apply class_space | exact H2].
Qed.

Lemma mt_tag (base : nat) (w : str) (c c' : caps) :
  mt base TAG_PATTERN w c c' -> is_tag w.
Proof.
  unfold TAG_PATTERN. intros H. apply mt_seq_inv in H.
  destruct H as [w1 [w2 [c1 [-> [H1 H2]]]]].
  apply mt_chr_inv in H1. destruct H1 as [a [-> [Ha _]]].
  rewrite class_lit in Ha. apply ascii_eqb_eq in Ha. subst a.
  apply mt_plus_chr_inv in H2. destruct H2 as [H2 H3].
  exists w2. split; [reflexivity|]. split; [exact H2|].
  eapply Forall_eq_bool; [apply class_tag | exact H3].
Qed.

Lemma mt_tag_star (base : nat) (w : str) (c c' : caps) :
  mt base (Star (NonCap (Seq (Plus re_s) TAG_PATTERN))) w c c' ->
  forall t, is_tag t -> exists toks, tag_block (t :: toks) (t ++ w).
Proof.
  intros H.
  remember (Star (NonCap (Seq (Plus re_s) TAG_PATTERN))) as r eqn:Er.
  induction H; inversion Er; subst; intros t Ht.
  - exists []. rewrite app_nil_r. constructor. exact Ht.
  - apply mt_noncap_inv in H. apply mt_seq_inv in H.
    destruct H as [ws [t2 [c3 [-> [Hws Ht2]]]]].
    apply mt_blank in Hws. apply mt_tag in Ht2.
    destruct (IHmt2 eq_refl t2 Ht2) as [toks Htoks].
    exists (t2 :: toks). rewrite <- !app_assoc.
    apply tag_block_more; assumption.
Qed.

Lemma mt_tag_block (base : nat) (w : str) (c c' : caps) :
  mt base (Seq TAG_PATTERN (Star (NonCap (Seq (Plus re_s) TAG_PATTERN))))
     w c c' ->
  exists toks, toks <> [] /\ tag_block toks w.
Proof.
  intros H. apply mt_seq_inv in H.
  destruct H as [t [w2 [c1 [-> [Ht Hs]]]]].
  apply mt_tag in Ht. destruct (mt_tag_star Hs Ht) as [toks Htoks].
  exists (t :: toks). split; [discriminate | exact Htoks].
Qed.

Lemma mt_page_token (base : nat) (w : str) (c c' : caps) :
  mt base (Seq (Plus re_d)
             (Opt (NonCap (Seq (chr "-"%char) (Plus re_d))))) w c c' ->
  is_page_token w.
Proof.
  intros H. apply mt_seq_inv in H.
  destruct H as [lo [w2 [c1 [-> [Hlo Hopt]]]]].
  apply mt_digits in Hlo. exists lo. split; [exact Hlo|].
  apply mt_opt_inv in Hopt. destruct Hopt as [Hopt|[-> _]].
  - apply mt_noncap_inv in Hopt. apply mt_seq_inv in Hopt.
    destruct Hopt as [h [hi [c3 [-> [Hh Hhi]]]]].
    apply mt_chr_inv in Hh. destruct Hh as [a [-> [Ha _]]].
    rewrite class_lit in Ha. apply ascii_eqb_eq in Ha. subst a.
    apply mt_digits in Hhi. right. exists hi. auto.
  - left. rewrite app_nil_r. reflexivity.
Qed.

Lemma mt_title (base : nat) (w : str) (c c' : caps) :
  mt base (Plus (Chr true [CLit dquote])) w c c' -> is_title w.
Proof.
  intros H. apply mt_plus_chr_inv in H. destruct H as [H1 H2].
  split; [exact H1|]. eapply Forall_impl; [|exact H2].
  intros a Ha. cbv beta in Ha. rewrite class_not_lit in Ha.
  destruct (ascii_eqb dquote a); [discriminate | reflexivity].
Qed.

(** ** The shape of a match of the default pattern *)

Ltac spine H :=
  lazymatch type of H with
  | mt _ (Seq _ _) _ _ _ =>
      let w1 := fresh "w" in
      let w2 := fresh "w" in
      let c1 := fresh "c" in
      let Hw := fresh "Hw" in
      let H1 := fresh "Hp" in
      let H2 := fresh "Hq" in
      apply mt_seq_inv in H;
      destruct H as (w1 & w2 & c1 & Hw & H1 & H2);
      lazymatch type of H2 with
      | mt ?b _ _ _ _ =>
          let b' := eval vm_compute in b in change b with b' in H2
      end;
      spine H2
  | _ => idtac
  end.

Ltac open_group H lem :=
  let c := fresh "c" in
  let Hg := fresh "Hg" in
  apply mt_group_inv in H; destruct H as (c & Hg & ->);
  pose proof (lem _ _ _ _ Hg);
  apply mt_nogroups in Hg; [subst c | reflexivity].

Lemma app_assoc_last (a b c pre : str) :
  b = pre ++ c -> a ++ b = (a ++ pre) ++ c.
Proof. intros ->. apply app_assoc. Qed.

Lemma default_match_shape (w : str) (c : caps) :
  mt 1 IndexParser.DEFAULT_PATTERN w no_caps c ->
  exists pre g1 g2 g3 g4 toks,
    w = pre ++ g4
    /\ c 1 = Some g1 /\ c 2 = Some g2 /\ c 3 = Some g3 /\ c 4 = Some g4
    /\ is_digits g1 /\ is_page_token g2 /\ is_title g3
    /\ toks <> [] /\ tag_block toks g4.
Proof.
  intros H.
  unfold IndexParser.DEFAULT_PATTERN in H.
  cbn [seqs fold_right] in H.
  spine H.
  repeat match goal with
  | H : mt _ (Group (Plus re_d)) _ _ _ |- _ => open_group H mt_digits
  | H : mt _ (Group (Seq (Plus re_d) _)) _ _ _ |- _ =>
      open_group H mt_page_token
  | H : mt _ (Group (Plus (Chr true _))) _ _ _ |- _ => open_group H mt_title
  | H : mt _ (Group (Seq TAG_PATTERN _)) _ _ _ |- _ =>
      open_group H mt_tag_block
  | H : mt _ _ _ _ _ |- _ => apply mt_nogroups in H; [subst | reflexivity]
  end.
  match goal with
  | H : exists toks, _ |- _ => destruct H as [toks [Hne Htb]]
  end.
  eexists _, _, _, _, _, toks.
  split; [repeat apply app_assoc_last; symmetry; apply app_nil_l|].
  repeat (split; [reflexivity || eassumption|]). exact Htb.
Qed.

(** ** [findall] of the tag pattern on a block of tags *)

Lemma space_not_tag (a : ascii) :
  isspace a = true -> tag_char a = false /\ ascii_eqb "#"%char a = false.
Proof.
  intros H. destruct a as [b0 b1 b2 b3 b4 b5 b6 b7].
  destruct b0, b1, b2, b3, b4, b5, b6, b7;
    try (vm_compute in H; discriminate H); split; reflexivity.
Qed.

Section Greedy.
Variable R : Type.

(** A repeat of one character class takes every character it can when
    the rest then succeeds. *)
Lemma rep_chr_greedy (base : nat) (neg : bool) (items : list citem)
  (k : kont R) (rest : str) (c : caps) (res : R) (w : str) :
  Forall (fun a => class_mem neg items a = true) w ->
  match rest with
  | [] => True
  | a :: _ => class_mem neg items a = false
  end ->
  k rest c = Some res ->
  forall fuel, length (w ++ rest) < fuel ->
    rep_loop (rmatch base (Chr neg items)) k fuel (w ++ rest) c = Some res.
Proof.
  intros Hw Hrest Hk. induction Hw as [|a w Ha _ IH]; intros fuel Hf.
  - destruct fuel as [|fuel]; [lia|]. simpl.
    destruct rest as [|b rest']; simpl.
    + exact Hk.
    + rewrite Hrest. simpl. exact Hk.
  - destruct fuel as [|fuel]; [simpl in Hf; lia|].
    cbn [rep_loop app rmatch]. rewrite Ha.
    replace (length (w ++ rest) =? length (a :: w ++ rest)) with false
      by (symmetry; apply Nat.eqb_neq; simpl; lia).
    rewrite IH by (simpl in Hf; lia). reflexivity.
Qed.
End Greedy.

Lemma match_here_tag (adv : bool) (t rest : str) :
  is_tag t ->
  match rest with
  | [] => True
  | a :: _ => tag_char a = false
  end ->
  match_here TAG_PATTERN adv (t ++ rest) = Some (rest, no_caps).
Proof.
  intros [body [-> [Hne Hb]]] Hrest.
  destruct body as [|a body]; [contradiction|].
  inversion Hb as [|a' b' Ha Hb']; subst.
  unfold match_here, TAG_PATTERN, chr. cbn [rmatch app ngroups Nat.add].
  rewrite class_lit, ascii_eqb_refl. rewrite class_tag, Ha.
  apply (@rep_chr_greedy _ 1 false [CWord; CLit "-"%char]).
  - eapply Forall_eq_bool; [|exact Hb'].
    intros x. symmetry. apply class_tag.
  - destruct rest as [|b rest']; [exact I|]. rewrite class_tag. exact Hrest.
  - replace (length rest =? _) with false; [rewrite andb_false_r; reflexivity|].
    symmetry. apply Nat.eqb_neq. simpl. rewrite length_app. lia.
  - lia.
Qed.

Lemma match_here_tag_none (adv : bool) (s : str) :
  match s with
  | [] => True
  | a :: _ => ascii_eqb "#"%char a = false
  end ->
  match_here TAG_PATTERN adv s = None.
Proof.
  intros H. unfold match_here, TAG_PATTERN, chr. cbn [rmatch].
  destruct s as [|a s']; [reflexivity|].
  rewrite class_lit, H. reflexivity.
Qed.

Lemma scan_skip_blank (rest : str) (ws : str) :
  Forall (fun a => isspace a = true) ws ->
  forall fuel pos adv,
  exists pos' adv',
    scan TAG_PATTERN (length ws + fuel) pos adv (ws ++ rest)
    = scan TAG_PATTERN fuel pos' adv' rest.
Proof.
  induction 1 as [|a ws Ha _ IH]; intros fuel pos adv.
  - exists pos, adv. reflexivity.
  - cbn [length Nat.add scan app].
    rewrite match_here_tag_none
      by (apply space_not_tag in Ha; destruct Ha as [_ Ha]; exact Ha).
    apply IH.
Qed.

Lemma is_tag_length (t : str) : is_tag t -> 0 < length t.
Proof. intros [body [-> _]]. simpl. lia. Qed.

Lemma match_text_mk (r : regex) (a b : nat) (w : str) (c : caps) :
  match_text (mkMatch a b (groups_of r w c)) = w.
Proof. reflexivity. Qed.

Lemma scan_tag_block (toks : list str) (s : str) :
  tag_block toks s ->
  forall fuel pos adv, length s < fuel ->
    map match_text (scan TAG_PATTERN fuel pos adv s) = toks.
Proof.
  induction 1 as [t Ht | t ws toks rest Ht [Hws1 Hws2] Hb IH];
    intros fuel pos adv Hf.
  - destruct fuel as [|fuel]; [lia|]. cbn [scan].
    rewrite <- (app_nil_r t) at 1.
    rewrite match_here_tag by (exact Ht || exact I).
    cbn [map]. rewrite match_text_mk. cbn [length].
    rewrite Nat.sub_0_r, firstn_all. f_equal.
    destruct fuel as [|fuel]; [reflexivity|]. cbn [scan].
    rewrite match_here_tag_none by exact I. reflexivity.
  - destruct fuel as [|fuel]; [lia|]. cbn [scan].
    assert (Hhead : match ws ++ rest with
                    | [] => True
                    | a :: _ => tag_char a = false
                    end).
    { destruct ws as [|a ws']; [contradiction|]. simpl.
      inversion Hws2; subst. apply space_not_tag. assumption. }
    rewrite match_here_tag by assumption.
    cbn [map]. rewrite match_text_mk.
    replace (length (t ++ ws ++ rest) - length (ws ++ rest)) with (length t)
      by (rewrite !length_app; lia).
    rewrite firstn_app, Nat.sub_diag, firstn_all. simpl firstn.
    rewrite app_nil_r. f_equal.
    rewrite !length_app in Hf. pose proof (is_tag_length Ht) as Hlen.
    replace fuel with (length ws + (fuel - length ws)) by lia.
    destruct (@scan_skip_blank rest ws Hws2 (fuel - length ws)
                (pos + length t) (length t =? 0)) as [pos' [adv' ->]].
    apply IH. lia.
Qed.

(** On a block of tags [findall] returns the tokens of the block, each of
    them and in their order. *)
Lemma findall_tag_block (toks : list str) (s : str) :
  tag_block toks s -> findall TAG_PATTERN s = toks.
Proof.
  intros H. unfold findall, finditer. apply scan_tag_block; [exact H | lia].
Qed.

(** ** The body of the loop of [parse] *)

Ltac body_step H :=
  cbn [nth_error bind IndexParser.int_of IndexParser.findall_tags] in H.

Lemma parse_match_raises (m : Match) (e : exn) :
  IndexParser.parse_match m = Raise e ->
  e = IndexError \/ e = ValueError \/ e = TypeError.
Proof.
  unfold IndexParser.parse_match, group. intros H.
  destruct (m_groups m) as [|g0 [|g1 gs]]; body_step H;
    [inversion H; auto | inversion H; auto |].
  destruct g1 as [s1|]; body_step H; [|inversion H; auto].
  destruct (py_int s1) as [v|e1] eqn:E1; body_step H;
    [|inversion H; subst; apply py_int_raises in E1; auto].
  destruct gs as [|g2 [|g3 [|g4 rest]]]; body_step H;
    try (inversion H; auto; fail).
  destruct g4 as [s4|]; body_step H; [discriminate H | inversion H; auto].
Qed.

(** The loop keeps the matches whose body returns and goes on after the
    others, as long as none raises what the loop does not catch. *)
Lemma parse_loop_caught (ms : list Match) (acc : list SlideEntry) :
  Forall (fun m => caught m = true) ms ->
  IndexParser.parse_loop ms acc = (acc ++ kept ms, None).
Proof.
  intros H. revert acc. induction H as [|m ms Hm _ IH]; intros acc.
  - simpl. rewrite app_nil_r. reflexivity.
  - unfold kept. simpl. unfold caught in Hm.
    destruct (IndexParser.parse_match m) as [entry|e] eqn:E.
    + rewrite IH. rewrite <- app_assoc. reflexivity.
    + apply parse_match_raises in E.
      destruct E as [-> | [-> | ->]]; try discriminate; apply IH.
Qed.

(** A match that is skipped leaves no trace: the loop does on the rest
    what it does without it. *)
Lemma parse_loop_skip (ms1 ms2 : list Match) (m : Match)
  (acc : list SlideEntry) :
  IndexParser.parse_match m = Raise ValueError
  \/ IndexParser.parse_match m = Raise IndexError ->
  IndexParser.parse_loop (ms1 ++ m :: ms2) acc
  = IndexParser.parse_loop (ms1 ++ ms2) acc.
Proof.
  intros Hm. revert acc. induction ms1 as [|m1 ms1 IH]; intros acc; simpl.
  - destruct Hm as [-> | ->]; reflexivity.
  - destruct (IndexParser.parse_match m1) as [entry|e]; [apply IH|].
    destruct e; try reflexivity; apply IH.
Qed.

Lemma kept_In (ms : list Match) (e : SlideEntry) :
  In e (kept ms) <-> exists m, In m ms /\ IndexParser.parse_match m = Ok e.
Proof.
  unfold kept. rewrite in_flat_map. split.
  - intros [m [Hm He]]. exists m. split; [exact Hm|].
    destruct (IndexParser.parse_match m) as [e'|]; simpl in He; [|tauto].
    destruct He as [->|[]]. reflexivity.
  - intros [m [Hm He]]. exists m. split; [exact Hm|]. rewrite He.
    left. reflexivity.
Qed.

(** What the body of the loop does on a match of the default pattern. *)
Lemma default_parse_match (content : str) (m : Match) :
  In m (finditer IndexParser.DEFAULT_PATTERN content) ->
  exists pre g1 g2 g3 g4 toks post,
    content = pre ++ g4 ++ post
    /\ is_digits g1 /\ is_page_token g2 /\ is_title g3
    /\ toks <> [] /\ tag_block toks g4
    /\ IndexParser.parse_match m
       = if int_max_str_digits <? length g1 then Raise ValueError
         else Ok (mkSlideEntry (digits_value g1) (Some g2) (Some g3) toks).
Proof.
  intros H. apply finditer_sound in H.
  destruct H as [pre [w [post [c [Hc [Hm Hg]]]]]].
  apply default_match_shape in Hm.
  destruct Hm as [pre' [g1 [g2 [g3 [g4 [toks Hm]]]]]].
  destruct Hm as [Hw [H1 [H2 [H3 [H4 [Hd [Hp [Ht [Hne Htb]]]]]]]]].
  exists (pre ++ pre'), g1, g2, g3, g4, toks, post.
  split; [rewrite Hc, Hw, <- !app_assoc; reflexivity|].
  repeat (split; [assumption|]).
  unfold IndexParser.parse_match, group. rewrite Hg.
  change (groups_of IndexParser.DEFAULT_PATTERN w c)
    with [Some w; c 1; c 2; c 3; c 4].
  cbn [nth_error bind]. rewrite H1, H2, H3, H4.
  cbn [IndexParser.int_of IndexParser.findall_tags bind].
  rewrite (py_int_digits Hd).
  destruct (int_max_str_digits <? length g1); [reflexivity|].
  cbn [bind]. rewrite (findall_tag_block Htb). reflexivity.
Qed.

Lemma tag_block_tags (toks : list str) (s : str) :
  tag_block toks s -> Forall is_tag toks.
Proof. induction 1; constructor; auto. Qed.

Lemma default_caught (content : str) :
  Forall (fun m => caught m = true)
    (finditer IndexParser.DEFAULT_PATTERN content).
Proof.
  rewrite Forall_forall. intros m Hm.
  destruct (default_parse_match content m Hm)
    as (pre & g1 & g2 & g3 & g4 & toks & post & _ & _ & _ & _ & _ & _ & E).
  unfold caught. rewrite E.
  destruct (int_max_str_digits <? length g1); reflexivity.
Qed.

(** Every entry kept from the matches of the default pattern satisfies the
    field constraints, and its tags are a block of the text. *)
Lemma default_kept (content : str) (e : SlideEntry) :
  In e (kept (finditer IndexParser.DEFAULT_PATTERN content)) ->
  entry_wf e
  /\ exists pre block post,
       content = pre ++ block ++ post /\ tag_block (tags e) block.
Proof.
  intros H. apply kept_In in H. destruct H as [m [Hm He]].
  destruct (default_parse_match content m Hm)
    as (pre & g1 & g2 & g3 & g4 & toks & post
        & Hc & Hd & Hp & Ht & Hne & Htb & E).
  rewrite E in He.
  destruct (int_max_str_digits <? length g1); [discriminate|].
  inversion He; subst e; clear He. split.
  - unfold entry_wf. simpl. split; [apply digits_value_nonneg; lia|].
    split; [exists g2; auto|]. split; [exists g3; auto|].
    split; [exact Hne | apply (tag_block_tags Htb)].
  - exists pre, g4, post. simpl. auto.
Qed.

(** ** One file of [parse_multiple] *)

Lemma parse_file_cases (fs : filesystem) (pattern : option regex)
  (path : str) :
  IndexParser.parse_file fs pattern path
  = match fs path with
    | Missing => Raise (IndexParser.not_found path)
    | Unreadable err => Raise (IndexParser.read_error path err)
    | Readable content =>
        let ms := finditer (IndexParser.pattern_or_default pattern) content in
        match snd (IndexParser.parse_loop ms []) with
        | None => Ok (fst (IndexParser.parse_loop ms []))
        | Some e => Raise e
        end
    end.
Proof.
  unfold IndexParser.parse_file, IndexParser.__init__,
    IndexParser.file_exists.
  destruct (fs path) as [|err|content] eqn:E; cbn [bind]; try reflexivity.
  - unfold IndexParser.parse. cbn [IndexParser.index_file_path].
    rewrite E. reflexivity.
  - unfold IndexParser.parse.
    cbn [IndexParser.index_file_path IndexParser.pattern IndexParser.entries].
    rewrite E.
    destruct (IndexParser.parse_loop _ []) as [es [e|]]; reflexivity.
Qed.

Lemma parse_file_default (fs : filesystem) (path : str) :
  IndexParser.parse_file fs None path
  = match fs path with
    | Missing => Raise (IndexParser.not_found path)
    | Unreadable err => Raise (IndexParser.read_error path err)
    | Readable content =>
        Ok (kept (finditer IndexParser.DEFAULT_PATTERN content))
    end.
Proof.
  rewrite parse_file_cases. destruct (fs path) as [|err|content];
    try reflexivity.
  cbn [IndexParser.pattern_or_default]. cbv zeta.
  rewrite (parse_loop_caught [] (default_caught content)). reflexivity.
Qed.

Lemma parse_file_raises (fs : filesystem) (pattern : option regex)
  (path : str) (e : exn) :
  IndexParser.parse_file fs pattern path = Raise e ->
  (readable fs path = false /\ e = skip_reason fs path)
  \/ (readable fs path = true /\ e = TypeError).
Proof.
  rewrite parse_file_cases. unfold readable, skip_reason.
  destruct (fs path) as [|err|content].
  - intros H. inversion H. auto.
  - intros H. inversion H. auto.
  - cbv zeta. set (ms := finditer _ content).
    intros H. right. split; [reflexivity|].
    assert (G : forall ms acc e, snd (IndexParser.parse_loop ms acc) = Some e ->
                e = TypeError).
    { clear. induction ms as [|m ms IH]; intros acc e; simpl; [discriminate|].
      destruct (IndexParser.parse_match m) as [entry|e'] eqn:E; [apply IH|].
      apply parse_match_raises in E.
      destruct E as [-> | [-> | ->]]; try apply IH.
      simpl. intros H. inversion H. reflexivity. }
    destruct (snd (IndexParser.parse_loop ms [])) as [e'|] eqn:E;
      [|discriminate].
    inversion H; subst. eapply G. exact E.
Qed.

(** ** [parse_multiple] *)

Lemma file_entries_unreadable (fs : filesystem) (pattern : option regex)
  (path : str) :
  readable fs path = false -> file_entries fs pattern path = [].
Proof.
  unfold file_entries, readable. rewrite parse_file_cases.
  destruct (fs path); [reflexivity | reflexivity | discriminate].
Qed.

Lemma flat_map_readable (fs : filesystem) (pattern : option regex)
  (paths : list str) :
  flat_map (file_entries fs pattern) (filter (readable fs) paths)
  = flat_map (file_entries fs pattern) paths.
Proof.
  induction paths as [|p paths IH]; simpl; [reflexivity|].
  destruct (readable fs p) eqn:E; simpl.
  - rewrite IH. reflexivity.
  - rewrite (file_entries_unreadable fs pattern p E). exact IH.
Qed.

(** A file that is not readable changes nothing in the mapping; the loop
    only prints its warning. *)
Lemma parse_multiple_loop_filter (fs : filesystem) (pattern : option regex)
  (paths : list str) (d : dict Z (list SlideEntry)) (out1 out2 : list str) :
  snd (IndexParser.parse_multiple_loop fs pattern paths d out1)
  = snd (IndexParser.parse_multiple_loop fs pattern
           (filter (readable fs) paths) d out2).
Proof.
  revert d out1 out2. induction paths as [|p paths IH];
    intros d out1 out2; simpl; [reflexivity|].
  destruct (readable fs p) eqn:E.
  - simpl. destruct (IndexParser.parse_file fs pattern p) as [es|e].
    + apply IH.
    + destruct e; try reflexivity; apply IH.
  - unfold readable in E. rewrite parse_file_cases.
    destruct (fs p); try discriminate; simpl; apply IH.
Qed.

(** With the default pattern the loop always returns: the mapping of the
    readable files, and one warning for each of the others. *)
Lemma parse_multiple_loop_default (fs : filesystem) (paths : list str)
  (d : dict Z (list SlideEntry)) (out : list str) :
  IndexParser.parse_multiple_loop fs None paths d out
  = (out ++ skip_warnings fs paths,
     Ok (IndexParser.group_entries
           (flat_map (file_entries fs None) paths) d)).
Proof.
  revert d out. induction paths as [|p paths IH]; intros d out.
  - simpl. rewrite app_nil_r. reflexivity.
  - cbn [IndexParser.parse_multiple_loop flat_map].
    unfold file_entries at 1. unfold skip_warnings, skip_reason, readable.
    cbn [filter]. rewrite parse_file_default.
    destruct (fs p) as [|err|content] eqn:E; cbn [negb map]; rewrite ?E.
    + unfold IndexParser.not_found at 1. rewrite IH.
      unfold skip_warnings, skip_reason, readable.
      rewrite <- app_assoc. reflexivity.
    + unfold IndexParser.read_error at 1. rewrite IH.
      unfold skip_warnings, skip_reason, readable.
      rewrite <- app_assoc. reflexivity.
    + rewrite IH, group_entries_app. reflexivity.
Qed.

Lemma parse_multiple_loop_raises (fs : filesystem) (pattern : option regex)
  (paths : list str) (d : dict Z (list SlideEntry)) (out : list str)
  (e : exn) :
  snd (IndexParser.parse_multiple_loop fs pattern paths d out) = Raise e ->
  e = TypeError.
Proof.
  revert d out. induction paths as [|p paths IH]; intros d out; simpl;
    [discriminate|].
  destruct (IndexParser.parse_file fs pattern p) as [es|e'] eqn:E;
    [apply IH|].
  apply parse_file_raises in E. destruct E as [[_ E]|[_ ->]].
  - unfold skip_reason, IndexParser.read_error, IndexParser.not_found in E.
    destruct (fs p); subst e'; apply IH.
  - simpl. intros H. inversion H. reflexivity.
Qed.

Lemma parse_file_ok_readable (fs : filesystem) (pattern : option regex)
  (path : str) (es : list SlideEntry) :
  IndexParser.parse_file fs pattern path = Ok es -> readable fs path = true.
Proof.
  rewrite parse_file_cases. unfold readable.
  destruct (fs path); [discriminate | discriminate | reflexivity].
Qed.

(** Whatever the pattern, what the loop has printed when it returns is one
    warning for each file that is not readable, in the order of the list. *)
Lemma parse_multiple_loop_out (fs : filesystem) (pattern : option regex)
  (paths : list str) (d d' : dict Z (list SlideEntry))
  (out out' : list str) :
  IndexParser.parse_multiple_loop fs pattern paths d out = (out', Ok d') ->
  out' = out ++ skip_warnings fs paths.
Proof.
  revert d out. induction paths as [|p paths IH]; intros d out; simpl.
  - intros H. inversion H. rewrite app_nil_r. reflexivity.
  - destruct (IndexParser.parse_file fs pattern p) as [es|e] eqn:E.
    + apply parse_file_ok_readable in E. intros H. apply IH in H.
      unfold skip_warnings. simpl. rewrite E. exact H.
    + apply parse_file_raises in E. destruct E as [[Hr ->]|[_ ->]];
        [|discriminate].
      assert (Hw : skip_warnings fs (p :: paths)
                   = IndexParser.warning p (skip_reason fs p)
                     :: skip_warnings fs paths).
      { unfold skip_warnings. simpl. rewrite Hr. reflexivity. }
      rewrite Hw. unfold skip_reason, IndexParser.read_error,
        IndexParser.not_found.
      destruct (fs p); intros H; apply IH in H; rewrite H, <- app_assoc;
        reflexivity.
Qed.

Lemma parse_multiple_loop_nothing (fs : filesystem) (pattern : option regex)
  (paths : list str) (d : dict Z (list SlideEntry)) (out : list str) :
  (forall p, In p paths ->
     IndexParser.parse_file fs pattern p = Ok []
     \/ readable fs p = false) ->
  snd (IndexParser.parse_multiple_loop fs pattern paths d out) = Ok d.
Proof.
  revert d out. induction paths as [|p paths IH]; intros d out H; simpl;
    [reflexivity|].
  assert (H' : forall q, In q paths ->
                 IndexParser.parse_file fs pattern q = Ok []
                 \/ readable fs q = false)
    by (intros; apply H; right; assumption).
  destruct (H p (or_introl eq_refl)) as [E|E].
  - rewrite E. simpl. apply IH. exact H'.
  - unfold readable in E. rewrite parse_file_cases.
    destruct (fs p); try discriminate; simpl; apply IH; exact H'.
Qed.

(** C4: the list of a book in the result of [parse_multiple] is the entries
    of that book from all the files, file after file in the order of the
    list and, within a file, in the order of the file; every entry of every
    file is in the result once per time it was parsed; for two files [A; B]
    the list of a book is that of [A] followed by that of [B]; and with the
    default pattern a result is always returned. *)
Theorem merge_in_file_order (fs : filesystem) (out : list str)
  (pattern : option regex) :
  (forall paths out' d,
     IndexParser.parse_multiple fs out paths pattern = (out', Ok d) ->
     let all := flat_map (file_entries fs pattern) paths in
     (forall b, bucket_of Z.eqb b d = filter (in_book b) all)
     /\ (forall b, dict_mem Z.eqb b d = existsb (in_book b) all)
     /\ Permutation (concat (dict_values d)) all
     /\ dict_wf d)
  /\ (forall A B out' d,
        IndexParser.parse_multiple fs out [A; B] pattern = (out', Ok d) ->
        forall b,
          bucket_of Z.eqb b d
          = filter (in_book b) (file_entries fs pattern A)
            ++ filter (in_book b) (file_entries fs pattern B))
  /\ (forall paths, exists out' d,
        IndexParser.parse_multiple fs out paths None = (out', Ok d)).
Proof.
  assert (G : forall paths out' d,
     IndexParser.parse_multiple fs out paths pattern = (out', Ok d) ->
     forall b, bucket_of Z.eqb b d
               = filter (in_book b)
                   (flat_map (file_entries fs pattern) paths)).
  { intros paths out' d H b. unfold IndexParser.parse_multiple in H.
    apply parse_multiple_loop_ok in H. subst d.
    rewrite group_entries_bucket. reflexivity. }
  split; [|split].
  - intros paths out' d H all. split; [apply (G paths out' d H)|].
    unfold IndexParser.parse_multiple in H.
    apply parse_multiple_loop_ok in H. subst d. fold all.
    split; [|split].
    + intros b. rewrite group_entries_mem. reflexivity.
    + eapply perm_trans; [apply group_entries_values|]. simpl.
      apply Permutation_refl.
    + apply group_entries_wf. constructor.
  - intros A B out' d H b. rewrite (G [A; B] out' d H b).
    simpl. rewrite app_nil_r, filter_app. reflexivity.
  - intros paths. unfold IndexParser.parse_multiple.
    rewrite parse_multiple_loop_default. eauto.
Qed.

(** C5: a file that is missing or not readable changes nothing in the
    result, whatever the pattern; [parse_multiple] never raises a file
    error; when it returns it has printed one warning per skipped file;
    with the default pattern it always returns, the mapping of the readable
    files; and the result is the empty mapping when no file is readable or
    when no text matches in any file. *)
Theorem unreadable_files_are_skipped (fs : filesystem) (out : list str)
  (paths : list str) :
  (forall pattern,
     snd (IndexParser.parse_multiple fs out paths pattern)
     = snd (IndexParser.parse_multiple fs out (filter (readable fs) paths)
              pattern))
  /\ (forall pattern e,
        snd (IndexParser.parse_multiple fs out paths pattern) = Raise e ->
        e = TypeError)
  /\ (forall pattern out' d,
        IndexParser.parse_multiple fs out paths pattern = (out', Ok d) ->
        out' = out ++ skip_warnings fs paths)
  /\ IndexParser.parse_multiple fs out paths None
     = (out ++ skip_warnings fs paths,
        Ok (IndexParser.group_entries
              (flat_map (file_entries fs None) (filter (readable fs) paths))
              []))
  /\ (forall pattern,
        (forall p, In p paths -> readable fs p = false) ->
        snd (IndexParser.parse_multiple fs out paths pattern) = Ok [])
  /\ (forall pattern,
        (forall p content, In p paths -> fs p = Readable content ->
           finditer (IndexParser.pattern_or_default pattern) content = []) ->
        snd (IndexParser.parse_multiple fs out paths pattern) = Ok []).
Proof.
  unfold IndexParser.parse_multiple.
  split; [|split; [|split; [|split; [|split]]]].
  - intros pattern. apply parse_multiple_loop_filter.
  - intros pattern e. apply parse_multiple_loop_raises.
  - intros pattern out' d. apply parse_multiple_loop_out.
  - rewrite parse_multiple_loop_default, flat_map_readable. reflexivity.
  - intros pattern H. apply parse_multiple_loop_nothing.
    intros p Hp. right. apply H. exact Hp.
  - intros pattern H. apply parse_multiple_loop_nothing.
    intros p Hp. rewrite parse_file_cases. unfold readable.
    destruct (fs p) as [|err|content] eqn:E; auto.
    left. rewrite (H p content Hp E). reflexivity.
Qed.

(** ** The sorted order of a bucket is unique *)

Lemma pair_eqb_refl (a : Z * Z) : pair_eqb a a = true.
Proof. apply pair_eqb_eq. reflexivity. Qed.

Lemma pair_le_refl (a : Z * Z) : pair_le a a.
Proof. unfold pair_le. lia. Qed.

Lemma with_key_In (k : Z * Z) (l : list SlideEntry) (e : SlideEntry) :
  In e (with_key k l) <-> In e l /\ key_of e = k.
Proof. unfold with_key. rewrite filter_In, pair_eqb_eq. tauto. Qed.

Lemma sorted_head_le (x y : SlideEntry) (l : list SlideEntry) :
  StronglySorted entry_le (x :: l) -> In y (x :: l) -> entry_le x y.
Proof.
  intros H [<-|Hy].
  - apply pair_le_refl.
  - inversion H; subst. rewrite Forall_forall in H3. apply H3. exact Hy.
Qed.

Lemma sorted_by_key_unique (l1 l2 : list SlideEntry) :
  StronglySorted entry_le l1 -> StronglySorted entry_le l2 ->
  (forall k, with_key k l1 = with_key k l2) -> l1 = l2.
Proof.
  revert l2. induction l1 as [|x l1 IH]; intros l2 H1 H2 Hk.
  - destruct l2 as [|y l2]; [reflexivity|].
    specialize (Hk (key_of y)). unfold with_key in Hk. simpl in Hk.
    rewrite pair_eqb_refl in Hk. discriminate.
  - destruct l2 as [|y l2].
    { specialize (Hk (key_of x)). unfold with_key in Hk. simpl in Hk.
      rewrite pair_eqb_refl in Hk. discriminate. }
    assert (Exy : key_of x = key_of y).
    { apply pair_le_antisym.
      - apply (sorted_head_le H1).
        assert (Hy : In y (with_key (key_of y) (y :: l2))).
        { apply with_key_In. split; [left|]; reflexivity. }
        rewrite <- Hk in Hy. apply with_key_In in Hy. tauto.
      - apply (sorted_head_le H2).
        assert (Hx : In x (with_key (key_of x) (x :: l1))).
        { apply with_key_In. split; [left|]; reflexivity. }
        rewrite Hk in Hx. apply with_key_In in Hx. tauto. }
    pose proof (Hk (key_of x)) as Hx. unfold with_key in Hx. simpl in Hx.
    rewrite <- Exy, pair_eqb_refl in Hx. inversion Hx; subst y.
    f_equal. inversion H1; subst. inversion H2; subst.
    apply IH; try assumption.
    intros k. specialize (Hk k). unfold with_key in Hk |- *. simpl in Hk.
    destruct (pair_eqb (key_of x) k); [inversion Hk; reflexivity | exact Hk].
Qed.

Lemma stable_sorted_unique (l l1 l2 : list SlideEntry) :
  stable_sorted l l1 -> stable_sorted l l2 -> l1 = l2.
Proof.
  intros [_ [S1 K1]] [_ [S2 K2]]. apply sorted_by_key_unique; auto.
  intros k. rewrite K1, K2. reflexivity.
Qed.

Lemma dict_eq_by_buckets (P : str -> list SlideEntry -> Prop)
  (l1 l2 : dict str (list SlideEntry)) :
  (forall tag b b', P tag b -> P tag b' -> b = b') ->
  dict_keys l1 = dict_keys l2 ->
  (forall tag b, In (tag, b) l1 -> P tag b) ->
  (forall tag b, In (tag, b) l2 -> P tag b) ->
  l1 = l2.
Proof.
  intros HP. revert l2. induction l1 as [|[t1 b1] l1 IH];
    intros [|[t2 b2] l2] Hk H1 H2; try discriminate; [reflexivity|].
  simpl in Hk. inversion Hk; subst t2.
  assert (b1 = b2).
  { apply (HP t1); [apply H1 | apply H2]; left; reflexivity. }
  subst b2. f_equal. apply IH; [assumption| |];
    intros tag b Hb; [apply H1 | apply H2]; right; exact Hb.
Qed.

(** C9: the mapping that [parse_multiple] returns depends on the listed
    files only (not on what was printed before, nor on other files), so a
    second run on the same files returns the same mapping; building the tag
    index again from the mapping a generator holds gives the same
    generator; and the buckets of the tag index are determined by the
    mapping: any index with the same tags whose buckets are the filled
    buckets sorted by (book, page), equal keys in insertion order, is the
    index that [_build_tag_index] returns. *)
Theorem pipeline_is_deterministic :
  (forall fs1 fs2 out1 out2 paths pattern,
     (forall p, In p paths -> fs1 p = fs2 p) ->
     snd (IndexParser.parse_multiple fs1 out1 paths pattern)
     = snd (IndexParser.parse_multiple fs2 out2 paths pattern))
  /\ (forall fs out paths pattern,
        snd (IndexParser.parse_multiple fs
               (fst (IndexParser.parse_multiple fs out paths pattern))
               paths pattern)
        = snd (IndexParser.parse_multiple fs out paths pattern))
  /\ (forall d self,
        MasterIndexGenerator.__init__ d = Ok self ->
        MasterIndexGenerator.__init__ (MasterIndexGenerator.all_entries self)
        = Ok self)
  /\ (forall d ti ti',
        MasterIndexGenerator._build_tag_index d = Ok ti ->
        dict_keys ti' = dict_keys ti ->
        (forall tag bucket, In (tag, bucket) ti' ->
           stable_sorted (insertion_bucket tag d) bucket) ->
        ti' = ti).
Proof.
  split; [|split; [|split]].
  - intros fs1 fs2 out1 out2 paths pattern H.
    unfold IndexParser.parse_multiple.
    apply parse_multiple_loop_result. exact H.
  - intros fs out paths pattern. unfold IndexParser.parse_multiple.
    apply parse_multiple_loop_result. reflexivity.
  - intros d self H. unfold MasterIndexGenerator.__init__ in *.
    destruct (MasterIndexGenerator._build_tag_index d) as [ti|] eqn:E;
      simpl in H; [|discriminate].
    inversion H; subst self. simpl. rewrite E. reflexivity.
  - intros d ti ti' H Hk Hb.
    apply (dict_eq_by_buckets
             (fun tag b => stable_sorted (insertion_bucket tag d) b)).
    + intros tag b b'. apply stable_sorted_unique.
    + exact Hk.
    + exact Hb.
    + apply tag_index_buckets. exact H.
Qed.

(** ** [parse] called again on one parser *)

Lemma concat_repeat_comm {A} (E : list A) (n : nat) :
  concat (repeat E n) ++ E = E ++ concat (repeat E n).
Proof.
  induction n as [|n IH]; simpl.
  - rewrite app_nil_r. reflexivity.
  - rewrite <- app_assoc, IH. reflexivity.
Qed.

Lemma parse_readable (fs : filesystem) (self : IndexParser.t)
  (content : str) :
  fs (IndexParser.index_file_path self) = Readable content ->
  let ms := finditer (IndexParser.pattern self) content in
  snd (IndexParser.parse_loop ms []) = None ->
  IndexParser.parse fs self
  = (IndexParser.mk (IndexParser.index_file_path self)
       (IndexParser.pattern self)
       (IndexParser.entries self ++ fst (IndexParser.parse_loop ms [])),
     Ok (IndexParser.entries self ++ fst (IndexParser.parse_loop ms []))).
Proof.
  intros Hfs ms Hnone. unfold IndexParser.parse. rewrite Hfs.
  fold ms. rewrite (parse_loop_acc ms (IndexParser.entries self)).
  rewrite Hnone. reflexivity.
Qed.

Lemma parse_ok_inv (fs : filesystem) (self : IndexParser.t)
  (E : list SlideEntry) :
  snd (IndexParser.parse fs self) = Ok E ->
  exists content,
    fs (IndexParser.index_file_path self) = Readable content
    /\ snd (IndexParser.parse_loop
              (finditer (IndexParser.pattern self) content) []) = None
    /\ E = IndexParser.entries self
           ++ fst (IndexParser.parse_loop
                     (finditer (IndexParser.pattern self) content) []).
Proof.
  unfold IndexParser.parse.
  destruct (fs (IndexParser.index_file_path self)) as [|err|content];
    try discriminate.
  rewrite (parse_loop_acc _ (IndexParser.entries self)).
  destruct (snd (IndexParser.parse_loop _ [])) as [e|] eqn:Er;
    simpl; [discriminate|].
  intros H. inversion H. exists content. auto.
Qed.

(** C10: [parse] appends what it finds to the list the parser already
    holds and returns that list, so the [n]-th call in a row on one parser
    returns [n] copies of the entries of the file; [parse_multiple] makes a
    new parser for each path, so a path listed twice contributes the
    entries of its file twice and not three times. *)
Theorem parse_accumulates (fs : filesystem) (path : str)
  (pattern : option regex) (self : IndexParser.t) (E : list SlideEntry) :
  IndexParser.__init__ fs path pattern = Ok self ->
  snd (IndexParser.parse fs self) = Ok E ->
  (forall n, snd (parse_times n fs self) = Ok (concat (repeat E n)))
  /\ (forall n, IndexParser.entries (fst (parse_times n fs self))
                = concat (repeat E n))
  /\ (forall out,
        IndexParser.parse_multiple fs out [path; path] pattern
        = (out, Ok (IndexParser.group_entries (E ++ E) []))).
Proof.
  intros Hinit Hparse.
  assert (Hself : self = IndexParser.mk path
                           (IndexParser.pattern_or_default pattern) []).
  { unfold IndexParser.__init__ in Hinit.
    destruct (IndexParser.file_exists fs path); inversion Hinit.
    reflexivity. }
  destruct (parse_ok_inv fs self Hparse) as [content [Hfs [Hnone HE]]].
  rewrite Hself in Hfs, Hnone, HE. simpl in Hfs, Hnone, HE.
  assert (G : forall n, parse_times n fs self
                = (IndexParser.mk path
                     (IndexParser.pattern_or_default pattern)
                     (concat (repeat E n)),
                   Ok (concat (repeat E n)))).
  { induction n as [|n IH]; simpl.
    - rewrite Hself. reflexivity.
    - rewrite IH.
      rewrite (@parse_readable fs
                 (IndexParser.mk path (IndexParser.pattern_or_default pattern)
                    (concat (repeat E n))) content Hfs Hnone).
      simpl. rewrite <- HE, concat_repeat_comm. reflexivity. }
  split; [|split].
  - intros n. rewrite G. reflexivity.
  - intros n. rewrite G. reflexivity.
  - intros out. unfold IndexParser.parse_multiple.
    assert (Hfile : IndexParser.parse_file fs pattern path = Ok E).
    { unfold IndexParser.parse_file. rewrite Hinit. simpl. exact Hparse. }
    simpl. rewrite Hfile. rewrite group_entries_app. reflexivity.
Qed.

(** ** [parse] with the default pattern *)

Lemma parse_default (fs : filesystem) (self : IndexParser.t)
  (content : str) :
  IndexParser.pattern self = IndexParser.DEFAULT_PATTERN ->
  fs (IndexParser.index_file_path self) = Readable content ->
  let new := kept (finditer IndexParser.DEFAULT_PATTERN content) in
  IndexParser.parse fs self
  = (IndexParser.mk (IndexParser.index_file_path self)
       IndexParser.DEFAULT_PATTERN (IndexParser.entries self ++ new),
     Ok (IndexParser.entries self ++ new)).
Proof.
  intros Hp Hfs new.
  pose proof (parse_loop_caught [] (default_caught content)) as Hl.
  simpl in Hl.
  rewrite (@parse_readable fs self content Hfs); rewrite Hp, Hl; reflexivity.
Qed.

(** ** Skipped matches *)

Lemma parse_match_book_rejected (m : Match) (g : str) :
  group m 1 = Ok (Some g) -> py_int g = Raise ValueError ->
  IndexParser.parse_match m = Raise ValueError.
Proof.
  intros Hg Hi. unfold IndexParser.parse_match. rewrite Hg.
  cbn [bind IndexParser.int_of]. rewrite Hi. reflexivity.
Qed.

Lemma parse_match_page_verbatim (m : Match) (e : SlideEntry) :
  IndexParser.parse_match m = Ok e ->
  group m 2 = Ok (page_number e) /\ group m 3 = Ok (slide_title e).
Proof.
  unfold IndexParser.parse_match, group. intros H.
  destruct (m_groups m) as [|g0 [|g1 gs]]; body_step H; try discriminate.
  destruct g1 as [s1|]; body_step H; [|discriminate].
  destruct (py_int s1) as [v|e1]; body_step H; [|discriminate].
  destruct gs as [|g2 [|g3 [|g4 rest]]]; body_step H; try discriminate.
  destruct g4 as [s4|]; body_step H; [|discriminate].
  inversion H; subst e. simpl. auto.
Qed.

(** C7, as amended: a match whose book-number capture [int] rejects is
    skipped, and the loop does on the other matches what it does without
    it; as long as no match raises what the loop does not catch, the loop
    returns the entries of the matches that convert; the page-number
    capture is stored as it is, whatever it is; and with the default
    pattern [parse] always returns and every entry it adds satisfies the
    field constraints. *)
Theorem malformed_book_match_is_skipped :
  (forall m g, group m 1 = Ok (Some g) -> py_int g = Raise ValueError ->
     IndexParser.parse_match m = Raise ValueError)
  /\ (forall ms1 m ms2 acc,
        IndexParser.parse_match m = Raise ValueError
        \/ IndexParser.parse_match m = Raise IndexError ->
        IndexParser.parse_loop (ms1 ++ m :: ms2) acc
        = IndexParser.parse_loop (ms1 ++ ms2) acc)
  /\ (forall ms acc, Forall (fun m => caught m = true) ms ->
        IndexParser.parse_loop ms acc = (acc ++ kept ms, None))
  /\ (forall m e, IndexParser.parse_match m = Ok e ->
        group m 2 = Ok (page_number e))
  /\ (forall fs self content,
        IndexParser.pattern self = IndexParser.DEFAULT_PATTERN ->
        fs (IndexParser.index_file_path self) = Readable content ->
        exists new,
          snd (IndexParser.parse fs self)
          = Ok (IndexParser.entries self ++ new)
          /\ Forall entry_wf new).
Proof.
  split; [|split; [|split; [|split]]].
  - apply parse_match_book_rejected.
  - intros ms1 m ms2 acc. apply parse_loop_skip.
  - intros ms acc. apply parse_loop_caught.
  - intros m e H. apply parse_match_page_verbatim in H. tauto.
  - intros fs self content Hp Hfs.
    exists (kept (finditer IndexParser.DEFAULT_PATTERN content)).
    rewrite (parse_default fs self Hp Hfs). split; [reflexivity|].
    rewrite Forall_forall. intros e He.
    apply (default_kept content e He).
Qed.

(** ** Patterns with another number of groups *)

Lemma scan_groups_length (r : regex) (fuel pos : nat) (adv : bool)
  (s : str) :
  Forall (fun m => length (m_groups m) = S (ngroups r))
    (scan r fuel pos adv s).
Proof.
  revert pos adv s. induction fuel as [|fuel IH]; intros pos adv s; simpl;
    [constructor|].
  destruct (match_here r adv s) as [[s' c]|].
  - constructor; [|apply IH].
    unfold groups_of. simpl. rewrite length_map, length_seq. reflexivity.
  - destruct s; [constructor | apply IH].
Qed.

Lemma few_groups_skipped (m : Match) :
  length (m_groups m) < 5 -> group1_bound m = true ->
  IndexParser.parse_match m = Raise IndexError
  \/ IndexParser.parse_match m = Raise ValueError.
Proof.
  unfold IndexParser.parse_match, group, group1_bound. intros Hl Hb.
  destruct (m_groups m) as [|g0 [|g1 gs]]; cbn [nth_error bind] in *; auto.
  destruct g1 as [s1|]; [|discriminate]. cbn [IndexParser.int_of].
  destruct (py_int s1) as [v|e1] eqn:E1; cbn [bind].
  - destruct gs as [|g2 [|g3 [|g4 rest]]]; cbn [nth_error bind]; auto.
    simpl in Hl. lia.
  - apply py_int_raises in E1. subst. auto.
Qed.

Lemma parse_loop_all_skipped (ms : list Match) (acc : list SlideEntry) :
  Forall (fun m => IndexParser.parse_match m = Raise IndexError
                   \/ IndexParser.parse_match m = Raise ValueError) ms ->
  IndexParser.parse_loop ms acc = (acc, None).
Proof.
  induction 1 as [|m ms Hm _ IH]; simpl; [reflexivity|].
  destruct Hm as [-> | ->]; exact IH.
Qed.

Lemma nth_error_firstn_lt {A} (l : list A) (n i : nat) :
  i < n -> nth_error (firstn n l) i = nth_error l i.
Proof.
  revert n i. induction l as [|x l IH]; intros [|n] [|i] H; simpl;
    try reflexivity; try lia.
  apply IH. lia.
Qed.

Lemma parse_match_first_groups (m m' : Match) :
  firstn 5 (m_groups m) = firstn 5 (m_groups m') ->
  IndexParser.parse_match m = IndexParser.parse_match m'.
Proof.
  intros H. unfold IndexParser.parse_match, group.
  assert (G : forall i, i < 5 ->
            nth_error (m_groups m) i = nth_error (m_groups m') i).
  { intros i Hi. rewrite <- (nth_error_firstn_lt (m_groups m) Hi).
    rewrite <- (nth_error_firstn_lt (m_groups m') Hi). rewrite H.
    reflexivity. }
  rewrite (G 1), (G 2), (G 3), (G 4) by lia. reflexivity.
Qed.

(** C2, as amended: the number of groups of a custom pattern is not
    checked. With fewer than four groups every match is skipped (its first
    group having taken part in the match), so [parse] returns the list the
    parser held, without an error; with more than four, only the first four
    groups of a match are looked at. *)
Theorem group_count_is_not_checked :
  (forall fs self content,
     ngroups (IndexParser.pattern self) < 4 ->
     fs (IndexParser.index_file_path self) = Readable content ->
     Forall (fun m => group1_bound m = true)
       (finditer (IndexParser.pattern self) content) ->
     IndexParser.parse fs self = (self, Ok (IndexParser.entries self)))
  /\ (forall m m',
        firstn 5 (m_groups m) = firstn 5 (m_groups m') ->
        IndexParser.parse_match m = IndexParser.parse_match m').
Proof.
  split; [|apply parse_match_first_groups].
  intros fs self content Hn Hfs Hb.
  unfold IndexParser.parse. rewrite Hfs.
  rewrite parse_loop_all_skipped.
  - destruct self. reflexivity.
  - pose proof (scan_groups_length (IndexParser.pattern self)
                  (2 * length content + 2) 0 false content) as Hl.
    fold (finditer (IndexParser.pattern self) content) in Hl.
    rewrite Forall_forall in Hl, Hb |- *. intros m Hm.
    apply few_groups_skipped; [|apply Hb; exact Hm].
    rewrite (Hl m Hm). lia.
Qed.

(** ** The sample inputs, evaluated *)

Example finditer_sample_a :
  map m_groups (finditer IndexParser.DEFAULT_PATTERN sample_a)
  = [ m_groups first_match;
      [Some (lit "Book 2, Page 120-121, Slide: " ++ quoted (lit "Review")
               ++ lit " #review #basics #review");
       Some (lit "2"); Some (lit "120-121"); Some (lit "Review");
       Some (lit "#review #basics #review")] ].
Proof. vm_compute. reflexivity. Qed.

Example parse_sample_a :
  file_entries sample_fs None (lit "a.md") = [entry_a1; entry_a2].
Proof. vm_compute. reflexivity. Qed.

(** The line whose book is not a number matches nothing. *)
Example parse_sample_b :
  file_entries sample_fs None (lit "b.md") = [entry_b1].
Proof. vm_compute. reflexivity. Qed.

Example parse_multiple_sample :
  IndexParser.parse_multiple sample_fs []
    [lit "a.md"; lit "missing.md"; lit "b.md"] None
  = ([lit "Warning: Skipping missing.md: Index file not found: missing.md"],
     Ok sample_mapping).
Proof. vm_compute. reflexivity. Qed.

Example build_sample_index :
  MasterIndexGenerator._build_tag_index sample_mapping = Ok sample_index.
Proof. vm_compute. reflexivity. Qed.

Example statistics_sample :
  MasterIndexGenerator.get_statistics sample_generator
  = mkStatistics 2 3 3
      [mkTagStat (lit "#basics") 3 2; mkTagStat (lit "#review") 2 1;
       mkTagStat (lit "#networking") 1 1].
Proof. vm_compute. reflexivity. Qed.

(** The default pattern accepts book 0. *)
Example parse_book_zero :
  kept (finditer IndexParser.DEFAULT_PATTERN
          (lit "Book 0, Page 1, Slide: " ++ quoted (lit "T") ++ lit " #x"))
  = [mkSlideEntry 0 (Some (lit "1")) (Some (lit "T")) [lit "#x"]].
Proof. vm_compute. reflexivity. Qed.

(** A first group that took no part in the match leaves the loop. *)
Example parse_optional_book_raises :
  snd (IndexParser.parse_multiple custom_fs [] [lit "x.md"]
         (Some optional_book_pattern))
  = Raise TypeError.
Proof. vm_compute. reflexivity. Qed.

(** ** The theorems at the sample inputs *)

Lemma tag_buckets_sorted_stable_witness :
  stable_sorted (insertion_bucket (lit "#basics") sample_mapping)
    [entry_b1; entry_a1; entry_a2]
  /\ (exists ti, MasterIndexGenerator._build_tag_index sample_mapping = Ok ti)
  /\ MasterIndexGenerator._parse_page_num (lit "120" ++ "-"%char :: lit "121")
     = py_int (lit "120")
  /\ MasterIndexGenerator._parse_page_num (lit "120" ++ "-"%char :: lit "121")
     = Ok (digits_value (lit "120")).
Proof.
  destruct (tag_buckets_sorted_stable sample_mapping) as [H1 [H2 [H3 H4]]].
  split; [|split; [|split]].
  - apply (H1 sample_index).
    + vm_compute. reflexivity.
    + simpl. right. left. reflexivity.
  - apply H2. intros e He _. simpl in He.
    destruct He as [<-|[<-|[<-|[]]]]; vm_compute; reflexivity.
  - apply H3. vm_compute. reflexivity.
  - apply H4.
    + split; [discriminate|]. repeat constructor.
    + apply Nat.leb_le. vm_compute. reflexivity.
Defined.

Lemma merge_in_file_order_witness :
  bucket_of Z.eqb 1%Z sample_mapping
  = filter (in_book 1%Z) (file_entries sample_fs None (lit "a.md"))
    ++ filter (in_book 1%Z) (file_entries sample_fs None (lit "b.md"))
  /\ Permutation (concat (dict_values sample_mapping))
       (flat_map (file_entries sample_fs None) [lit "a.md"; lit "b.md"]).
Proof.
  destruct (merge_in_file_order sample_fs [] None) as [H1 [H2 _]].
  assert (E : IndexParser.parse_multiple sample_fs []
                [lit "a.md"; lit "b.md"] None = ([], Ok sample_mapping)).
  { vm_compute. reflexivity. }
  split.
  - apply (H2 (lit "a.md") (lit "b.md") [] sample_mapping E).
  - apply (H1 [lit "a.md"; lit "b.md"] [] sample_mapping E).
Defined.

Lemma unreadable_files_are_skipped_witness :
  [lit "Warning: Skipping missing.md: Index file not found: missing.md"]
  = [] ++ skip_warnings sample_fs [lit "a.md"; lit "missing.md"; lit "b.md"]
  /\ snd (IndexParser.parse_multiple sample_fs []
            [lit "missing.md"; lit "locked.md"] None) = Ok []
  /\ snd (IndexParser.parse_multiple sample_fs [] [lit "notes.md"] None)
     = Ok []
  /\ snd (IndexParser.parse_multiple custom_fs [] [lit "x.md"]
            (Some optional_book_pattern)) = Raise TypeError.
Proof.
  split; [|split; [|split]].
  - destruct (unreadable_files_are_skipped sample_fs []
                [lit "a.md"; lit "missing.md"; lit "b.md"])
      as [_ [_ [H _]]].
    apply (H None _ sample_mapping). vm_compute. reflexivity.
  - destruct (unreadable_files_are_skipped sample_fs []
                [lit "missing.md"; lit "locked.md"]) as [_ [_ [_ [_ [H _]]]]].
    apply H. intros p Hp. simpl in Hp.
    destruct Hp as [<-|[<-|[]]]; vm_compute; reflexivity.
  - destruct (unreadable_files_are_skipped sample_fs [] [lit "notes.md"])
      as [_ [_ [_ [_ [_ H]]]]].
    apply H. intros p content Hp Hfs. simpl in Hp.
    destruct Hp as [<-|[]].
    assert (Hc : content = lit "no record here").
    { vm_compute in Hfs. inversion Hfs. reflexivity. }
    rewrite Hc. vm_compute. reflexivity.
  - destruct (unreadable_files_are_skipped custom_fs [] [lit "x.md"])
      as [_ [H _]].
    destruct (snd (IndexParser.parse_multiple custom_fs [] [lit "x.md"]
                     (Some optional_book_pattern))) as [d|e] eqn:E.
    + vm_compute in E. discriminate E.
    + rewrite <- E.
      rewrite (H (Some optional_book_pattern) e E) in E. exact E.
Defined.

Lemma statistics_summary_witness :
  dict_wf sample_mapping
  /\ MasterIndexGenerator.__init__ sample_mapping = Ok sample_generator
  /\ total_books (MasterIndexGenerator.get_statistics sample_generator)
     = length (nodup Z.eq_dec (dict_keys sample_mapping))
  /\ length (top_tags (MasterIndexGenerator.get_statistics sample_generator))
     <= 20.
Proof.
  assert (Hwf : dict_wf sample_mapping).
  { unfold dict_wf. simpl. constructor.
    - simpl. intros [H|[]]. discriminate H.
    - constructor; [simpl; tauto | constructor]. }
  assert (Hinit : MasterIndexGenerator.__init__ sample_mapping
                  = Ok sample_generator).
  { vm_compute. reflexivity. }
  split; [exact Hwf|]. split; [exact Hinit|].
  destruct (statistics_summary Hwf Hinit) as [H1 [_ [_ [_ [H5 _]]]]].
  split; [exact H1 | exact H5].
Defined.

Lemma malformed_book_match_is_skipped_witness :
  IndexParser.parse_match bad_book_match = Raise ValueError
  /\ IndexParser.parse_loop ([first_match] ++ bad_book_match :: [first_match])
       []
     = IndexParser.parse_loop ([first_match] ++ [first_match]) []
  /\ IndexParser.parse_loop [first_match; bad_book_match] []
     = ([] ++ kept [first_match; bad_book_match], None)
  /\ group first_match 2 = Ok (page_number entry_a1)
  /\ exists new,
       snd (IndexParser.parse sample_fs
              (IndexParser.mk (lit "a.md") IndexParser.DEFAULT_PATTERN []))
       = Ok ([] ++ new)
       /\ Forall entry_wf new.
Proof.
  destruct malformed_book_match_is_skipped as [H1 [H2 [H3 [H4 H5]]]].
  split; [|split; [|split; [|split]]].
  - apply (H1 bad_book_match (lit "X")); vm_compute; reflexivity.
  - apply H2. left. vm_compute. reflexivity.
  - apply H3. constructor; [vm_compute; reflexivity|].
    constructor; [vm_compute; reflexivity | constructor].
  - apply (H4 first_match entry_a1). vm_compute. reflexivity.
  - apply (H5 sample_fs
             (IndexParser.mk (lit "a.md") IndexParser.DEFAULT_PATTERN [])
             sample_a); reflexivity.
Defined.

Lemma pipeline_is_deterministic_witness :
  snd (IndexParser.parse_multiple sample_fs [] [lit "a.md"; lit "b.md"] None)
  = snd (IndexParser.parse_multiple sample_fs [lit "earlier output"]
           [lit "a.md"; lit "b.md"] None)
  /\ MasterIndexGenerator.__init__
       (MasterIndexGenerator.all_entries sample_generator)
     = Ok sample_generator
  /\ sample_index = sample_index.
Proof.
  destruct pipeline_is_deterministic as [H1 [_ [H3 H4]]].
  split; [|split].
  - apply H1. intros p _. reflexivity.
  - apply (H3 sample_mapping). vm_compute. reflexivity.
  - apply (H4 sample_mapping sample_index sample_index).
    + vm_compute. reflexivity.
    + reflexivity.
    + apply tag_index_buckets. vm_compute. reflexivity.
Defined.

Lemma parse_accumulates_witness :
  snd (parse_times 3 sample_fs
         (IndexParser.mk (lit "a.md") IndexParser.DEFAULT_PATTERN []))
  = Ok (concat (repeat [entry_a1; entry_a2] 3))
  /\ IndexParser.parse_multiple sample_fs [] [lit "a.md"; lit "a.md"] None
     = ([], Ok (IndexParser.group_entries
                  ([entry_a1; entry_a2] ++ [entry_a1; entry_a2]) [])).
Proof.
  assert (Hinit : IndexParser.__init__ sample_fs (lit "a.md") None
                  = Ok (IndexParser.mk (lit "a.md")
                          IndexParser.DEFAULT_PATTERN [])).
  { vm_compute. reflexivity. }
  assert (Hparse : snd (IndexParser.parse sample_fs
                          (IndexParser.mk (lit "a.md")
                             IndexParser.DEFAULT_PATTERN []))
                   = Ok [entry_a1; entry_a2]).
  { vm_compute. reflexivity. }
  destruct (parse_accumulates sample_fs (lit "a.md") None Hinit Hparse)
    as [H1 [_ H3]].
  split; [apply (H1 3) | apply (H3 [])].
Defined.

Lemma group_count_is_not_checked_witness :
  IndexParser.parse custom_fs
    (IndexParser.mk (lit "a.md") one_group_pattern [entry_b1])
  = (IndexParser.mk (lit "a.md") one_group_pattern [entry_b1],
     Ok [entry_b1])
  /\ IndexParser.parse_match first_match
     = IndexParser.parse_match
         (mkMatch 0 51 (m_groups first_match ++ [Some (lit "!")])).
Proof.
  destruct group_count_is_not_checked as [H1 H2].
  split.
  - apply (H1 custom_fs
             (IndexParser.mk (lit "a.md") one_group_pattern [entry_b1])
             sample_a).
    + vm_compute. lia.
    + reflexivity.
    + vm_compute. repeat constructor.
  - apply H2. reflexivity.
Defined.

(** ** Where the claims as written fail *)

(** C2 as written fails: with a pattern of one group, and with a pattern
    of five, [parse_multiple] returns without any error; the first finds
    nothing in a file full of records, the second parses as if its fifth
    group were not there. *)
Lemma wrong_group_count_raises_nothing :
  ngroups one_group_pattern = 1
  /\ IndexParser.parse_multiple custom_fs [] [lit "a.md"]
       (Some one_group_pattern)
     = ([], Ok [])
  /\ ngroups five_group_pattern = 5
  /\ IndexParser.parse_multiple custom_fs [] [lit "a.md"]
       (Some five_group_pattern)
     = ([], Ok [(1%Z, [entry_a1]); (2%Z, [entry_a2])]).
Proof. repeat split; vm_compute; reflexivity. Qed.

Lemma abc_is_no_page_token : ~ is_page_token (lit "abc").
Proof.
  intros [lo [[Hne Hd] H]].
  destruct lo as [|a lo]; [contradiction|].
  inversion Hd as [|a' lo' Ha _]; subst.
  assert (Ea : a = "a"%char).
  { destruct H as [H|[hi [_ H]]]; vm_compute in H; inversion H; reflexivity. }
  subst a. vm_compute in Ha. discriminate Ha.
Qed.

(** C7 as written fails: with a pattern whose page group is [\w+], the
    match whose page capture is [abc], which is no page token, is not
    discarded; its entry is produced, with [abc] as its page. *)
Lemma malformed_page_match_is_kept :
  ngroups word_page_pattern = 4
  /\ IndexParser.parse_multiple custom_fs [] [lit "words.md"]
       (Some word_page_pattern)
     = ([], Ok [(1%Z, [mkSlideEntry 1 (Some (lit "abc")) (Some (lit "T"))
                         [lit "#x"]])])
  /\ ~ is_page_token (lit "abc").
Proof.
  split; [vm_compute; reflexivity|].
  split; [vm_compute; reflexivity|].
  exact abc_is_no_page_token.
Qed.

(* ================================================================== *)
(** * Part III: further properties of the code                         *)
(* ================================================================== *)

(** ** Grouping by key *)

Section DictMore.
Variables K V : Type.
Variable keq : K -> K -> bool.
Hypothesis keq_spec : forall a b, keq a b = true <-> a = b.

Lemma dict_mem_keys (k : K) (d : dict K V) :
  dict_mem keq k d = existsb (keq k) (dict_keys d).
Proof.
  unfold dict_mem. induction d as [|[k' v] d IH]; simpl; [reflexivity|].
  destruct (keq k k'); [reflexivity | exact IH].
Qed.

Lemma dict_set_In (k k' : K) (v v' : V) (d : dict K V) :
  In (k', v') (dict_set keq k v d) -> (k' = k /\ v' = v) \/ In (k', v') d.
Proof.
  induction d as [|[k0 v0] d IH]; simpl.
  - intros [H|[]]. inversion H. auto.
  - destruct (keq k k0) eqn:E; simpl.
    + apply keq_spec in E. subst k0. intros [H|H]; [|auto].
      inversion H. auto.
    + intros [H|H]; [auto|]. apply IH in H. tauto.
Qed.

End DictMore.

Section GroupFacts.
Variables K V : Type.
Variable keq : K -> K -> bool.
Hypothesis keq_spec : forall a b, keq a b = true <-> a = b.

Lemma existsb_keq (k : K) (l : list K) :
  existsb (keq k) l = true <-> In k l.
Proof.
  rewrite existsb_exists. split.
  - intros [x [Hx E]]. apply keq_spec in E. subst. exact Hx.
  - intros H. exists k. split; [exact H | apply keq_spec; reflexivity].
Qed.

Lemma first_seen_ext (s1 s2 l : list K) :
  (forall x, In x s1 <-> In x s2) ->
  first_seen keq s1 l = first_seen keq s2 l.
Proof.
  revert s1 s2. induction l as [|x l IH]; intros s1 s2 H; simpl;
    [reflexivity|].
  assert (E : existsb (keq x) s1 = existsb (keq x) s2).
  { destruct (existsb (keq x) s1) eqn:E1; symmetry.
    - apply existsb_keq. apply H. apply existsb_keq. exact E1.
    - destruct (existsb (keq x) s2) eqn:E2; [|reflexivity].
      apply existsb_keq in E2. apply H in E2. apply existsb_keq in E2.
      congruence. }
  rewrite E. destruct (existsb (keq x) s2).
  - apply IH. exact H.
  - f_equal. apply IH. intros y. simpl. rewrite H. tauto.
Qed.

Lemma first_seen_In (seen l : list K) (x : K) :
  In x (first_seen keq seen l) <-> In x l /\ ~ In x seen.
Proof.
  revert seen. induction l as [|y l IH]; intros seen; simpl; [tauto|].
  destruct (existsb (keq y) seen) eqn:E.
  - apply existsb_keq in E. rewrite IH. split.
    + tauto.
    + intros [[H|H] Hn]; [subst; contradiction | tauto].
  - assert (Hy : ~ In y seen).
    { intros H. apply existsb_keq in H. congruence. }
    simpl. rewrite IH. simpl. split.
    + intros [H|[H1 H2]]; [subst; tauto | tauto].
    + intros [[H|H] Hn]; [tauto|].
      destruct (keq y x) eqn:Eyx.
      * apply keq_spec in Eyx. tauto.
      * right. split; [exact H|]. intros [H1|H1]; [|contradiction].
        subst. rewrite (keq_refl keq keq_spec) in Eyx. discriminate.
Qed.

Lemma first_seen_NoDup (seen l : list K) : NoDup (first_seen keq seen l).
Proof.
  revert seen. induction l as [|y l IH]; intros seen; simpl; [constructor|].
  destruct (existsb (keq y) seen); [apply IH|].
  constructor; [|apply IH].
  rewrite first_seen_In. simpl. tauto.
Qed.

Lemma group_pairs_app (ps1 ps2 : list (K * V)) (d : dict K (list V)) :
  group_pairs keq (ps1 ++ ps2) d = group_pairs keq ps2 (group_pairs keq ps1 d).
Proof. apply fold_left_app. Qed.

Lemma group_pairs_bucket (k : K) (ps : list (K * V)) (d : dict K (list V)) :
  bucket_of keq k (group_pairs keq ps d)
  = bucket_of keq k d ++ map snd (filter (fun p => keq k (fst p)) ps).
Proof.
  revert d. induction ps as [|[k' x] ps IH]; intros d; simpl.
  - rewrite app_nil_r. reflexivity.
  - unfold group_pairs in *. simpl. rewrite IH.
    rewrite (bucket_append_eq keq keq_spec). rewrite <- app_assoc.
    destruct (keq k k'); reflexivity.
Qed.

Lemma group_pairs_wf (ps : list (K * V)) (d : dict K (list V)) :
  dict_wf d -> dict_wf (group_pairs keq ps d).
Proof.
  revert d. induction ps as [|[k' x] ps IH]; intros d H; simpl; [exact H|].
  apply IH. apply (bucket_append_wf keq keq_spec). exact H.
Qed.

Lemma group_pairs_keys (ps : list (K * V)) (d : dict K (list V)) :
  dict_keys (group_pairs keq ps d)
  = dict_keys d ++ first_seen keq (dict_keys d) (map fst ps).
Proof.
  revert d. induction ps as [|[k x] ps IH]; intros d; simpl.
  - rewrite app_nil_r. reflexivity.
  - unfold group_pairs in *. simpl. rewrite IH.
    unfold bucket_append at 1 2. rewrite dict_keys_set.
    rewrite dict_mem_keys. destruct (existsb (keq k) (dict_keys d)) eqn:E.
    + reflexivity.
    + rewrite <- app_assoc. simpl. do 2 f_equal.
      apply first_seen_ext. intros y. rewrite in_app_iff. simpl. tauto.
Qed.

Lemma group_pairs_nonempty (ps : list (K * V)) (d : dict K (list V)) :
  (forall k l, In (k, l) d -> l <> []) ->
  forall k l, In (k, l) (group_pairs keq ps d) -> l <> [].
Proof.
  revert d. induction ps as [|[k x] ps IH]; intros d H; simpl; [exact H|].
  apply IH. intros k' l Hin. unfold bucket_append in Hin.
  apply (dict_set_In keq keq_spec) in Hin. destruct Hin as [[_ ->]|Hin].
  - intros E. apply app_eq_nil in E. destruct E as [_ E]. discriminate.
  - eapply H. exact Hin.
Qed.

Lemma group_pairs_nil (ps : list (K * V)) (d : dict K (list V)) :
  group_pairs keq ps d = [] <-> ps = [] /\ d = [].
Proof.
  split.
  - intros H. assert (Hk := group_pairs_keys ps d). rewrite H in Hk.
    simpl in Hk. symmetry in Hk. apply app_eq_nil in Hk.
    destruct Hk as [Hd Hs]. destruct d; [|discriminate].
    split; [|reflexivity]. destruct ps as [|[k x] ps]; [reflexivity|].
    simpl in Hs. discriminate.
  - intros [-> ->]. reflexivity.
Qed.

(** The two statements of the loops, the creation of a missing bucket and
    the append, are one append to the bucket of the key. *)
Lemma setdefault_append (k : K) (x : V) (d : dict K (list V)) :
  (let d1 := if negb (dict_mem keq k d) then dict_set keq k [] d else d in
   let bucket := match dict_get keq k d1 with
                 | Some l => l
                 | None => []
                 end in
   dict_set keq k (bucket ++ [x]) d1)
  = bucket_append keq k x d.
Proof.
  cbv zeta. unfold bucket_append, bucket_of, dict_mem.
  destruct (dict_get keq k d) eqn:E; simpl.
  - rewrite E. reflexivity.
  - rewrite dict_get_set_same by exact keq_spec.
    apply dict_set_set. exact keq_spec.
Qed.

End GroupFacts.

(** ** [get_all_tags] *)

Lemma tags_loop_pairs (e : SlideEntry) (tgs : list str)
  (tm : dict str (list SlideEntry)) :
  fold_left
    (fun tag_map tag =>
       let tm1 :=
         if negb (dict_mem str_eqb tag tag_map)
         then dict_set str_eqb tag [] tag_map
         else tag_map in
       let bucket :=
         match dict_get str_eqb tag tm1 with
         | Some l => l
         | None => []
         end in
       dict_set str_eqb tag (bucket ++ [e]) tm1)
    tgs tm
  = group_pairs str_eqb (map (fun tag => (tag, e)) tgs) tm.
Proof.
  revert tm. induction tgs as [|tag tgs IH]; intros tm; [reflexivity|].
  cbn [fold_left map]. rewrite (setdefault_append str_eqb str_eqb_eq). apply IH.
Qed.

Lemma get_all_tags_pairs (entries : list SlideEntry) :
  IndexParser.get_all_tags entries
  = group_pairs str_eqb (tag_pairs entries) [].
Proof.
  unfold IndexParser.get_all_tags. generalize (@nil (str * list SlideEntry)).
  induction entries as [|e es IH]; intros tm; [reflexivity|].
  cbn [fold_left]. rewrite IH, tags_loop_pairs.
  unfold tag_pairs. cbn [flat_map]. rewrite group_pairs_app. reflexivity.
Qed.

Lemma fill_entries_pairs (es : list SlideEntry)
  (tm : dict str (list SlideEntry)) :
  MasterIndexGenerator.fill_entries tm es
  = group_pairs str_eqb (tag_pairs es) tm.
Proof.
  unfold MasterIndexGenerator.fill_entries.
  revert tm. induction es as [|e es IH]; intros tm; [reflexivity|].
  cbn [fold_left]. rewrite IH. unfold tag_pairs. cbn [flat_map].
  rewrite group_pairs_app. f_equal.
  unfold MasterIndexGenerator.fill_entry, group_pairs.
  generalize (tags e) tm. clear. intros tgs.
  induction tgs as [|tag tgs IH]; intros tm; [reflexivity|].
  cbn [fold_left map]. apply IH.
Qed.

Lemma tag_pairs_app (es1 es2 : list SlideEntry) :
  tag_pairs (es1 ++ es2) = tag_pairs es1 ++ tag_pairs es2.
Proof. apply flat_map_app. Qed.

Lemma fill_pairs (d : dict Z (list SlideEntry)) :
  MasterIndexGenerator.fill d
  = group_pairs str_eqb (tag_pairs (concat (dict_values d))) [].
Proof.
  unfold MasterIndexGenerator.fill. generalize (@nil (str * list SlideEntry)).
  induction d as [|[b es] d IH]; intros tm; [reflexivity|].
  cbn [fold_left snd dict_values map concat]. fold (dict_values d).
  rewrite IH, fill_entries_pairs, tag_pairs_app, group_pairs_app.
  reflexivity.
Qed.

Lemma tag_pairs_keys (es : list SlideEntry) :
  map fst (tag_pairs es) = flat_map tags es.
Proof.
  induction es as [|e es IH]; [reflexivity|].
  unfold tag_pairs in *. cbn [flat_map]. rewrite map_app, IH. f_equal.
  rewrite map_map. apply map_id.
Qed.

Lemma tag_pairs_bucket (tag : str) (es : list SlideEntry) :
  map snd (filter (fun p => str_eqb tag (fst p)) (tag_pairs es))
  = flat_map (fun e => repeat e (occurrences tag e)) es.
Proof.
  induction es as [|e es IH]; [reflexivity|].
  unfold tag_pairs in *. cbn [flat_map].
  rewrite filter_app, map_app, IH. f_equal.
  unfold occurrences. induction (tags e) as [|t tgs IHt]; [reflexivity|].
  cbn [map filter fst]. destruct (str_eqb tag t); cbn [map snd length repeat];
    rewrite IHt; reflexivity.
Qed.

Lemma length_insertion (tag : str) (es : list SlideEntry) :
  length (flat_map (fun e => repeat e (occurrences tag e)) es)
  = list_sum (map (occurrences tag) es).
Proof.
  induction es as [|e es IH]; [reflexivity|].
  cbn [flat_map map list_sum]. rewrite length_app, repeat_length, IH.
  reflexivity.
Qed.

(** X1: [get_all_tags] gives each tag the entries that carry it, in the
    order of the list and once per occurrence of the tag in the entry; a tag
    is a key exactly when some entry carries it; the keys are distinct, and
    no bucket is empty. *)
Theorem get_all_tags_buckets (entries : list SlideEntry) :
  let tag_map := IndexParser.get_all_tags entries in
  (forall tag,
     bucket_of str_eqb tag tag_map
     = flat_map (fun e => repeat e (occurrences tag e)) entries)
  /\ (forall tag,
        dict_mem str_eqb tag tag_map = true
        <-> exists e, In e entries /\ In tag (tags e))
  /\ dict_wf tag_map
  /\ (forall tag bucket, In (tag, bucket) tag_map ->
        bucket <> []
        /\ bucket = flat_map (fun e => repeat e (occurrences tag e)) entries).
Proof.
  cbv zeta. rewrite get_all_tags_pairs.
  assert (Hb : forall tag,
    bucket_of str_eqb tag (group_pairs str_eqb (tag_pairs entries) [])
    = flat_map (fun e => repeat e (occurrences tag e)) entries).
  { intros tag. rewrite (group_pairs_bucket str_eqb str_eqb_eq).
    apply tag_pairs_bucket. }
  assert (Hwf : dict_wf (group_pairs str_eqb (tag_pairs entries)
                           (@nil (str * list SlideEntry)))).
  { apply (group_pairs_wf str_eqb str_eqb_eq). constructor. }
  split; [exact Hb | split; [|split; [exact Hwf|]]].
  - intros tag. rewrite dict_mem_keys, (existsb_keq str_eqb str_eqb_eq).
    rewrite (group_pairs_keys str_eqb str_eqb_eq). cbn [dict_keys map app].
    rewrite (first_seen_In str_eqb str_eqb_eq), tag_pairs_keys, in_flat_map.
    simpl. split.
    + intros [[e He] _]. exists e. exact He.
    + intros [e He]. split; [exists e; exact He | tauto].
  - intros tag bucket Hin. split.
    + apply (group_pairs_nonempty str_eqb str_eqb_eq) with (k := tag) in Hin;
        [exact Hin|]. intros k l [].
    + rewrite <- Hb. unfold bucket_of.
      rewrite (@dict_In_get _ _ str_eqb str_eqb_eq _ _ _ Hwf Hin).
      reflexivity.
Qed.

(** X2: The keys of [get_all_tags] are the distinct tags of the entries in
    the order in which they are first met. *)
Theorem get_all_tags_keys (entries : list SlideEntry) :
  dict_keys (IndexParser.get_all_tags entries)
  = first_seen str_eqb [] (flat_map tags entries).
Proof.
  rewrite get_all_tags_pairs, (group_pairs_keys str_eqb str_eqb_eq), tag_pairs_keys.
  reflexivity.
Qed.

(** X3: The tag index of the generators is [get_all_tags] of the parser on
    the entries of the mapping, book after book, followed by the sort of
    each bucket. *)
Theorem build_tag_index_from_all_tags (d : dict Z (list SlideEntry)) :
  MasterIndexGenerator._build_tag_index d
  = MasterIndexGenerator.sort_buckets
      (IndexParser.get_all_tags (concat (dict_values d))).
Proof.
  unfold MasterIndexGenerator._build_tag_index.
  rewrite fill_pairs, get_all_tags_pairs. reflexivity.
Qed.

(** ** What the tag index holds *)

Lemma Forall2_In_l {A B} (R : A -> B -> Prop) (l : list A) (l' : list B)
  (x : A) :
  Forall2 R l l' -> In x l -> exists y, In y l' /\ R x y.
Proof.
  induction 1 as [|a b l l' Hab _ IH]; simpl; [tauto|].
  intros [<-|H].
  - exists b. auto.
  - destruct (IH H) as [y [Hy Hr]]. exists y. auto.
Qed.

Lemma fill_item (d : dict Z (list SlideEntry)) (tag : str)
  (b : list SlideEntry) :
  In (tag, b) (MasterIndexGenerator.fill d) ->
  b = insertion_bucket tag d /\ b <> [].
Proof.
  intros Hin. split.
  - rewrite <- fill_bucket. unfold bucket_of.
    rewrite (@dict_In_get _ _ str_eqb str_eqb_eq _ _ _ (fill_wf d) Hin).
    reflexivity.
  - rewrite fill_pairs in Hin.
    apply (group_pairs_nonempty str_eqb str_eqb_eq) with (k := tag) in Hin;
      [exact Hin|]. intros k l [].
Qed.

Lemma fill_has_tag (d : dict Z (list SlideEntry)) (tag : str)
  (e : SlideEntry) :
  In e (concat (dict_values d)) -> In tag (tags e) ->
  In (tag, insertion_bucket tag d) (MasterIndexGenerator.fill d).
Proof.
  intros He Ht.
  assert (Hi : In e (insertion_bucket tag d)).
  { apply insertion_bucket_In. auto. }
  rewrite <- fill_bucket in *. unfold bucket_of in *.
  destruct (dict_get str_eqb tag (MasterIndexGenerator.fill d)) as [l|] eqn:E;
    [|contradiction].
  apply (dict_get_In str_eqb str_eqb_eq). exact E.
Qed.

Lemma tag_index_is_exact_nonempty (d : dict Z (list SlideEntry))
  (ti : dict str (list SlideEntry)) :
  MasterIndexGenerator._build_tag_index d = Ok ti ->
  forall tag bucket, In (tag, bucket) ti ->
    bucket <> [] /\ Permutation (insertion_bucket tag d) bucket.
Proof.
  intros H tag bucket Hin.
  destruct (@Forall2_In_r _ _ _ _ _ _ (sort_buckets_ok _ H) Hin)
    as [[tag0 b0] [Hin0 [E [Hs _]]]].
  simpl in E, Hs. subst tag0.
  destruct (@fill_item d _ _ Hin0) as [-> Hne].
  split; [|apply Hs].
  intros E. subst bucket. destruct Hs as [Hp _].
  apply Permutation_sym, Permutation_nil in Hp. contradiction.
Qed.

(** X4: When the tag index is built, an entry is in the bucket of a tag
    exactly when it is an entry of the mapping that carries the tag; the
    bucket has one place per occurrence of the tag, so none is empty; and
    the tags come in the order in which the mapping first shows them. *)
Theorem tag_index_is_exact (d : dict Z (list SlideEntry))
  (ti : dict str (list SlideEntry)) :
  MasterIndexGenerator._build_tag_index d = Ok ti ->
  (forall tag e, In e (concat (dict_values d)) -> In tag (tags e) ->
     exists bucket, In (tag, bucket) ti /\ In e bucket)
  /\ (forall tag bucket e, In (tag, bucket) ti -> In e bucket ->
        In e (concat (dict_values d)) /\ In tag (tags e))
  /\ (forall tag bucket, In (tag, bucket) ti ->
        bucket <> []
        /\ length bucket
           = list_sum (map (occurrences tag) (concat (dict_values d))))
  /\ dict_keys ti
     = first_seen str_eqb [] (flat_map tags (concat (dict_values d))).
Proof.
  intros H.
  assert (H2 := sort_buckets_ok _ H).
  assert (Hperm : forall tag bucket, In (tag, bucket) ti ->
            Permutation (insertion_bucket tag d) bucket
            /\ insertion_bucket tag d <> []).
  { intros tag bucket Hin.
    destruct (@Forall2_In_r _ _ _ _ _ _ H2 Hin) as [[tag0 b0] [Hin0 [E [Hs _]]]].
    simpl in E, Hs. subst tag0.
    destruct (@fill_item d _ _ Hin0) as [-> Hne].
    split; [apply Hs | exact Hne]. }
  split; [|split; [|split]].
  - intros tag e He Ht.
    destruct (@Forall2_In_l _ _ _ _ _ _ H2 (@fill_has_tag d tag e He Ht))
      as [[tag' bucket] [Hin [E [Hs _]]]].
    simpl in E, Hs. subst tag'. exists bucket. split; [exact Hin|].
    apply (Permutation_in e (proj1 Hs)).
    apply insertion_bucket_In. auto.
  - intros tag bucket e Hin He. apply insertion_bucket_In.
    destruct (Hperm tag bucket Hin) as [Hp _].
    apply (Permutation_in e (Permutation_sym Hp)). exact He.
  - intros tag bucket Hin. destruct (Hperm tag bucket Hin) as [Hp Hne].
    split.
    + intros E. subst bucket. apply Permutation_sym, Permutation_nil in Hp.
      contradiction.
    + rewrite <- (Permutation_length Hp). apply length_insertion.
  - rewrite (sort_buckets_keys _ H), fill_pairs.
    rewrite (group_pairs_keys str_eqb str_eqb_eq), tag_pairs_keys.
    reflexivity.
Qed.

Lemma sort_buckets_raises (tm : dict str (list SlideEntry)) (ex : exn) :
  MasterIndexGenerator.sort_buckets tm = Raise ex ->
  exists tag bucket e,
    In (tag, bucket) tm /\ In e bucket
    /\ MasterIndexGenerator.sort_key e = Raise ex.
Proof.
  induction tm as [|[tag bucket] tm IH]; simpl; [discriminate|].
  destruct (list_sort pair_ltb MasterIndexGenerator.sort_key bucket)
    as [b'|ex'] eqn:E; simpl.
  - destruct (MasterIndexGenerator.sort_buckets tm) as [r|ex'] eqn:E2;
      simpl; [discriminate|].
    intros Hx. inversion Hx; subst ex'.
    destruct (IH eq_refl) as [t [b [e [H1 [H2 H3]]]]].
    exists t, b, e. auto.
  - intros Hx. inversion Hx; subst ex'.
    unfold list_sort in E.
    destruct (keyed MasterIndexGenerator.sort_key bucket) as [kl|ex'] eqn:E2;
      simpl in E; [discriminate|].
    inversion E; subst ex'.
    destruct (keyed_raises _ _ E2) as [e [He1 He2]].
    exists tag, bucket, e. auto.
Qed.

Lemma sort_key_raises (e : SlideEntry) (ex : exn) :
  MasterIndexGenerator.sort_key e = Raise ex ->
  (ex = TypeError /\ page_number e = None)
  \/ (ex = ValueError
      /\ exists p, page_number e = Some p
                   /\ contains "-"%char p = true
                   /\ py_int (split_head "-"%char p) = Raise ValueError).
Proof.
  unfold MasterIndexGenerator.sort_key.
  destruct (page_number e) as [p|]; simpl.
  - destruct (contains "-"%char p) eqn:Ec.
    + rewrite parse_page_num_hyphen by exact Ec.
      destruct (py_int (split_head "-"%char p)) as [v|ex'] eqn:Ei; simpl;
        [discriminate|].
      intros Hx. inversion Hx; subst ex'.
      assert (ex = ValueError) by (eapply py_int_raises; exact Ei). subst ex.
      right. split; [reflexivity|]. exists p. auto.
    + destruct (parse_page_num_no_hyphen p Ec) as [v [Hv _]].
      rewrite Hv. simpl. discriminate.
  - intros Hx. inversion Hx. auto.
Qed.

Lemma build_tag_index_total (d : dict Z (list SlideEntry)) :
  (forall e, In e (concat (dict_values d)) -> tags e <> [] ->
     page_sortable e = true)
  <-> exists ti, MasterIndexGenerator._build_tag_index d = Ok ti.
Proof.
  split.
  - intros Hok. apply sort_buckets_total.
    rewrite Forall_forall. intros [tag b] Hin. simpl.
    destruct (@fill_item d _ _ Hin) as [-> _].
    rewrite Forall_forall. intros e He.
    apply insertion_bucket_In in He. destruct He as [He1 He2].
    apply Hok; [exact He1|]. intros E. rewrite E in He2. contradiction.
  - intros [ti H] e He Hne.
    destruct (tags e) as [|tag tgs] eqn:Et; [contradiction|].
    assert (Hin := @fill_has_tag d tag e He).
    rewrite Et in Hin. specialize (Hin (or_introl eq_refl)).
    destruct (@Forall2_In_l _ _ _ _ _ _ (sort_buckets_ok _ H) Hin)
      as [[tag' bucket] [Hb [E [Hs Hk]]]].
    simpl in E, Hs, Hk. subst tag'.
    assert (Hi : In e bucket).
    { apply (Permutation_in e (proj1 Hs)). apply insertion_bucket_In.
      split; [exact He|]. rewrite Et. left. reflexivity. }
    rewrite Forall_forall in Hk. unfold page_sortable.
    rewrite (Hk e Hi). reflexivity.
Qed.

(** X5: The tag index is built exactly when the page of every entry that
    carries a tag has a numeric value. When it is not, what is raised is
    what the sort key of such an entry raises: a [TypeError] for a page
    that is [None], a [ValueError] for a token with a hyphen whose text
    before the first hyphen [int] rejects. *)
Theorem build_tag_index_returns_iff (d : dict Z (list SlideEntry)) :
  ((exists ti, MasterIndexGenerator._build_tag_index d = Ok ti)
   <-> (forall e, In e (concat (dict_values d)) -> tags e <> [] ->
          page_sortable e = true))
  /\ (forall ex, MasterIndexGenerator._build_tag_index d = Raise ex ->
        exists e, In e (concat (dict_values d)) /\ tags e <> []
          /\ MasterIndexGenerator.sort_key e = Raise ex
          /\ ((ex = TypeError /\ page_number e = None)
              \/ (ex = ValueError
                  /\ exists p, page_number e = Some p
                       /\ contains "-"%char p = true
                       /\ py_int (split_head "-"%char p)
                          = Raise ValueError))).
Proof.
  split.
  - symmetry. apply build_tag_index_total.
  - intros ex H.
    destruct (sort_buckets_raises _ H) as [tag [b [e [Hin [He Hk]]]]].
    destruct (@fill_item d _ _ Hin) as [-> _].
    apply insertion_bucket_In in He. destruct He as [He1 He2].
    exists e. split; [exact He1|]. split.
    + intros E. rewrite E in He2. contradiction.
    + split; [exact Hk | apply sort_key_raises; exact Hk].
Qed.

(** ** The mapping of [parse_multiple] *)

Lemma group_entries_pairs (es : list SlideEntry)
  (d : dict Z (list SlideEntry)) :
  IndexParser.group_entries es d = group_pairs Z.eqb (book_pairs es) d.
Proof.
  revert d. induction es as [|e es IH]; intros d; [reflexivity|].
  rewrite group_entries_step, IH. reflexivity.
Qed.

Lemma length_concat {A} (ls : list (list A)) :
  length (concat ls) = list_sum (map (@length A) ls).
Proof.
  induction ls as [|l ls IH]; [reflexivity|].
  simpl. rewrite length_app, IH. reflexivity.
Qed.

Lemma first_seen_count {K} (keq : K -> K -> bool)
  (dec : forall a b : K, {a = b} + {a <> b}) (l : list K) :
  (forall a b, keq a b = true <-> a = b) ->
  length (first_seen keq [] l) = length (nodup dec l).
Proof.
  intros keq_spec. apply Permutation_length. apply NoDup_Permutation.
  - apply first_seen_NoDup. exact keq_spec.
  - apply NoDup_nodup.
  - intros x. rewrite (first_seen_In keq keq_spec), nodup_In. simpl. tauto.
Qed.

(** X6: The mapping that [parse_multiple] returns lists the books in the
    order in which the files first show them; no book has an empty list,
    and every entry is under its own number; the mapping is empty exactly
    when no file gave an entry, and its lists have as many entries together
    as the files gave. *)
Theorem parse_multiple_books (fs : filesystem) (out out' : list str)
  (paths : list str) (pattern : option regex)
  (d : dict Z (list SlideEntry)) :
  IndexParser.parse_multiple fs out paths pattern = (out', Ok d) ->
  let all := flat_map (file_entries fs pattern) paths in
  dict_keys d = first_seen Z.eqb [] (map book_number all)
  /\ (forall b l, In (b, l) d ->
        l <> [] /\ Forall (fun e => book_number e = b) l)
  /\ (d = [] <-> all = [])
  /\ list_sum (map (fun item => length (snd item)) d) = length all.
Proof.
  intros H all. apply parse_multiple_loop_ok in H. fold all in H.
  assert (Hwf : dict_wf d).
  { subst d. apply group_entries_wf. constructor. }
  assert (Hb := group_entries_bucket).
  assert (Hv := group_entries_values all []).
  rewrite <- H in Hv. simpl in Hv.
  rewrite group_entries_pairs in H.
  split; [|split; [|split]].
  - subst d. rewrite (group_pairs_keys Z.eqb Z.eqb_eq).
    unfold book_pairs. rewrite map_map. reflexivity.
  - intros b l Hin. split.
    + subst d.
      apply (group_pairs_nonempty Z.eqb Z.eqb_eq) with (k := b) in Hin;
        [exact Hin|]. intros k l0 [].
    + assert (E : l = bucket_of Z.eqb b d).
      { unfold bucket_of.
        rewrite (@dict_In_get _ _ Z.eqb Z.eqb_eq _ _ _ Hwf Hin).
        reflexivity. }
      rewrite H, <- group_entries_pairs, Hb in E. simpl in E. subst l.
      rewrite Forall_forall. intros e He. apply filter_In in He.
      destruct He as [_ He]. unfold in_book in He.
      apply Z.eqb_eq in He. auto.
  - rewrite H, (group_pairs_nil Z.eqb Z.eqb_eq). unfold book_pairs. split.
    + intros [E _]. destruct all; [reflexivity | discriminate].
    + intros ->. auto.
  - rewrite <- (Permutation_length Hv), length_concat.
    unfold dict_values. rewrite map_map. reflexivity.
Qed.

(** ** From the files to the index, with the default pattern *)

Lemma file_entries_default (fs : filesystem) (path : str) (e : SlideEntry) :
  In e (file_entries fs None path) ->
  exists content,
    fs path = Readable content
    /\ In e (kept (finditer IndexParser.DEFAULT_PATTERN content)).
Proof.
  unfold file_entries. rewrite parse_file_default.
  destruct (fs path) as [|err|content]; simpl; try contradiction.
  intros H. exists content. auto.
Qed.

Lemma page_token_sortable (e : SlideEntry) (p : str) :
  page_number e = Some p -> is_page_token p ->
  length p <= int_max_str_digits -> page_sortable e = true.
Proof.
  intros Hp [lo [Hlo Hform]] Hlen.
  unfold page_sortable, MasterIndexGenerator.sort_key. rewrite Hp.
  destruct Hform as [->|[hi [Hhi ->]]].
  - destruct (parse_page_num_no_hyphen lo (digits_no_hyphen Hlo))
      as [v [Hv _]].
    rewrite Hv. reflexivity.
  - destruct (split_head_app lo hi (digits_no_hyphen Hlo)) as [H1 H2].
    rewrite parse_page_num_hyphen by exact H2. rewrite H1.
    rewrite (py_int_digits Hlo).
    replace (int_max_str_digits <? length lo) with false; [reflexivity|].
    symmetry. apply Nat.ltb_ge. rewrite length_app in Hlen. lia.
Qed.

(** X7: With the default pattern, when no page token is longer than the
    digit limit of [int], the whole way from the files to the generator
    raises nothing: [parse_multiple] returns a mapping, the generator is
    built from it, and its statistics count the entries the files gave,
    their distinct book numbers and their distinct tags. *)
Theorem default_pipeline_builds (fs : filesystem) (out : list str)
  (paths : list str) :
  let all := flat_map (file_entries fs None) paths in
  (forall e p, In e all -> page_number e = Some p ->
     length p <= int_max_str_digits) ->
  exists out' d self,
    IndexParser.parse_multiple fs out paths None = (out', Ok d)
    /\ MasterIndexGenerator.__init__ d = Ok self
    /\ total_slides (MasterIndexGenerator.get_statistics self) = length all
    /\ total_books (MasterIndexGenerator.get_statistics self)
       = length (nodup Z.eq_dec (map book_number all))
    /\ total_tags (MasterIndexGenerator.get_statistics self)
       = length (nodup str_dec (flat_map tags all)).
Proof.
  intros all Hlen.
  unfold IndexParser.parse_multiple. rewrite parse_multiple_loop_default.
  fold all. set (d := IndexParser.group_entries all []).
  assert (Hv : Permutation (concat (dict_values d)) all).
  { apply (group_entries_values all []). }
  assert (Hsort : forall e, In e (concat (dict_values d)) ->
            page_sortable e = true).
  { intros e He. apply (Permutation_in e Hv) in He.
    assert (He' := He). unfold all in He'. apply in_flat_map in He'.
    destruct He' as [path [_ Hp]].
    destruct (file_entries_default fs path e Hp) as [content [_ Hk]].
    destruct (default_kept content e Hk) as [[_ [[p [Hp1 Hp2]] _]] _].
    apply (page_token_sortable e Hp1 Hp2). apply (Hlen e p He Hp1). }
  destruct (proj1 (build_tag_index_total d)) as [ti Hti].
  { intros e He _. apply Hsort. exact He. }
  exists (out ++ skip_warnings fs paths), d, (MasterIndexGenerator.mk d ti).
  split; [reflexivity|]. split.
  { unfold MasterIndexGenerator.__init__. rewrite Hti. reflexivity. }
  unfold MasterIndexGenerator.get_statistics.
  cbn [total_slides total_books total_tags MasterIndexGenerator.all_entries
       MasterIndexGenerator.tag_index].
  split; [|split].
  - rewrite total_slides_sum, <- length_concat. simpl.
    apply Permutation_length. exact Hv.
  - unfold d. rewrite group_entries_pairs.
    rewrite <- (length_map fst). fold (dict_keys (group_pairs Z.eqb (book_pairs all) [])).
    rewrite (group_pairs_keys Z.eqb Z.eqb_eq). simpl.
    unfold book_pairs. rewrite map_map. simpl.
    apply first_seen_count. exact Z.eqb_eq.
  - rewrite <- (length_map fst). fold (dict_keys ti).
    rewrite (sort_buckets_keys _ Hti), fill_pairs.
    rewrite (group_pairs_keys str_eqb str_eqb_eq), tag_pairs_keys. simpl.
    rewrite (first_seen_count str_eqb str_dec _ str_eqb_eq).
    apply Permutation_length. apply NoDup_Permutation.
    + apply NoDup_nodup.
    + apply NoDup_nodup.
    + intros x. rewrite !nodup_In, !in_flat_map. split.
      * intros [e [He Hx]]. exists e. split; [|exact Hx].
        apply (Permutation_in e Hv). exact He.
      * intros [e [He Hx]]. exists e. split; [|exact Hx].
        apply (Permutation_in e (Permutation_sym Hv)). exact He.
Qed.

(** ** [str] of an integer, and [int] of the result *)

Lemma digit_char (d : Z) :
  (0 <= d < 10)%Z ->
  let a := ascii_of_nat (48 + Z.to_nat d) in
  isdecimal a = true /\ digit_val a = d.
Proof.
  intros Hd a.
  assert (Hc : code a = 48 + Z.to_nat d).
  { unfold a, code. apply nat_ascii_embedding. lia. }
  unfold isdecimal, in_range, digit_val. rewrite Hc. split.
  - apply andb_true_iff. split; apply Nat.leb_le; lia.
  - replace (48 + Z.to_nat d - 48) with (Z.to_nat d) by lia. lia.
Qed.

Lemma digits_value_snoc (ds : str) (a : ascii) :
  digits_value (ds ++ [a]) = (10 * digits_value ds + digit_val a)%Z.
Proof. unfold digits_value. rewrite fold_left_app. reflexivity. Qed.

Lemma log2_div10 (n : Z) :
  (10 <= n)%Z -> (Z.log2 (n / 10) < Z.log2 n)%Z.
Proof.
  intros Hn.
  assert (H1 : (0 < n / 10)%Z) by (apply Z.div_str_pos; lia).
  apply Z.log2_lt_pow2; [exact H1|].
  assert (H2 : (2 ^ Z.log2 n <= n < 2 ^ Z.succ (Z.log2 n))%Z)
    by (apply Z.log2_spec; lia).
  assert (H3 : (0 <= Z.log2 n)%Z) by apply Z.log2_nonneg.
  rewrite Z.pow_succ_r in H2 by exact H3.
  apply Z.div_lt_upper_bound; lia.
Qed.

(** The digits of a number: its value read back, and how many there are. *)
Lemma digits_from_spec (fuel : nat) :
  forall (n : Z) (acc : str),
    (0 <= n)%Z -> (Z.log2 n < Z.of_nat fuel)%Z ->
    exists ds,
      digits_from fuel n acc = ds ++ acc
      /\ is_digits ds /\ digits_value ds = n
      /\ (n < 10 ^ Z.of_nat (length ds))%Z
      /\ (n = 0%Z \/ 10 ^ Z.of_nat (length ds) <= 10 * n)%Z.
Proof.
  induction fuel as [|fuel IH]; intros n acc Hn Hf.
  - pose proof (Z.log2_nonneg n). lia.
  - cbn [digits_from]. cbv zeta.
    assert (Hm : (0 <= n mod 10 < 10)%Z) by (apply Z.mod_pos_bound; lia).
    destruct (digit_char Hm) as [Hd1 Hd2].
    destruct (n <? 10)%Z eqn:E.
    + apply Z.ltb_lt in E.
      exists [ascii_of_nat (48 + Z.to_nat (n mod 10))].
      split; [reflexivity|]. split.
      { split; [discriminate|]. constructor; [exact Hd1 | constructor]. }
      split.
      { unfold digits_value. cbn [fold_left]. rewrite Hd2.
        rewrite Z.mod_small by lia. lia. }
      simpl length. change (10 ^ Z.of_nat 1)%Z with 10%Z. lia.
    + apply Z.ltb_ge in E.
      assert (Hlog := log2_div10 E).
      assert (Hq : (0 <= n / 10)%Z) by (apply Z.div_pos; lia).
      destruct (IH (n / 10)%Z
                  (ascii_of_nat (48 + Z.to_nat (n mod 10)) :: acc) Hq)
        as [ds [H1 [[H2 H2'] [H3 [H4 H5]]]]]; [lia|].
      exists (ds ++ [ascii_of_nat (48 + Z.to_nat (n mod 10))]).
      split; [rewrite H1, <- app_assoc; reflexivity|]. split.
      { split.
        - intros E0. apply app_eq_nil in E0. destruct E0 as [_ E0].
          discriminate.
        - apply Forall_app. split; [exact H2'|].
          constructor; [exact Hd1 | constructor]. }
      assert (Hdiv : (n = 10 * (n / 10) + n mod 10)%Z)
        by (apply Z.div_mod; lia).
      split.
      { rewrite digits_value_snoc, H3, Hd2. lia. }
      rewrite length_app. simpl length.
      rewrite Nat2Z.inj_add. change (Z.of_nat 1) with 1%Z.
      rewrite Z.pow_add_r by lia. change (10 ^ 1)%Z with 10%Z.
      assert (Hq1 : (1 <= n / 10)%Z).
      { apply Z.div_le_lower_bound; lia. }
      split; [lia|]. right. lia.
Qed.

Lemma digits_of_spec (n : Z) :
  (0 <= n)%Z ->
  is_digits (digits_of n) /\ digits_value (digits_of n) = n
  /\ (n < 10 ^ Z.of_nat (length (digits_of n)))%Z
  /\ (n = 0%Z \/ 10 ^ Z.of_nat (length (digits_of n)) <= 10 * n)%Z.
Proof.
  intros Hn. unfold digits_of.
  destruct (@digits_from_spec (S (Z.to_nat (Z.log2 n))) n [] Hn)
    as [ds [H1 H2]].
  - pose proof (Z.log2_nonneg n). lia.
  - rewrite app_nil_r in H1. rewrite H1. exact H2.
Qed.

(** The digit limit of [str] in terms of the number. *)
Lemma digits_of_limit (n : Z) :
  (0 <= n)%Z ->
  (int_max_str_digits <? length (digits_of n)) = true
  <-> (10 ^ Z.of_nat int_max_str_digits <= n)%Z.
Proof.
  intros Hn. destruct (digits_of_spec Hn) as [_ [_ [H1 H2]]].
  rewrite Nat.ltb_lt. split.
  - intros Hl. destruct H2 as [->|H2].
    + destruct (digits_of_spec (Z.le_refl 0)) as [_ [_ [_ [_|H]]]].
      * exfalso. revert Hl. vm_compute. lia.
      * exfalso. revert Hl. vm_compute. lia.
    + assert (Hp : (10 * 10 ^ Z.of_nat int_max_str_digits
                    <= 10 ^ Z.of_nat (length (digits_of n)))%Z).
      { rewrite <- Z.pow_succ_r by lia. apply Z.pow_le_mono_r; lia. }
      lia.
  - intros Hge.
    destruct (Nat.lt_ge_cases int_max_str_digits (length (digits_of n)))
      as [Hl|Hl]; [exact Hl|].
    assert (Hp : (10 ^ Z.of_nat (length (digits_of n))
                  <= 10 ^ Z.of_nat int_max_str_digits)%Z).
    { apply Z.pow_le_mono_r; lia. }
    lia.
Qed.

Lemma py_str_nonneg (n : Z) (s : str) :
  (0 <= n)%Z -> py_str n = Ok s ->
  s = digits_of n /\ is_digits s /\ digits_value s = n
  /\ length s <= int_max_str_digits.
Proof.
  intros Hn. unfold py_str. rewrite Z.abs_eq by exact Hn.
  destruct (int_max_str_digits <? length (digits_of n)) eqn:E;
    [discriminate|].
  replace (n <? 0)%Z with false by (symmetry; apply Z.ltb_ge; exact Hn).
  intros H. inversion H; subst s.
  destruct (digits_of_spec Hn) as [H1 [H2 _]].
  apply Nat.ltb_ge in E. auto.
Qed.

Lemma py_str_small (n : Z) :
  (0 <= n < 10 ^ Z.of_nat int_max_str_digits)%Z ->
  py_str n = Ok (digits_of n).
Proof.
  intros Hn. unfold py_str. rewrite Z.abs_eq by lia.
  destruct (int_max_str_digits <? length (digits_of n)) eqn:E.
  - apply digits_of_limit in E; lia.
  - replace (n <? 0)%Z with false by (symmetry; apply Z.ltb_ge; lia).
    reflexivity.
Qed.

Lemma py_int_minus (ds : str) :
  is_digits ds ->
  py_int ("-"%char :: ds)
  = if int_max_str_digits <? length ds then Raise ValueError
    else Ok (- digits_value ds)%Z.
Proof.
  intros [Hne Hall]. unfold py_int.
  rewrite strip_none.
  - cbn [int_sign]. replace (is_code 45 "-"%char) with true by reflexivity.
    rewrite (int_digits_all Hall) by (right; exact Hne).
    reflexivity.
  - constructor; [reflexivity|].
    eapply Forall_impl; [|exact Hall]. intros a Ha.
    apply digit_not_special. exact Ha.
Qed.

(** [int(str(n))] is [n]. *)
Lemma py_int_py_str (n : Z) (s : str) :
  py_str n = Ok s -> py_int s = Ok n.
Proof.
  unfold py_str.
  destruct (int_max_str_digits <? length (digits_of (Z.abs n))) eqn:E;
    [discriminate|].
  intros H. inversion H; subst s. clear H.
  destruct (digits_of_spec (Z.abs_nonneg n)) as [H1 [H2 _]].
  destruct (n <? 0)%Z eqn:En.
  - rewrite (py_int_minus H1), E, H2. apply Z.ltb_lt in En.
    f_equal. lia.
  - rewrite (py_int_digits H1), E, H2. apply Z.ltb_ge in En.
    f_equal. lia.
Qed.

Lemma py_str_raises (n : Z) (e : exn) :
  py_str n = Raise e ->
  e = ValueError /\ (10 ^ Z.of_nat int_max_str_digits <= Z.abs n)%Z.
Proof.
  unfold py_str.
  destruct (int_max_str_digits <? length (digits_of (Z.abs n))) eqn:E;
    [|discriminate].
  intros H. inversion H. split; [reflexivity|].
  apply digits_of_limit; [apply Z.abs_nonneg | exact E].
Qed.

(** ** The numbers that [int] returns *)

Lemma digit_val_bound (a : ascii) :
  isdecimal a = true -> (0 <= digit_val a <= 9)%Z.
Proof.
  unfold isdecimal, in_range, digit_val. intros H.
  apply andb_true_iff in H. destruct H as [H1 H2].
  apply Nat.leb_le in H1. apply Nat.leb_le in H2. lia.
Qed.

Lemma int_digits_bound (s : str) :
  forall prev acc n v m,
    int_digits prev s acc n = Some (v, m) ->
    (0 <= acc < 10 ^ Z.of_nat n)%Z ->
    (0 <= v < 10 ^ Z.of_nat m)%Z.
Proof.
  induction s as [|a s IH]; intros prev acc n v m; cbn [int_digits].
  - destruct prev; [|discriminate]. intros H. inversion H; subst. auto.
  - destruct (isdecimal a) eqn:Ed.
    + intros H Hacc. apply (IH _ _ _ _ _ H).
      pose proof (digit_val_bound a Ed).
      rewrite Nat2Z.inj_succ, Z.pow_succ_r by lia. lia.
    + destruct (is_code 95 a); [|discriminate].
      destruct prev; [|discriminate].
      intros H Hacc. apply (IH _ _ _ _ _ H Hacc).
Qed.

Lemma lstrip_In (f : ascii -> bool) (s : str) (a : ascii) :
  In a (lstrip f s) -> In a s.
Proof.
  induction s as [|b s IH]; simpl; [tauto|].
  destruct (f b); simpl; tauto.
Qed.

Lemma strip_In (f : ascii -> bool) (s : str) (a : ascii) :
  In a (strip f s) -> In a s.
Proof.
  unfold strip. rewrite <- in_rev. intros H.
  apply lstrip_In in H. rewrite <- in_rev in H.
  apply lstrip_In in H. exact H.
Qed.

Lemma contains_In (c : ascii) (s : str) :
  contains c s = true <-> In c s.
Proof.
  unfold contains. rewrite existsb_exists. split.
  - intros [a [Ha E]]. apply ascii_eqb_eq in E. subst. exact Ha.
  - intros H. exists c. split; [exact H | apply ascii_eqb_eq; reflexivity].
Qed.

Lemma is_code_hyphen (a : ascii) : is_code 45 a = true -> a = "-"%char.
Proof.
  unfold is_code, code. intros H. apply Nat.eqb_eq in H.
  rewrite <- (ascii_nat_embedding a), H. reflexivity.
Qed.

(** What [int] returns has no more digits than the limit, and is not
    negative when the text has no hyphen. *)
Lemma py_int_bound (s : str) (v : Z) :
  py_int s = Ok v ->
  (Z.abs v < 10 ^ Z.of_nat int_max_str_digits)%Z
  /\ (contains "-"%char s = false -> 0 <= v)%Z.
Proof.
  unfold py_int.
  destruct (int_sign (strip int_space s)) as [neg body] eqn:Es.
  destruct (int_digits false body 0 0) as [[v' m]|] eqn:Ed; [|discriminate].
  destruct (int_max_str_digits <? m) eqn:El; [discriminate|].
  intros H. inversion H; subst v. clear H.
  apply Nat.ltb_ge in El.
  assert (Hb : (0 <= v' < 10 ^ Z.of_nat m)%Z).
  { apply (@int_digits_bound body false 0%Z 0 v' m Ed). simpl. lia. }
  assert (Hp : (10 ^ Z.of_nat m <= 10 ^ Z.of_nat int_max_str_digits)%Z).
  { apply Z.pow_le_mono_r; lia. }
  split.
  - destruct neg; lia.
  - intros Hc. destruct neg; [|lia]. exfalso.
    unfold int_sign in Es.
    destruct (strip int_space s) as [|a s'] eqn:E; [discriminate|].
    destruct (is_code 45 a) eqn:E45.
    + apply is_code_hyphen in E45. subst a.
      assert (Hin : In "-"%char s).
      { apply (@strip_In int_space). rewrite E. left. reflexivity. }
      apply contains_In in Hin. congruence.
    + destruct (is_code 43 a); discriminate.
Qed.

Lemma split_head_clean (c : ascii) (s : str) :
  contains c (split_head c s) = false.
Proof.
  induction s as [|a s IH]; simpl; [reflexivity|].
  destruct (ascii_eqb c a) eqn:E; simpl; [reflexivity|].
  rewrite E. exact IH.
Qed.

Lemma split_head_none (c : ascii) (s : str) :
  contains c s = false -> split_head c s = s.
Proof.
  induction s as [|a s IH]; simpl; [reflexivity|].
  destruct (ascii_eqb c a); simpl; [discriminate|].
  intros H. rewrite IH by exact H. reflexivity.
Qed.

(** ** [min] and [max] *)

Lemma list_min_spec (l : list Z) :
  forall x, In (list_min x l) (x :: l)
            /\ forall v, In v (x :: l) -> (list_min x l <= v)%Z.
Proof.
  unfold list_min. induction l as [|y l IH]; intros x; cbn [fold_left].
  - split; [left; reflexivity|]. intros v [<-|[]]. lia.
  - destruct (IH (Z.min x y)) as [H1 H2]. split.
    + destruct H1 as [H1|H1]; [|right; right; exact H1].
      rewrite <- H1. destruct (Z.min_spec x y) as [[_ ->]|[_ ->]];
        [left | right; left]; reflexivity.
    + intros v [<-|[<-|Hv]].
      * specialize (H2 _ (or_introl eq_refl)). lia.
      * specialize (H2 _ (or_introl eq_refl)). lia.
      * apply H2. right. exact Hv.
Qed.

Lemma list_max_spec (l : list Z) :
  forall x, In (list_max x l) (x :: l)
            /\ forall v, In v (x :: l) -> (v <= list_max x l)%Z.
Proof.
  unfold list_max. induction l as [|y l IH]; intros x; cbn [fold_left].
  - split; [left; reflexivity|]. intros v [<-|[]]. lia.
  - destruct (IH (Z.max x y)) as [H1 H2]. split.
    + destruct H1 as [H1|H1]; [|right; right; exact H1].
      rewrite <- H1. destruct (Z.max_spec x y) as [[_ ->]|[_ ->]];
        [right; left | left]; reflexivity.
    + intros v [<-|[<-|Hv]].
      * specialize (H2 _ (or_introl eq_refl)). lia.
      * specialize (H2 _ (or_introl eq_refl)). lia.
      * apply H2. right. exact Hv.
Qed.

(** ** The page range of a book *)

Lemma range_value_bound (e : SlideEntry) (v : Z) :
  range_value e = Some v ->
  (0 <= v < 10 ^ Z.of_nat int_max_str_digits)%Z.
Proof.
  unfold range_value.
  destruct (py_int (split_head "-"%char (page_text e))) as [v'|] eqn:E;
    [|discriminate].
  intros H. inversion H; subst v'.
  destruct (py_int_bound _ E) as [H1 H2].
  specialize (H2 (split_head_clean _ _)). lia.
Qed.

Lemma range_values_bound (entries : list SlideEntry) (v : Z) :
  In v (range_values entries) ->
  (0 <= v < 10 ^ Z.of_nat int_max_str_digits)%Z.
Proof.
  unfold range_values. rewrite in_flat_map. intros [e [_ H]].
  destruct (range_value e) as [v'|] eqn:E; [|contradiction].
  destruct H as [<-|[]]. apply (range_value_bound e E).
Qed.

(** The loop of [_get_page_range]: it stops at the first page text with a
    hyphen whose beginning is no number, and collects the numbers of the
    others. *)
Lemma page_nums_spec (entries : list SlideEntry) :
  forall acc,
    BookPDFGenerator.page_nums entries acc
    = if existsb bad_range entries then Raise ValueError
      else Ok (acc ++ range_values entries).
Proof.
  induction entries as [|e es IH]; intros acc.
  - simpl. rewrite app_nil_r. reflexivity.
  - cbn [BookPDFGenerator.page_nums existsb]. cbv zeta.
    unfold bad_range at 1, range_value at 1.
    unfold range_values. cbn [flat_map]. fold (range_values es).
    unfold range_value at 1. fold (page_text e).
    destruct (contains "-"%char (page_text e)) eqn:Ec; cbn [andb].
    + destruct (py_int (split_head "-"%char (page_text e))) as [v|ex] eqn:Ei.
      * cbn [bind orb]. rewrite IH.
        destruct (existsb bad_range es); [reflexivity|].
        rewrite <- app_assoc. reflexivity.
      * cbn [bind orb]. rewrite (py_int_raises _ Ei). reflexivity.
    + rewrite (split_head_none _ _ Ec). cbn [orb].
      destruct (py_int (page_text e)) as [v|ex] eqn:Ei.
      * rewrite IH. destruct (existsb bad_range es); [reflexivity|].
        rewrite <- app_assoc. reflexivity.
      * rewrite (py_int_raises _ Ei). rewrite IH. reflexivity.
Qed.

Lemma bad_range_parse (e : SlideEntry) :
  bad_range e = true
  <-> MasterIndexGenerator._parse_page_num (page_text e) = Raise ValueError.
Proof.
  unfold bad_range, range_value.
  destruct (contains "-"%char (page_text e)) eqn:Ec; cbn [andb].
  - rewrite parse_page_num_hyphen by exact Ec.
    destruct (py_int (split_head "-"%char (page_text e))) as [v|ex] eqn:Ei.
    + split; discriminate.
    + rewrite (py_int_raises _ Ei). tauto.
  - destruct (parse_page_num_no_hyphen _ Ec) as [v [Hv _]]. rewrite Hv.
    split; discriminate.
Qed.

Lemma range_text_value (lo hi : Z) :
  (0 <= lo < 10 ^ Z.of_nat int_max_str_digits)%Z ->
  MasterIndexGenerator._parse_page_num (digits_of lo ++ lit "-" ++ digits_of hi)
  = Ok lo.
Proof.
  intros Hlo.
  destruct (digits_of_spec (proj1 Hlo)) as [H1 [H2 _]].
  change (lit "-" ++ digits_of hi) with ("-"%char :: digits_of hi).
  destruct (split_head_app (digits_of lo) (digits_of hi)
              (digits_no_hyphen H1)) as [Hs Hc].
  rewrite parse_page_num_hyphen by exact Hc. rewrite Hs.
  rewrite (py_int_digits H1), H2.
  destruct (int_max_str_digits <? length (digits_of lo)) eqn:E;
    [|reflexivity].
  apply digits_of_limit in E; lia.
Qed.

Lemma page_range_eval (self : BookPDFGenerator.t) :
  BookPDFGenerator._get_page_range self
  = if existsb bad_range (BookPDFGenerator.entries self)
    then Raise ValueError
    else match range_values (BookPDFGenerator.entries self) with
         | [] => Ok (lit "N/A")
         | x :: l =>
             Ok (digits_of (list_min x l) ++ lit "-"
                   ++ digits_of (list_max x l))
         end.
Proof.
  unfold BookPDFGenerator._get_page_range.
  destruct (BookPDFGenerator.entries self) as [|e es] eqn:Ee;
    [reflexivity|].
  rewrite page_nums_spec. cbn [app].
  destruct (existsb bad_range (e :: es)); [reflexivity|].
  cbn [bind].
  destruct (range_values (e :: es)) as [|x l] eqn:Ev; [reflexivity|].
  assert (Hb : forall v, In v (x :: l) ->
            (0 <= v < 10 ^ Z.of_nat int_max_str_digits)%Z).
  { intros v Hv. rewrite <- Ev in Hv.
    apply (range_values_bound _ _ Hv). }
  rewrite (py_str_small (Hb _ (proj1 (list_min_spec l x)))).
  rewrite (py_str_small (Hb _ (proj1 (list_max_spec l x)))).
  reflexivity.
Qed.

Lemma existsb_bad_range (entries : list SlideEntry) :
  existsb bad_range entries = true
  <-> exists e, In e entries
        /\ MasterIndexGenerator._parse_page_num (page_text e)
           = Raise ValueError.
Proof.
  rewrite existsb_exists. split; intros [e [H1 H2]]; exists e;
    (split; [exact H1 | apply bad_range_parse; exact H2]).
Qed.

(** X8: [_get_page_range] raises exactly when the page text of some entry
    has a hyphen and a beginning that [int] rejects, which is when
    [_parse_page_num] raises on it; what it raises is a [ValueError]. A
    page that is [None], or a text without a hyphen that is no number,
    raises nothing. *)
Theorem page_range_raises (self : BookPDFGenerator.t) :
  (forall ex, BookPDFGenerator._get_page_range self = Raise ex ->
     ex = ValueError)
  /\ (BookPDFGenerator._get_page_range self = Raise ValueError
      <-> exists e, In e (BookPDFGenerator.entries self)
            /\ MasterIndexGenerator._parse_page_num (page_text e)
               = Raise ValueError)
  /\ (forall e, contains "-"%char (page_text e) = false ->
        bad_range e = false).
Proof.
  rewrite page_range_eval, <- existsb_bad_range.
  destruct (existsb bad_range (BookPDFGenerator.entries self)).
  - split; [intros ex H; inversion H; reflexivity|].
    split; [tauto|]. intros e He. unfold bad_range. rewrite He. reflexivity.
  - split.
    { intros ex. destruct (range_values _); discriminate. }
    split.
    { split; [|discriminate].
      destruct (range_values _); discriminate. }
    intros e He. unfold bad_range. rewrite He. reflexivity.
Qed.

Lemma range_value_parse (e : SlideEntry) :
  bad_range e = false ->
  MasterIndexGenerator._parse_page_num (page_text e)
  = Ok (match range_value e with Some v => v | None => 0%Z end).
Proof.
  unfold bad_range, range_value.
  destruct (contains "-"%char (page_text e)) eqn:Ec; cbn [andb].
  - rewrite parse_page_num_hyphen by exact Ec.
    destruct (py_int (split_head "-"%char (page_text e))); [|discriminate].
    reflexivity.
  - intros _. rewrite (split_head_none _ _ Ec).
    unfold MasterIndexGenerator._parse_page_num. rewrite Ec.
    destruct (py_int (page_text e)) as [v|ex] eqn:Ei; [reflexivity|].
    rewrite (py_int_raises _ Ei). reflexivity.
Qed.

(** X9: When [_get_page_range] raises nothing, it returns [N/A] when no
    entry has a page text that [int] reads, and otherwise the smallest and
    the largest of the numbers read, with a hyphen between them: both are
    numbers of entries, none is negative, every number read lies between
    them, and the text returned is itself a page range whose numeric value
    is the smallest. An entry counts with the number the tag index sorts it
    by, but one that the index sorts as page 0 for want of a number is left
    out. *)
Theorem page_range_result (self : BookPDFGenerator.t) :
  (forall e, In e (BookPDFGenerator.entries self) ->
     is_ok (MasterIndexGenerator._parse_page_num (page_text e)) = true) ->
  let vals := range_values (BookPDFGenerator.entries self) in
  (vals = [] -> BookPDFGenerator._get_page_range self = Ok (lit "N/A"))
  /\ (vals <> [] ->
      exists lo hi slo shi,
        BookPDFGenerator._get_page_range self = Ok (slo ++ lit "-" ++ shi)
        /\ py_str lo = Ok slo /\ py_str hi = Ok shi
        /\ In lo vals /\ In hi vals
        /\ (forall v, In v vals -> (0 <= lo <= v)%Z /\ (v <= hi)%Z)
        /\ MasterIndexGenerator._parse_page_num (slo ++ lit "-" ++ shi)
           = Ok lo)
  /\ (forall e, In e (BookPDFGenerator.entries self) ->
        MasterIndexGenerator._parse_page_num (page_text e)
        = Ok (match range_value e with Some v => v | None => 0%Z end)).
Proof.
  intros Hok vals.
  assert (Hbad : forall e, In e (BookPDFGenerator.entries self) ->
            bad_range e = false).
  { intros e He. destruct (bad_range e) eqn:E; [|reflexivity].
    apply bad_range_parse in E. specialize (Hok e He).
    rewrite E in Hok. discriminate. }
  assert (Hex : existsb bad_range (BookPDFGenerator.entries self) = false).
  { destruct (existsb bad_range (BookPDFGenerator.entries self)) eqn:E;
      [|reflexivity].
    apply existsb_exists in E. destruct E as [e [He Hb]].
    rewrite (Hbad e He) in Hb. discriminate. }
  rewrite page_range_eval, Hex. fold vals.
  split; [|split].
  - intros ->. reflexivity.
  - intros Hne. destruct vals as [|x l] eqn:Ev; [contradiction|].
    assert (Hb : forall v, In v (x :: l) ->
              (0 <= v < 10 ^ Z.of_nat int_max_str_digits)%Z).
    { intros v Hv. rewrite <- Ev in Hv. apply (range_values_bound _ _ Hv). }
    destruct (list_min_spec l x) as [Hlo1 Hlo2].
    destruct (list_max_spec l x) as [Hhi1 Hhi2].
    exists (list_min x l), (list_max x l), (digits_of (list_min x l)),
      (digits_of (list_max x l)).
    split; [reflexivity|].
    split; [apply py_str_small; apply Hb; exact Hlo1|].
    split; [apply py_str_small; apply Hb; exact Hhi1|].
    split; [exact Hlo1|]. split; [exact Hhi1|]. split.
    + intros v Hv. pose proof (Hb _ Hlo1). pose proof (Hlo2 v Hv).
      pose proof (Hhi2 v Hv). lia.
    + apply range_text_value. apply Hb. exact Hlo1.
  - intros e He. apply range_value_parse. apply Hbad. exact He.
Qed.

(** ** The way the matcher takes first *)

Section Passes.
Variable R : Type.

Lemma passes_chr (base : nat) (neg : bool) (items : list citem) (a : ascii)
  (s : str) (c : caps) :
  class_mem neg items a = true ->
  passes R base (Chr neg items) (a :: s) s c c.
Proof. intros H k res Hk. cbn [rmatch]. rewrite H. exact Hk. Qed.

Lemma passes_seq (base : nat) (r1 r2 : regex) (s s1 s2 : str)
  (c c1 c2 : caps) :
  passes R base r1 s s1 c c1 ->
  passes R (base + ngroups r1) r2 s1 s2 c1 c2 ->
  passes R base (Seq r1 r2) s s2 c c2.
Proof.
  intros H1 H2 k res Hk. cbn [rmatch]. apply H1. apply H2. exact Hk.
Qed.

Lemma passes_group (base : nat) (r : regex) (w s' : str) (c c1 : caps) :
  passes R (S base) r (w ++ s') s' c c1 ->
  passes R base (Group r) (w ++ s') s' c (set_cap base w c1).
Proof.
  intros H k res Hk. cbn [rmatch]. apply H.
  rewrite firstn_consumed. exact Hk.
Qed.

Lemma passes_noncap (base : nat) (r : regex) (s s' : str) (c c' : caps) :
  passes R base r s s' c c' -> passes R base (NonCap r) s s' c c'.
Proof. intros H k res Hk. cbn [rmatch]. apply H. exact Hk. Qed.

Lemma passes_opt_some (base : nat) (r : regex) (s s' : str)
  (c c' : caps) :
  passes R base r s s' c c' -> passes R base (Opt r) s s' c c'.
Proof.
  intros H k res Hk. cbn [rmatch]. rewrite (H k res Hk). reflexivity.
Qed.

Lemma passes_opt_none (base : nat) (r : regex) (s : str) (c : caps) :
  (forall k : kont R, rmatch base r k s c = None) ->
  passes R base (Opt r) s s c c.
Proof. intros H k res Hk. cbn [rmatch]. rewrite H. exact Hk. Qed.

Lemma passes_plus_chr (base : nat) (neg : bool) (items : list citem)
  (w rest : str) (c : caps) :
  w <> [] ->
  Forall (fun a => class_mem neg items a = true) w ->
  match rest with
  | [] => True
  | a :: _ => class_mem neg items a = false
  end ->
  passes R base (Plus (Chr neg items)) (w ++ rest) rest c c.
Proof.
  intros Hne Hw Hrest k res Hk.
  destruct w as [|a w]; [contradiction|].
  inversion Hw as [|a' w' Ha Hw']; subst.
  cbn [rmatch app]. rewrite Ha.
  apply (@rep_chr_greedy R base neg items k rest c res w Hw' Hrest Hk).
  lia.
Qed.

Lemma passes_star_nil (base : nat) (r : regex) (s : str) (c : caps) :
  (forall k : kont R, rmatch base r k s c = None) ->
  passes R base (Star r) s s c c.
Proof.
  intros H k res Hk. cbn [rmatch rep_loop]. rewrite H. exact Hk.
Qed.

Lemma passes_star_cons (base : nat) (r : regex) (s s1 s2 : str)
  (c c1 c2 : caps) :
  passes R base r s s1 c c1 -> length s1 < length s ->
  passes R base (Star r) s1 s2 c1 c2 ->
  passes R base (Star r) s s2 c c2.
Proof.
  intros H1 Hlen H2 k res Hk. cbn [rmatch rep_loop].
  rewrite (H1 _ res); [reflexivity|].
  replace (length s1 =? length s) with false
    by (symmetry; apply Nat.eqb_neq; lia).
  specialize (H2 k res Hk). cbn [rmatch] in H2.
  rewrite <- H2. apply rep_loop_fuel; [apply rmatch_local | lia | lia].
Qed.

Lemma passes_text (base : nat) (w rest : str) (c : caps) :
  w <> [] -> passes R base (text w) (w ++ rest) rest c c.
Proof.
  revert base. induction w as [|a w IH]; intros base Hne; [contradiction|].
  destruct w as [|b w].
  - cbn [text app]. apply passes_chr. rewrite class_lit.
    apply ascii_eqb_refl.
  - change (text (a :: b :: w)) with (Seq (chr a) (text (b :: w))).
    eapply passes_seq.
    + cbn [app]. apply passes_chr. rewrite class_lit. apply ascii_eqb_refl.
    + apply IH. discriminate.
Qed.

End Passes.

(** ** The way through the default pattern on a record *)

Lemma digit_not_space (a : ascii) :
  isdecimal a = true ->
  isspace a = false /\ ascii_eqb "-"%char a = false.
Proof.
  intros H. destruct a as [b0 b1 b2 b3 b4 b5 b6 b7].
  destruct b0, b1, b2, b3, b4, b5, b6, b7;
    try (vm_compute in H; discriminate H); split; reflexivity.
Qed.

Lemma tag_not_space (t rest : str) :
  is_tag t ->
  match t ++ rest with
  | [] => True
  | a :: _ => isspace a = false
  end.
Proof. intros [body [-> _]]. reflexivity. Qed.

Lemma digits_head (g rest : str) :
  is_digits g ->
  match g ++ rest with
  | [] => True
  | a :: _ => isspace a = false
  end.
Proof.
  intros [Hne Hall]. destruct g as [|a g]; [contradiction|].
  inversion Hall; subst. apply digit_not_space. assumption.
Qed.

Lemma blank_head (ws rest : str) :
  is_blank ws ->
  match ws ++ rest with
  | [] => True
  | a :: _ => tag_char a = false
  end.
Proof.
  intros [Hne Hall]. destruct ws as [|a ws]; [contradiction|].
  inversion Hall; subst. apply space_not_tag. assumption.
Qed.

Section PassesDefault.
Variable R : Type.

Lemma passes_blank (base : nat) (ws rest : str) (c : caps) :
  is_blank ws ->
  match rest with
  | [] => True
  | a :: _ => isspace a = false
  end ->
  passes R base (Plus re_s) (ws ++ rest) rest c c.
Proof.
  intros [Hne Hall] Hrest. apply passes_plus_chr; [exact Hne | |].
  - eapply Forall_eq_bool; [|exact Hall]. intros a. symmetry.
    apply class_space.
  - destruct rest as [|a rest]; [exact I|]. rewrite class_space.
    exact Hrest.
Qed.

Lemma passes_digits (base : nat) (g rest : str) (c : caps) :
  is_digits g ->
  match rest with
  | [] => True
  | a :: _ => isdecimal a = false
  end ->
  passes R base (Plus re_d) (g ++ rest) rest c c.
Proof.
  intros [Hne Hall] Hrest. apply passes_plus_chr; [exact Hne | |].
  - eapply Forall_eq_bool; [|exact Hall]. intros a. symmetry.
    apply class_digit.
  - destruct rest as [|a rest]; [exact I|]. rewrite class_digit.
    exact Hrest.
Qed.

Lemma passes_tag (base : nat) (t rest : str) (c : caps) :
  is_tag t ->
  match rest with
  | [] => True
  | a :: _ => tag_char a = false
  end ->
  passes R base TAG_PATTERN (t ++ rest) rest c c.
Proof.
  intros [body [-> [Hne Hall]]] Hrest. unfold TAG_PATTERN.
  eapply passes_seq.
  - cbn [app]. apply passes_chr. rewrite class_lit. apply ascii_eqb_refl.
  - apply passes_plus_chr; [exact Hne | |].
    + eapply Forall_eq_bool; [|exact Hall]. intros a. symmetry.
      apply class_tag.
    + destruct rest as [|a rest]; [exact I|]. rewrite class_tag.
      exact Hrest.
Qed.

Lemma passes_page (base : nat) (p rest : str) (c : caps) :
  is_page_token p ->
  match rest with
  | [] => True
  | a :: _ => isdecimal a = false /\ ascii_eqb "-"%char a = false
  end ->
  passes R base
    (Seq (Plus re_d) (Opt (NonCap (Seq (chr "-"%char) (Plus re_d)))))
    (p ++ rest) rest c c.
Proof.
  intros [lo [Hlo [->|[hi [Hhi ->]]]]] Hrest.
  - eapply passes_seq.
    + apply passes_digits; [exact Hlo|].
      destruct rest as [|a rest]; [exact I | apply Hrest].
    + apply passes_opt_none. intros k. cbn [rmatch chr].
      destruct rest as [|a rest]; [reflexivity|].
      rewrite class_lit. destruct Hrest as [_ ->]. reflexivity.
  - rewrite <- app_assoc. cbn [app]. eapply passes_seq.
    + apply passes_digits; [exact Hlo | reflexivity].
    + apply passes_opt_some, passes_noncap. eapply passes_seq.
      * apply passes_chr. rewrite class_lit. apply ascii_eqb_refl.
      * apply passes_digits; [exact Hhi|].
        destruct rest as [|a rest]; [exact I | apply Hrest].
Qed.

Lemma passes_title (base : nat) (t rest : str) (c : caps) :
  is_title t ->
  passes R base (Plus (Chr true [CLit dquote])) (t ++ dquote :: rest)
    (dquote :: rest) c c.
Proof.
  intros [Hne Hall]. apply passes_plus_chr; [exact Hne | |].
  - eapply Forall_impl; [|exact Hall]. intros a Ha. cbv beta in Ha.
    rewrite class_not_lit, Ha. reflexivity.
  - rewrite class_not_lit, ascii_eqb_refl. reflexivity.
Qed.

(** After the last tag the repeat of the tag group stops. *)
Lemma tag_step_fails (base : nat) (rest : str) (c : caps) :
  no_tag_ahead rest ->
  forall k : kont R,
    rmatch base (NonCap (Seq (Plus re_s) TAG_PATTERN)) k rest c = None.
Proof.
  intros [_ Hno] k.
  destruct (rmatch base (NonCap (Seq (Plus re_s) TAG_PATTERN)) k rest c)
    as [res|] eqn:E; [|reflexivity].
  exfalso. apply rmatch_sound in E.
  destruct E as [w [s' [c' [Hs [Hm _]]]]].
  apply mt_noncap_inv, mt_seq_inv in Hm.
  destruct Hm as [w1 [w2 [c1 [Hw [H1 H2]]]]].
  apply mt_blank in H1. apply mt_tag in H2.
  apply (Hno w1 w2 s' H1 H2). rewrite Hs, Hw, <- app_assoc. reflexivity.
Qed.

Lemma passes_tag_tail (base : nat) (toks : list str) (block : str) :
  tag_block toks block ->
  forall rest, no_tag_ahead rest ->
    exists t tail,
      block = t ++ tail /\ is_tag t
      /\ match tail ++ rest with
         | [] => True
         | a :: _ => tag_char a = false
         end
      /\ forall c,
           passes R base (Star (NonCap (Seq (Plus re_s) TAG_PATTERN)))
             (tail ++ rest) rest c c.
Proof.
  induction 1 as [t Ht | t ws toks rest' Ht Hws Hb IH]; intros rest Hrest.
  - exists t, []. split; [rewrite app_nil_r; reflexivity|].
    split; [exact Ht|]. split; [apply Hrest|].
    intros c. apply passes_star_nil. apply tag_step_fails. exact Hrest.
  - destruct (IH rest Hrest) as [t2 [tail2 [-> [Ht2 [Hhead Hstar]]]]].
    exists t, (ws ++ t2 ++ tail2). split; [reflexivity|].
    split; [exact Ht|]. split.
    { rewrite <- app_assoc. apply blank_head. exact Hws. }
    intros c. rewrite <- !app_assoc.
    apply passes_star_cons with (s1 := tail2 ++ rest) (c1 := c).
    + apply passes_noncap. eapply passes_seq.
      * apply passes_blank; [exact Hws|]. apply tag_not_space. exact Ht2.
      * apply passes_tag; [exact Ht2 | exact Hhead].
    + rewrite !length_app. destruct Hws as [Hne _].
      destruct ws; [contradiction|]. simpl. lia.
    + apply Hstar.
Qed.

Lemma passes_tag_block (base : nat) (toks : list str) (block rest : str)
  (c : caps) :
  tag_block toks block -> no_tag_ahead rest ->
  passes R base
    (Seq TAG_PATTERN (Star (NonCap (Seq (Plus re_s) TAG_PATTERN))))
    (block ++ rest) rest c c.
Proof.
  intros Hb Hrest.
  destruct (passes_tag_tail base Hb Hrest) as [t [tail [-> [Ht [Hh Hs]]]]].
  rewrite <- app_assoc. eapply passes_seq.
  - apply passes_tag; [exact Ht | exact Hh].
  - apply Hs.
Qed.

End PassesDefault.

Lemma page_token_head (p rest : str) :
  is_page_token p ->
  match p ++ rest with
  | [] => True
  | a :: _ => isspace a = false
  end.
Proof.
  intros [lo [Hlo [->|[hi [_ ->]]]]].
  - apply digits_head. exact Hlo.
  - rewrite <- app_assoc. apply digits_head. exact Hlo.
Qed.

Lemma tag_block_head (toks : list str) (block rest : str) :
  tag_block toks block ->
  match block ++ rest with
  | [] => True
  | a :: _ => isspace a = false
  end.
Proof.
  intros H. destruct H as [t Ht | t ws toks rest' Ht _ _].
  - apply tag_not_space. exact Ht.
  - rewrite <- app_assoc. apply tag_not_space. exact Ht.
Qed.

Lemma tag_block_length (toks : list str) (block : str) :
  tag_block toks block -> 0 < length block.
Proof.
  intros H. destruct H as [t Ht | t ws toks rest' Ht _ _].
  - apply is_tag_length. exact Ht.
  - rewrite length_app. pose proof (is_tag_length Ht). lia.
Qed.

(** On a record followed by no further tag, the first way through the
    default pattern takes the whole record, with its four fields as the
    groups. *)
Lemma match_here_record (adv : bool)
  (ws1 ws2 ws3 ws4 ws5 ws6 b p t block rest : str) (toks : list str) :
  Forall is_blank [ws1; ws2; ws3; ws4; ws5; ws6] ->
  is_digits b -> is_page_token p -> is_title t -> tag_block toks block ->
  no_tag_ahead rest ->
  exists c,
    match_here IndexParser.DEFAULT_PATTERN adv
      ((lit "Book" ++ ws1 ++ b ++ ","%char :: ws2 ++ lit "Page" ++ ws3 ++ p
          ++ ","%char :: ws4 ++ lit "Slide:" ++ ws5 ++ dquote :: t
          ++ dquote :: ws6 ++ block) ++ rest)
    = Some (rest, c)
    /\ c 1 = Some b /\ c 2 = Some p /\ c 3 = Some t /\ c 4 = Some block.
Proof.
  intros Hws Hb Hp Ht Hblock Hrest.
  inversion Hws as [|? ? H1 Hws1]; subst. clear Hws.
  inversion Hws1 as [|? ? H2 Hws2]; subst. clear Hws1.
  inversion Hws2 as [|? ? H3 Hws3]; subst. clear Hws2.
  inversion Hws3 as [|? ? H4 Hws4]; subst. clear Hws3.
  inversion Hws4 as [|? ? H5 Hws5]; subst. clear Hws4.
  inversion Hws5 as [|? ? H6 _]; subst. clear Hws5.
  assert (Hpass : exists c,
    passes (str * caps) 1 IndexParser.DEFAULT_PATTERN
      (lit "Book" ++ ws1 ++ b ++ ","%char :: ws2 ++ lit "Page" ++ ws3 ++ p
          ++ ","%char :: ws4 ++ lit "Slide:" ++ ws5 ++ dquote :: t
          ++ dquote :: ws6 ++ block ++ rest) rest no_caps c
    /\ c 1 = Some b /\ c 2 = Some p /\ c 3 = Some t /\ c 4 = Some block).
  { eexists. split.
    - unfold IndexParser.DEFAULT_PATTERN. cbn [seqs fold_right].
      eapply passes_seq; [apply passes_text; vm_compute; discriminate|].
      eapply passes_seq;
        [apply passes_blank; [exact H1 | apply digits_head; exact Hb]|].
      eapply passes_seq;
        [apply passes_group, passes_digits; [exact Hb | reflexivity]|].
      eapply passes_seq;
        [apply passes_chr; rewrite class_lit; apply ascii_eqb_refl|].
      eapply passes_seq;
        [apply passes_blank; [exact H2 | reflexivity]|].
      eapply passes_seq; [apply passes_text; vm_compute; discriminate|].
      eapply passes_seq;
        [apply passes_blank; [exact H3 | apply page_token_head; exact Hp]|].
      eapply passes_seq;
        [apply passes_group, passes_page;
           [exact Hp | split; reflexivity]|].
      eapply passes_seq;
        [apply passes_chr; rewrite class_lit; apply ascii_eqb_refl|].
      eapply passes_seq;
        [apply passes_blank; [exact H4 | reflexivity]|].
      eapply passes_seq; [apply passes_text; vm_compute; discriminate|].
      eapply passes_seq;
        [apply passes_blank; [exact H5 | reflexivity]|].
      eapply passes_seq;
        [apply passes_chr; rewrite class_lit; apply ascii_eqb_refl|].
      eapply passes_seq; [apply passes_group, passes_title; exact Ht|].
      eapply passes_seq;
        [apply passes_chr; rewrite class_lit; apply ascii_eqb_refl|].
      eapply passes_seq;
        [apply passes_blank;
           [exact H6 | apply (tag_block_head rest Hblock)]|].
      apply passes_group. eapply passes_tag_block; [exact Hblock | exact Hrest].
    - repeat split; reflexivity. }
  destruct Hpass as [c [Hpass Hc]]. exists c. split; [|exact Hc].
  unfold match_here.
  repeat (rewrite <- app_assoc || rewrite <- app_comm_cons).
  apply Hpass.
  match goal with
  | |- context [length rest =? ?n] =>
      replace (length rest =? n) with false
  end; [rewrite andb_false_r; reflexivity|].
  symmetry. apply Nat.eqb_neq.
  change (lit "Book") with ("B"%char :: lit "ook").
  repeat (rewrite length_app || (progress cbn [length app])). lia.
Qed.

(** ** What the loop of [parse] keeps does not depend on where a match is *)

Lemma parse_match_groups (m m' : Match) :
  m_groups m = m_groups m' ->
  IndexParser.parse_match m = IndexParser.parse_match m'.
Proof.
  intros H. unfold IndexParser.parse_match, group. rewrite H. reflexivity.
Qed.

Lemma kept_groups (ms ms' : list Match) :
  map m_groups ms = map m_groups ms' -> kept ms = kept ms'.
Proof.
  revert ms'. induction ms as [|m ms IH]; intros [|m' ms'] H;
    try discriminate; [reflexivity|].
  inversion H as [[H1 H2]]. unfold kept in *. cbn [flat_map].
  rewrite (parse_match_groups _ _ H1), (IH _ H2). reflexivity.
Qed.

Lemma scan_pos (r : regex) (fuel : nat) :
  forall (pos pos' : nat) (adv : bool) (s : str),
    map m_groups (scan r fuel pos adv s)
    = map m_groups (scan r fuel pos' adv s).
Proof.
  induction fuel as [|fuel IH]; intros pos pos' adv s; [reflexivity|].
  cbn [scan]. destruct (match_here r adv s) as [[s' c]|].
  - cbn [map m_groups]. f_equal. apply IH.
  - destruct s as [|a s1]; [reflexivity|]. apply IH.
Qed.

(** The matches after a place in the text, as the entries they give. *)
Lemma kept_scan (r : regex) (fuel pos : nat) (s : str) :
  2 * length s + 1 < fuel ->
  kept (scan r fuel pos false s) = kept (finditer r s).
Proof.
  intros Hf. unfold finditer.
  rewrite (@scan_fuel r fuel (2 * length s + 2) pos false s) by lia.
  apply kept_groups. apply scan_pos.
Qed.

Lemma no_tag_ahead_nil : no_tag_ahead [].
Proof.
  split; [exact I|]. intros ws t post [Hne _] _ H.
  destruct ws; [contradiction | discriminate].
Qed.

(** ** Every record is read *)

Lemma finditer_record (e : SlideEntry) (s rest : str) :
  is_record e s -> no_tag_ahead rest ->
  kept (finditer IndexParser.DEFAULT_PATTERN (s ++ rest))
  = e :: kept (finditer IndexParser.DEFAULT_PATTERN rest).
Proof.
  intros [ws1 [ws2 [ws3 [ws4 [ws5 [ws6 [b [p [t [block H]]]]]]]]]] Hrest.
  destruct H as [Hs [Hws [Hb [Hlen [Hbook [Hpage [Hp [Htitle [Ht Hblock]]]]]]]]].
  destruct (@match_here_record false ws1 ws2 ws3 ws4 ws5 ws6 b p t block
              rest (tags e) Hws Hb Hp Ht Hblock Hrest)
    as [c [Hm [Hc1 [Hc2 [Hc3 Hc4]]]]].
  rewrite <- Hs in Hm.
  assert (Hpos : 0 < length s).
  { rewrite Hs. change (lit "Book") with ("B"%char :: lit "ook").
    simpl. lia. }
  rewrite (@finditer_fuel _ (s ++ rest) (S (2 * length (s ++ rest) + 2)))
    by lia.
  cbn [scan]. rewrite Hm. unfold kept at 1. cbn [flat_map].
  fold (kept (scan IndexParser.DEFAULT_PATTERN (2 * length (s ++ rest) + 2)
                (0 + (length (s ++ rest) - length rest))
                (length (s ++ rest) - length rest =? 0) rest)).
  replace (length (s ++ rest) - length rest =? 0) with false
    by (symmetry; apply Nat.eqb_neq; rewrite length_app; lia).
  rewrite kept_scan by (rewrite length_app; lia).
  unfold IndexParser.parse_match, group.
  change (groups_of IndexParser.DEFAULT_PATTERN
            (firstn (length (s ++ rest) - length rest) (s ++ rest)) c)
    with [Some (firstn (length (s ++ rest) - length rest) (s ++ rest));
          c 1; c 2; c 3; c 4].
  cbn [m_groups nth_error bind]. rewrite Hc1, Hc2, Hc3, Hc4.
  cbn [IndexParser.int_of IndexParser.findall_tags bind].
  rewrite (py_int_digits Hb).
  replace (int_max_str_digits <? length b) with false
    by (symmetry; apply Nat.ltb_ge; exact Hlen).
  cbn [bind]. rewrite (findall_tag_block Hblock).
  destruct e as [bk pg ti tg]. simpl in *. subst. reflexivity.
Qed.

Lemma finditer_nil :
  kept (finditer IndexParser.DEFAULT_PATTERN []) = [].
Proof. reflexivity. Qed.

(** X10: Every record of the default format is read: when no further tag
    follows it, a file that begins with a record is parsed into the entry
    of the record, with the book number as [int] reads it, the page token
    and the title as they stand and the tags of its block, followed by what
    the rest of the text gives. *)
Theorem default_pattern_reads_record (fs : filesystem) (path : str)
  (e : SlideEntry) (s rest : str) :
  fs path = Readable (s ++ rest) -> is_record e s -> no_tag_ahead rest ->
  IndexParser.parse_file fs None path
  = Ok (e :: kept (finditer IndexParser.DEFAULT_PATTERN rest))
  /\ kept (finditer IndexParser.DEFAULT_PATTERN (s ++ rest))
     = e :: kept (finditer IndexParser.DEFAULT_PATTERN rest).
Proof.
  intros Hfs Hrec Hrest.
  assert (H := finditer_record Hrec Hrest).
  split; [|exact H].
  rewrite parse_file_default, Hfs, H. reflexivity.
Qed.

(** ** A file of records, one per line *)

Lemma no_tag_ahead_newline (x : str) :
  match x with
  | [] => True
  | a :: _ => isspace a = false /\ ascii_eqb "#"%char a = false
  end ->
  no_tag_ahead (newline ++ x).
Proof.
  intros Hx. split; [reflexivity|].
  intros ws t post [Hne Hws] [body [-> _]] H.
  destruct ws as [|a ws]; [contradiction|].
  cbn [newline app] in H. injection H as Ha Hrest.
  inversion Hws as [|? ? _ Hws']; subst.
  destruct ws as [|a' ws].
  - destruct Hx as [_ Hx]. discriminate Hx.
  - destruct Hx as [Hx _]. cbn [app] in Hx.
    inversion Hws'; subst. congruence.
Qed.

Lemma finditer_newline (x : str) :
  kept (finditer IndexParser.DEFAULT_PATTERN (newline ++ x))
  = kept (finditer IndexParser.DEFAULT_PATTERN x).
Proof.
  rewrite (@finditer_fuel _ (newline ++ x) (S (2 * length x + 3)))
    by (simpl; lia).
  cbn [scan].
  replace (match_here IndexParser.DEFAULT_PATTERN false (newline ++ x))
    with (@None (str * caps)) by reflexivity.
  cbn [newline app]. apply kept_scan. lia.
Qed.

Lemma record_head (e : SlideEntry) (s rest : str) :
  is_record e s ->
  match s ++ rest with
  | [] => True
  | a :: _ => isspace a = false /\ ascii_eqb "#"%char a = false
  end.
Proof.
  intros [ws1 [ws2 [ws3 [ws4 [ws5 [ws6 [b [p [t [block [-> _]]]]]]]]]]].
  split; reflexivity.
Qed.

Lemma unlines_head (es : list SlideEntry) (lines : list str) :
  Forall2 is_record es lines ->
  match unlines lines with
  | [] => True
  | a :: _ => isspace a = false /\ ascii_eqb "#"%char a = false
  end.
Proof.
  intros H. destruct H as [|e l es ls He _]; [exact I|].
  unfold unlines. cbn [map concat]. rewrite <- app_assoc.
  apply (record_head _ He).
Qed.

Lemma finditer_unlines (es : list SlideEntry) (lines : list str) :
  Forall2 is_record es lines ->
  kept (finditer IndexParser.DEFAULT_PATTERN (unlines lines)) = es.
Proof.
  induction 1 as [|e l es ls He Hes IH]; [reflexivity|].
  unfold unlines. cbn [map concat]. fold (unlines ls).
  rewrite <- app_assoc.
  rewrite (finditer_record He)
    by (apply no_tag_ahead_newline; apply (unlines_head Hes)).
  rewrite finditer_newline, IH. reflexivity.
Qed.

(** X11: A file whose lines are records of the default format is parsed
    into the entries of the records, all of them and in the order of the
    lines, by [parse] and so by [parse_multiple]. *)
Theorem file_of_records_is_parsed (fs : filesystem) (path : str)
  (es : list SlideEntry) (lines : list str) :
  fs path = Readable (unlines lines) -> Forall2 is_record es lines ->
  IndexParser.parse_file fs None path = Ok es
  /\ forall out,
       IndexParser.parse_multiple fs out [path] None
       = (out, Ok (IndexParser.group_entries es [])).
Proof.
  intros Hfs Hrec.
  assert (Hp : IndexParser.parse_file fs None path = Ok es).
  { rewrite parse_file_default, Hfs. f_equal.
    apply finditer_unlines. exact Hrec. }
  split; [exact Hp|]. intros out.
  unfold IndexParser.parse_multiple. rewrite parse_multiple_loop_default.
  unfold skip_warnings, readable, file_entries. cbn [filter flat_map].
  rewrite Hfs, Hp. cbn [negb map]. rewrite !app_nil_r. reflexivity.
Qed.

(** ** [__repr__] writes a record *)

Lemma join_tag_block (tgs : list str) :
  tgs <> [] -> Forall is_tag tgs -> tag_block tgs (join (lit " ") tgs).
Proof.
  induction tgs as [|t tgs IH]; intros Hne Hall; [contradiction|].
  inversion Hall as [|? ? Ht Hall']; subst.
  destruct tgs as [|t' tgs].
  - apply tag_block_one. exact Ht.
  - change (join (lit " ") (t :: t' :: tgs))
      with (t ++ lit " " ++ join (lit " ") (t' :: tgs)).
    apply tag_block_more; [exact Ht | | apply IH; [discriminate | exact Hall']].
    split; [vm_compute; discriminate|]. constructor; [reflexivity|constructor].
Qed.

Lemma digits_value_bound (g : str) :
  is_digits g -> (0 <= digits_value g < 10 ^ Z.of_nat (length g))%Z.
Proof.
  intros [Hne Hall].
  assert (H := @int_digits_all g Hall false 0%Z 0 (or_intror Hne)).
  apply int_digits_bound in H; [exact H | simpl; lia].
Qed.

Lemma blank_space : is_blank [" "%char].
Proof.
  split; [discriminate|]. constructor; [reflexivity | constructor].
Qed.

Lemma repr_record (e : SlideEntry) :
  entry_wf e -> (book_number e < 10 ^ Z.of_nat int_max_str_digits)%Z ->
  exists s, __repr__ e = Ok s /\ is_record e s.
Proof.
  intros [Hbook [[p [Hp1 Hp2]] [[t [Ht1 Ht2]] [Hne Htags]]]] Hlt.
  unfold __repr__. cbv zeta. rewrite py_str_small by lia. cbn [bind].
  eexists. split; [reflexivity|].
  destruct (digits_of_spec Hbook) as [Hd1 [Hd2 [Hd3 _]]].
  exists [" "%char], [" "%char], [" "%char], [" "%char], [" "%char],
    [" "%char], (digits_of (book_number e)), p, t,
    (join (lit " ") (tags e)).
  rewrite Hp1, Ht1. split; [reflexivity|].
  split; [repeat constructor; apply blank_space|].
  split; [exact Hd1|]. split.
  { destruct (Nat.le_gt_cases (length (digits_of (book_number e)))
                int_max_str_digits) as [H|H]; [exact H|].
    apply Nat.ltb_lt in H. apply digits_of_limit in H; lia. }
  split; [symmetry; exact Hd2|].
  split; [reflexivity|]. split; [exact Hp2|].
  split; [reflexivity|]. split; [exact Ht2|].
  apply join_tag_block; assumption.
Qed.

(** X12: What [__repr__] writes is read back: for an entry with the fields
    of the default format (a book number that is not negative and within
    the digit limit of [str], a page token, a title without a double quote
    and at least one tag), [__repr__] returns a record of the default
    format, and the default pattern reads exactly that entry from it. *)
Theorem repr_round_trip (e : SlideEntry) :
  entry_wf e -> (book_number e < 10 ^ Z.of_nat int_max_str_digits)%Z ->
  exists s,
    __repr__ e = Ok s /\ is_record e s
    /\ kept (finditer IndexParser.DEFAULT_PATTERN s) = [e].
Proof.
  intros Hwf Hlt. destruct (repr_record Hwf Hlt) as [s [Hs Hr]].
  exists s. split; [exact Hs|]. split; [exact Hr|].
  rewrite <- (app_nil_r s) at 1.
  rewrite (finditer_record Hr no_tag_ahead_nil). reflexivity.
Qed.

Lemma parsed_entry_bound (content : str) (e : SlideEntry) :
  In e (kept (finditer IndexParser.DEFAULT_PATTERN content)) ->
  entry_wf e /\ (book_number e < 10 ^ Z.of_nat int_max_str_digits)%Z.
Proof.
  intros He. split; [apply (default_kept content e He)|].
  apply kept_In in He. destruct He as [m [Hm He]].
  destruct (default_parse_match content m Hm)
    as [pre [g1 [g2 [g3 [g4 [toks [post [_ [Hd [_ [_ [_ [_ Hpm]]]]]]]]]]]]].
  rewrite Hpm in He.
  destruct (int_max_str_digits <? length g1) eqn:E; [discriminate|].
  inversion He; subst e. cbn [book_number].
  apply Nat.ltb_ge in E. destruct (digits_value_bound Hd) as [_ Hb].
  assert (Hp : (10 ^ Z.of_nat (length g1)
                <= 10 ^ Z.of_nat int_max_str_digits)%Z).
  { apply Z.pow_le_mono_r; lia. }
  lia.
Qed.

(** X13: The entries that the default pattern reads from any text can be
    written with [__repr__], one per line, and read again: [__repr__]
    raises on none of them, and the text of the lines gives the same
    entries in the same order. *)
Theorem parsed_entries_read_back (content : str) :
  let es := kept (finditer IndexParser.DEFAULT_PATTERN content) in
  (exists lines, Forall2 (fun e l => __repr__ e = Ok l) es lines)
  /\ (forall lines, Forall2 (fun e l => __repr__ e = Ok l) es lines ->
        kept (finditer IndexParser.DEFAULT_PATTERN (unlines lines)) = es).
Proof.
  intros es.
  assert (Hall : forall e, In e es ->
            exists s, __repr__ e = Ok s /\ is_record e s).
  { intros e He. destruct (parsed_entry_bound content e He) as [H1 H2].
    apply (repr_record H1 H2). }
  clearbody es. split.
  - induction es as [|e es IH]; [exists []; constructor|].
    destruct (Hall e (or_introl eq_refl)) as [s [Hs _]].
    destruct IH as [ls Hls].
    { intros e' He'. apply Hall. right. exact He'. }
    exists (s :: ls). constructor; assumption.
  - intros lines H. apply finditer_unlines.
    induction H as [|e l es ls He Hes IH]; [constructor|].
    constructor.
    + destruct (Hall e (or_introl eq_refl)) as [s [Hs Hr]].
      rewrite He in Hs. inversion Hs; subst. exact Hr.
    + apply IH. intros e' He'. apply Hall. right. exact He'.
Qed.

(** ** The page range of a book of the default format *)

Lemma page_token_value (e : SlideEntry) (p : str) :
  page_number e = Some p -> is_page_token p ->
  length p <= int_max_str_digits ->
  exists v,
    range_value e = Some v
    /\ MasterIndexGenerator._parse_page_num p = Ok v
    /\ bad_range e = false.
Proof.
  intros Hp [lo [Hlo Hform]] Hlen.
  assert (Hc := digits_no_hyphen Hlo).
  unfold bad_range, range_value, page_text. rewrite Hp. cbn [str_of_attr].
  destruct Hform as [->|[hi [Hhi ->]]].
  - rewrite (split_head_none _ _ Hc), Hc.
    assert (Hi : py_int lo = Ok (digits_value lo)).
    { rewrite (py_int_digits Hlo).
      replace (int_max_str_digits <? length lo) with false; [reflexivity|].
      symmetry. apply Nat.ltb_ge. exact Hlen. }
    rewrite Hi. exists (digits_value lo). split; [reflexivity|].
    split; [|reflexivity].
    unfold MasterIndexGenerator._parse_page_num. rewrite Hc, Hi.
    reflexivity.
  - destruct (split_head_app lo hi Hc) as [H1 H2]. rewrite H1, H2.
    assert (Hi : py_int lo = Ok (digits_value lo)).
    { rewrite (py_int_digits Hlo).
      replace (int_max_str_digits <? length lo) with false; [reflexivity|].
      symmetry. apply Nat.ltb_ge. rewrite length_app in Hlen. lia. }
    rewrite Hi. exists (digits_value lo). split; [reflexivity|].
    split; [|reflexivity].
    rewrite parse_page_num_hyphen by exact H2. rewrite H1. exact Hi.
Qed.

Lemma parse_multiple_item (fs : filesystem) (out out' : list str)
  (paths : list str) (pattern : option regex)
  (d : dict Z (list SlideEntry)) (b : Z) (l : list SlideEntry) :
  IndexParser.parse_multiple fs out paths pattern = (out', Ok d) ->
  In (b, l) d ->
  l <> []
  /\ l = filter (in_book b) (flat_map (file_entries fs pattern) paths).
Proof.
  intros H Hin. apply parse_multiple_loop_ok in H.
  assert (Hwf : dict_wf d).
  { subst d. apply group_entries_wf. constructor. }
  split.
  - rewrite group_entries_pairs in H. subst d.
    apply (group_pairs_nonempty Z.eqb Z.eqb_eq) with (k := b) in Hin;
      [exact Hin|]. intros k l0 [].
  - assert (E : l = bucket_of Z.eqb b d).
    { unfold bucket_of.
      rewrite (@dict_In_get _ _ Z.eqb Z.eqb_eq _ _ _ Hwf Hin).
      reflexivity. }
    rewrite H, group_entries_bucket in E. exact E.
Qed.

(** X14: For a book of the mapping that [parse_multiple] returns with the
    default pattern, when no page token is longer than the digit limit of
    [int], [_get_page_range] raises nothing and never answers [N/A]: it
    returns the smallest and the largest of the numbers by which the tag
    index sorts the pages of the book, each of them the number of one of
    its entries. *)
Theorem default_book_page_range (fs : filesystem) (out out' : list str)
  (paths : list str) (d : dict Z (list SlideEntry)) (b : Z)
  (l : list SlideEntry) (output_dir : str) (title_prefix : option str) :
  IndexParser.parse_multiple fs out paths None = (out', Ok d) ->
  In (b, l) d ->
  (forall e p, In e l -> page_number e = Some p ->
     length p <= int_max_str_digits) ->
  exists lo hi slo shi,
    BookPDFGenerator._get_page_range
      (BookPDFGenerator.__init__ b l output_dir title_prefix)
    = Ok (slo ++ lit "-" ++ shi)
    /\ py_str lo = Ok slo /\ py_str hi = Ok shi
    /\ (forall e, In e l ->
          exists p v, page_number e = Some p
            /\ MasterIndexGenerator._parse_page_num p = Ok v
            /\ (0 <= lo <= v)%Z /\ (v <= hi)%Z)
    /\ (exists e p, In e l /\ page_number e = Some p
          /\ MasterIndexGenerator._parse_page_num p = Ok lo)
    /\ (exists e p, In e l /\ page_number e = Some p
          /\ MasterIndexGenerator._parse_page_num p = Ok hi).
Proof.
  intros H Hin Hlen.
  destruct (@parse_multiple_item fs out out' paths None d b l H Hin)
    as [Hne Hl].
  assert (Hval : forall e, In e l ->
            exists p v, page_number e = Some p
              /\ range_value e = Some v
              /\ MasterIndexGenerator._parse_page_num p = Ok v
              /\ bad_range e = false).
  { intros e He. assert (He' := He). rewrite Hl in He'.
    apply filter_In in He'. destruct He' as [He' _].
    apply in_flat_map in He'. destruct He' as [path [_ Hp]].
    destruct (file_entries_default fs path e Hp) as [content [_ Hk]].
    destruct (default_kept content e Hk) as [[_ [[p [Hp1 Hp2]] _]] _].
    destruct (page_token_value e Hp1 Hp2 (Hlen e p He Hp1))
      as [v [H1 [H2 H3]]].
    exists p, v. auto. }
  assert (Hvals : forall v, In v (range_values l) <->
            exists e p, In e l /\ page_number e = Some p
              /\ MasterIndexGenerator._parse_page_num p = Ok v).
  { intros v. unfold range_values. rewrite in_flat_map. split.
    - intros [e [He Hv]].
      destruct (Hval e He) as [p [v' [H1 [H2 [H3 _]]]]].
      rewrite H2 in Hv. destruct Hv as [<-|[]]. exists e, p. auto.
    - intros [e [p [He [H1 H2]]]].
      destruct (Hval e He) as [p' [v' [H1' [H2' [H3' _]]]]].
      exists e. split; [exact He|]. rewrite H2'. left.
      rewrite H1 in H1'. inversion H1'; subst p'.
      rewrite H2 in H3'. inversion H3'. reflexivity. }
  rewrite page_range_eval.
  cbn [BookPDFGenerator.__init__ BookPDFGenerator.entries].
  replace (existsb bad_range l) with false.
  2:{ symmetry. destruct (existsb bad_range l) eqn:E; [|reflexivity].
      apply existsb_exists in E. destruct E as [e [He Hb]].
      destruct (Hval e He) as [_ [_ [_ [_ [_ Hb']]]]]. congruence. }
  destruct (range_values l) as [|x vs] eqn:Ev.
  { exfalso. destruct l as [|e l']; [contradiction|].
    destruct (Hval e (or_introl eq_refl)) as [p [v [H1 [_ [H3 _]]]]].
    apply (proj2 (Hvals v)). exists e, p. split; [left; reflexivity|]. auto. }
  assert (Hb : forall v, In v (x :: vs) ->
            (0 <= v < 10 ^ Z.of_nat int_max_str_digits)%Z).
  { intros v Hv. rewrite <- Ev in Hv. apply (range_values_bound _ _ Hv). }
  destruct (list_min_spec vs x) as [Hlo1 Hlo2].
  destruct (list_max_spec vs x) as [Hhi1 Hhi2].
  exists (list_min x vs), (list_max x vs), (digits_of (list_min x vs)),
    (digits_of (list_max x vs)).
  split; [reflexivity|].
  split; [apply py_str_small; apply Hb; exact Hlo1|].
  split; [apply py_str_small; apply Hb; exact Hhi1|].
  split; [|split].
  - intros e He. destruct (Hval e He) as [p [v [H1 [_ [H3 _]]]]].
    exists p, v. split; [exact H1|]. split; [exact H3|].
    assert (Hv : In v (x :: vs)).
    { apply Hvals. exists e, p. auto. }
    pose proof (Hb _ Hlo1). pose proof (Hlo2 v Hv).
    pose proof (Hhi2 v Hv). lia.
  - apply Hvals. exact Hlo1.
  - apply Hvals. exact Hhi1.
Qed.

(** ** The files of the books *)

Lemma parse_loop_In (ms : list Match) :
  forall acc e,
    In e (fst (IndexParser.parse_loop ms acc)) ->
    In e acc \/ exists m, In m ms /\ IndexParser.parse_match m = Ok e.
Proof.
  induction ms as [|m ms IH]; intros acc e; cbn [IndexParser.parse_loop].
  - intros H. left. exact H.
  - destruct (IndexParser.parse_match m) as [entry|ex] eqn:E.
    + intros H. apply IH in H. destruct H as [H|[m' [H1 H2]]].
      * apply in_app_or in H. destruct H as [H|[<-|[]]]; [left; exact H|].
        right. exists m. split; [left; reflexivity | exact E].
      * right. exists m'. split; [right; exact H1 | exact H2].
    + assert (G : In e (fst (IndexParser.parse_loop ms acc)) ->
                  In e acc \/
                  exists m0, In m0 (m :: ms)
                             /\ IndexParser.parse_match m0 = Ok e).
      { intros H. apply IH in H. destruct H as [H|[m' [H1 H2]]];
          [left; exact H|].
        right. exists m'. split; [right; exact H1 | exact H2]. }
      destruct ex; try exact G; intros H; left; exact H.
Qed.

Lemma parse_match_book (m : Match) (e : SlideEntry) :
  IndexParser.parse_match m = Ok e ->
  exists g, py_int g = Ok (book_number e).
Proof.
  unfold IndexParser.parse_match.
  destruct (group m 1) as [[g|]|]; cbn [bind IndexParser.int_of];
    try discriminate.
  destruct (py_int g) as [v|] eqn:Ei; cbn [bind]; [|discriminate].
  destruct (group m 2) as [g2|]; cbn [bind]; [|discriminate].
  destruct (group m 3) as [g3|]; cbn [bind]; [|discriminate].
  destruct (group m 4) as [[g4|]|]; cbn [bind IndexParser.findall_tags];
    try discriminate.
  intros H. inversion H. exists g. exact Ei.
Qed.

(** A book number that was read has no more digits than [int] allows. *)
Lemma file_entries_book (fs : filesystem) (pattern : option regex)
  (path : str) (e : SlideEntry) :
  In e (file_entries fs pattern path) ->
  (Z.abs (book_number e) < 10 ^ Z.of_nat int_max_str_digits)%Z.
Proof.
  unfold file_entries. rewrite parse_file_cases.
  destruct (fs path) as [|err|content]; try contradiction.
  cbv zeta.
  destruct (snd (IndexParser.parse_loop
                   (finditer (IndexParser.pattern_or_default pattern) content)
                   [])); [contradiction|].
  intros H. apply parse_loop_In in H. destruct H as [[]|[m [_ Hm]]].
  destruct (parse_match_book _ Hm) as [g Hg].
  apply (py_int_bound _ Hg).
Qed.

Lemma py_str_ok (n : Z) :
  (Z.abs n < 10 ^ Z.of_nat int_max_str_digits)%Z ->
  exists s, py_str n = Ok s.
Proof.
  intros H. destruct (py_str n) as [s|ex] eqn:E; [exists s; reflexivity|].
  apply py_str_raises in E. lia.
Qed.

Lemma file_name_book (g : BookPDFGenerator.t) (name : str) :
  BookPDFGenerator.file_name g = Ok name ->
  exists s, name = lit "Book_" ++ s ++ lit "_Contents.pdf"
            /\ py_int s = Ok (BookPDFGenerator.book_number g).
Proof.
  unfold BookPDFGenerator.file_name.
  destruct (py_str (BookPDFGenerator.book_number g)) as [s|] eqn:E;
    cbn [bind]; [|discriminate].
  intros H. inversion H. exists s. split; [reflexivity|].
  apply py_int_py_str. exact E.
Qed.

Lemma file_name_inj (g1 g2 : BookPDFGenerator.t) (name : str) :
  BookPDFGenerator.file_name g1 = Ok name ->
  BookPDFGenerator.file_name g2 = Ok name ->
  BookPDFGenerator.book_number g1 = BookPDFGenerator.book_number g2.
Proof.
  intros H1 H2.
  destruct (file_name_book _ H1) as [s1 [E1 I1]].
  destruct (file_name_book _ H2) as [s2 [E2 I2]].
  rewrite E1 in E2. apply app_inv_head in E2. apply app_inv_tail in E2.
  subst s2. rewrite I1 in I2. inversion I2. reflexivity.
Qed.

(** X15: The books of the mapping that [parse_multiple] returns go to files
    of their own: for every book the name of its file is computed without
    an error, and the files of two books never have the same name. *)
Theorem book_files_distinct (fs : filesystem) (out out' : list str)
  (paths : list str) (pattern : option regex)
  (d : dict Z (list SlideEntry)) (output_dir : str)
  (title_prefix : option str) :
  IndexParser.parse_multiple fs out paths pattern = (out', Ok d) ->
  exists names,
    Forall2 (fun item name =>
               BookPDFGenerator.file_name
                 (BookPDFGenerator.__init__ (fst item) (snd item) output_dir
                    title_prefix) = Ok name) d names
    /\ NoDup names.
Proof.
  intros H.
  assert (Hwf : dict_wf d).
  { apply parse_multiple_loop_ok in H. subst d.
    apply group_entries_wf. constructor. }
  assert (Hb : forall b l, In (b, l) d ->
            (Z.abs b < 10 ^ Z.of_nat int_max_str_digits)%Z).
  { intros b l Hin.
    destruct (@parse_multiple_item fs out out' paths pattern d b l H Hin)
      as [Hne Hl].
    destruct l as [|e l']; [contradiction|].
    assert (He : In e (e :: l')) by (left; reflexivity).
    rewrite Hl in He. apply filter_In in He. destruct He as [He Hbk].
    unfold in_book in Hbk. apply Z.eqb_eq in Hbk. subst b.
    apply in_flat_map in He. destruct He as [path [_ Hp]].
    apply (file_entries_book _ _ _ _ Hp). }
  clear H. unfold dict_wf in Hwf.
  induction d as [|[b l] d IH].
  - exists []. split; constructor.
  - cbn [dict_keys map fst] in Hwf. inversion Hwf as [|? ? Hnin Hnd]; subst.
    destruct IH as [names [Hf Hn]]; [exact Hnd | |].
    { intros b' l' Hin. apply (Hb b' l'). right. exact Hin. }
    destruct (@py_str_ok b (Hb b l (or_introl eq_refl))) as [s Hs].
    exists ((lit "Book_" ++ s ++ lit "_Contents.pdf") :: names).
    split.
    + constructor; [|exact Hf].
      unfold BookPDFGenerator.file_name.
      cbn [BookPDFGenerator.__init__ BookPDFGenerator.book_number fst snd].
      rewrite Hs. reflexivity.
    + constructor; [|exact Hn]. intros Hin. apply Hnin.
      clear - Hin Hf Hs.
      induction Hf as [|[b' l'] name d names Hname Hf IH]; [contradiction|].
      destruct Hin as [E0|Hin].
      * subst name. left. cbn [fst].
        assert (E : BookPDFGenerator.file_name
                      (BookPDFGenerator.__init__ b [] output_dir title_prefix)
                    = Ok (lit "Book_" ++ s ++ lit "_Contents.pdf")).
        { unfold BookPDFGenerator.file_name.
          cbn [BookPDFGenerator.__init__ BookPDFGenerator.book_number].
          rewrite Hs. reflexivity. }
        apply (file_name_inj _ _ Hname E).
      * right. apply IH. exact Hin.
Qed.

(** ** The order of the sections *)

Lemma code_inj (a b : ascii) : code a = code b -> a = b.
Proof.
  unfold code. intros H.
  rewrite <- (ascii_nat_embedding a), <- (ascii_nat_embedding b), H.
  reflexivity.
Qed.

Lemma str_ltb_asym (s t : str) : str_ltb s t = true -> str_ltb t s = false.
Proof.
  revert t. induction s as [|a s IH]; intros [|b t]; simpl; try reflexivity;
    try discriminate.
  intros H. apply orb_true_iff in H. apply orb_false_iff.
  destruct H as [H|H].
  - apply Nat.ltb_lt in H. split.
    + apply Nat.ltb_ge. lia.
    + replace (code b =? code a) with false; [reflexivity|].
      symmetry. apply Nat.eqb_neq. lia.
  - apply andb_true_iff in H. destruct H as [H1 H2].
    apply Nat.eqb_eq in H1. split.
    + apply Nat.ltb_ge. lia.
    + rewrite (IH _ H2). apply andb_false_r.
Qed.

Lemma str_ltb_total (s t : str) :
  str_ltb s t = false -> str_ltb t s = false -> s = t.
Proof.
  revert t. induction s as [|a s IH]; intros [|b t]; simpl; try reflexivity;
    try discriminate.
  intros H1 H2. apply orb_false_iff in H1, H2.
  destruct H1 as [H1 H1'], H2 as [H2 H2'].
  apply Nat.ltb_ge in H1. apply Nat.ltb_ge in H2.
  assert (E : code a = code b) by lia.
  rewrite E in H1'. rewrite E in H2'. rewrite Nat.eqb_refl in H1', H2'.
  simpl in H1', H2'. f_equal; [apply code_inj; exact E | apply IH; assumption].
Qed.

Lemma str_ltb_trans (a b c : str) :
  str_ltb a b = true -> str_ltb b c = true -> str_ltb a c = true.
Proof.
  revert b c. induction a as [|x a IH]; intros [|y b] [|z c]; simpl;
    try reflexivity; try discriminate.
  intros H1 H2. apply orb_true_iff in H1, H2. apply orb_true_iff.
  destruct H1 as [H1|H1], H2 as [H2|H2].
  - left. apply Nat.ltb_lt in H1, H2. apply Nat.ltb_lt. lia.
  - left. apply andb_true_iff in H2. destruct H2 as [H2 _].
    apply Nat.ltb_lt in H1. apply Nat.eqb_eq in H2. apply Nat.ltb_lt. lia.
  - left. apply andb_true_iff in H1. destruct H1 as [H1 _].
    apply Nat.ltb_lt in H2. apply Nat.eqb_eq in H1. apply Nat.ltb_lt. lia.
  - right. apply andb_true_iff in H1, H2.
    destruct H1 as [H1 H1'], H2 as [H2 H2'].
    apply Nat.eqb_eq in H1, H2. apply andb_true_iff. split.
    + apply Nat.eqb_eq. lia.
    + apply (IH _ _ H1' H2').
Qed.

Lemma str_le_trans (a b c : str) :
  str_ltb b a = false -> str_ltb c b = false -> str_ltb c a = false.
Proof.
  intros H1 H2. destruct (str_ltb c a) eqn:E; [|reflexivity].
  destruct (str_ltb a b) eqn:Eab.
  - rewrite (str_ltb_trans _ _ _ E Eab) in H2. discriminate.
  - assert (a = b) by (apply str_ltb_total; assumption). subst b.
    congruence.
Qed.

Lemma sorted_tags_perm (self : MasterIndexGenerator.t) :
  Permutation (dict_keys (MasterIndexGenerator.tag_index self))
    (MasterIndexGenerator.sorted_tags self).
Proof.
  unfold MasterIndexGenerator.sorted_tags.
  set (keys := dict_keys (MasterIndexGenerator.tag_index self)).
  rewrite <- (map_id keys) at 1.
  rewrite <- (map_ext (fun tag => snd (tag, tag)) (fun tag => tag))
    by reflexivity.
  rewrite <- (map_map (fun tag => (tag, tag)) snd).
  apply Permutation_map. apply stable_sort_perm.
Qed.

Lemma sorted_pairs_same (l : list str) :
  Forall (fun p : str * str => fst p = snd p)
    (stable_sort str_ltb (map (fun tag => (tag, tag)) l)).
Proof.
  rewrite Forall_forall. intros p Hp.
  apply (Permutation_in p (Permutation_sym (stable_sort_perm str_ltb _)))
    in Hp.
  apply in_map_iff in Hp. destruct Hp as [t [<- _]]. reflexivity.
Qed.

Lemma strictly_sorted (l : list (str * str)) :
  StronglySorted (fun x y => str_ltb (fst y) (fst x) = false) l ->
  Forall (fun p => fst p = snd p) l -> NoDup (map snd l) ->
  StronglySorted (fun s t => str_ltb s t = true) (map snd l).
Proof.
  induction 1 as [|x l Hs IH Hx]; intros Hsame Hnd; simpl; [constructor|].
  inversion Hsame as [|? ? Hx1 Hsame']; subst.
  simpl in Hnd. inversion Hnd as [|? ? Hnin Hnd']; subst.
  constructor; [apply IH; assumption|].
  rewrite Forall_forall in Hx, Hsame' |- *. intros t Ht.
  apply in_map_iff in Ht. destruct Ht as [y [<- Hy]].
  specialize (Hx y Hy). rewrite (Hsame' y Hy) in Hx. rewrite Hx1 in Hx.
  destruct (str_ltb (snd x) (snd y)) eqn:E; [reflexivity|].
  exfalso. apply Hnin. rewrite (str_ltb_total _ _ E Hx).
  apply in_map. exact Hy.
Qed.

Lemma tag_sections_total (ti : dict str (list SlideEntry))
  (tgs : list str) :
  (forall t, In t tgs -> In t (dict_keys ti)) ->
  exists secs,
    MasterIndexGenerator.tag_sections ti tgs = Some secs
    /\ map fst secs = tgs
    /\ Forall (fun sec => In sec ti) secs.
Proof.
  induction tgs as [|t tgs IH]; intros H.
  - exists []. repeat split. constructor.
  - destruct IH as [secs [H1 [H2 H3]]].
    { intros t' Ht'. apply H. right. exact Ht'. }
    cbn [MasterIndexGenerator.tag_sections].
    destruct (dict_get str_eqb t ti) as [b|] eqn:E.
    + rewrite H1. exists ((t, b) :: secs). split; [reflexivity|].
      split; [simpl; f_equal; exact H2|].
      constructor; [|exact H3].
      apply (dict_get_In str_eqb str_eqb_eq). exact E.
    + exfalso. apply (dict_get_None str_eqb str_eqb_eq) in E.
      apply E. apply H. left. reflexivity.
Qed.

(** X16: The sections of the master index (and of the compact index, whose
    loop is the same) are the tags of the tag index, each once and with its
    own bucket, in strictly increasing order of the tags as strings, that
    is by code points; no key is missing when a bucket is looked up, and no
    section is without entries. *)
Theorem sections_in_tag_order (d : dict Z (list SlideEntry))
  (self : MasterIndexGenerator.t) :
  MasterIndexGenerator.__init__ d = Ok self ->
  exists secs,
    MasterIndexGenerator.sections self = Some secs
    /\ Permutation secs (MasterIndexGenerator.tag_index self)
    /\ StronglySorted (fun s t => str_ltb s t = true) (map fst secs)
    /\ Forall (fun sec => snd sec <> []) secs.
Proof.
  unfold MasterIndexGenerator.__init__.
  destruct (MasterIndexGenerator._build_tag_index d) as [ti|] eqn:Hti;
    cbn [bind]; [|discriminate].
  intros H. inversion H; subst self. clear H.
  assert (Hwf := build_tag_index_wf d Hti).
  set (self := MasterIndexGenerator.mk d ti).
  assert (Hperm := sorted_tags_perm self).
  cbn [MasterIndexGenerator.tag_index self] in Hperm.
  destruct (@tag_sections_total ti (MasterIndexGenerator.sorted_tags self))
    as [secs [H1 [H2 H3]]].
  { intros t Ht. apply (Permutation_in t (Permutation_sym Hperm)). exact Ht. }
  exists secs. split; [exact H1|].
  assert (Hnd : NoDup (map fst secs)).
  { rewrite H2. apply (Permutation_NoDup Hperm). exact Hwf. }
  rewrite Forall_forall in H3.
  split; [|split].
  - apply NoDup_Permutation.
    + apply (NoDup_map_inv fst). exact Hnd.
    + apply (NoDup_map_inv fst). exact Hwf.
    + intros [t b]. split; [apply H3|]. intros Hin.
      assert (Ht : In t (map fst secs)).
      { rewrite H2. apply (Permutation_in t Hperm).
        change t with (fst (t, b)). apply in_map. exact Hin. }
      apply in_map_iff in Ht. destruct Ht as [[t' b'] [Et Hin']].
      simpl in Et. subst t'.
      assert (Hb := H3 _ Hin').
      apply (@dict_In_get _ _ str_eqb str_eqb_eq _ _ _ Hwf) in Hb.
      apply (@dict_In_get _ _ str_eqb str_eqb_eq _ _ _ Hwf) in Hin.
      rewrite Hb in Hin. inversion Hin; subst. exact Hin'.
  - rewrite H2. unfold MasterIndexGenerator.sorted_tags.
    apply strictly_sorted.
    + apply stable_sort_sorted; [apply str_ltb_asym | apply str_le_trans].
    + apply sorted_pairs_same.
    + fold (MasterIndexGenerator.sorted_tags self). rewrite <- H2.
      exact Hnd.
  - rewrite Forall_forall. intros [t b] Hin. simpl.
    apply H3 in Hin.
    destruct (tag_index_is_exact_nonempty d Hti t b Hin) as [Hne _].
    exact Hne.
Qed.

(** ** The further properties at the sample inputs *)

Lemma get_all_tags_buckets_witness :
  bucket_of str_eqb (lit "#basics")
    (IndexParser.get_all_tags [entry_a1; entry_a2; entry_b1])
  = [entry_a1; entry_a2; entry_b1]
  /\ (exists e, In e [entry_a1; entry_a2; entry_b1]
                /\ In (lit "#review") (tags e))
  /\ dict_wf (IndexParser.get_all_tags [entry_a1; entry_a2; entry_b1]).
Proof.
  destruct (get_all_tags_buckets [entry_a1; entry_a2; entry_b1])
    as [H1 [H2 [H3 _]]].
  split; [|split].
  - rewrite H1. vm_compute. reflexivity.
  - apply H2. vm_compute. reflexivity.
  - exact H3.
Defined.

Lemma tag_index_is_exact_witness :
  MasterIndexGenerator._build_tag_index sample_mapping = Ok sample_index
  /\ (exists bucket, In (lit "#review", bucket) sample_index
                     /\ In entry_a2 bucket)
  /\ dict_keys sample_index
     = first_seen str_eqb []
         (flat_map tags (concat (dict_values sample_mapping))).
Proof.
  assert (E : MasterIndexGenerator._build_tag_index sample_mapping
              = Ok sample_index) by (vm_compute; reflexivity).
  split; [exact E|].
  destruct (tag_index_is_exact sample_mapping E) as [H1 [_ [_ H4]]].
  split; [|exact H4].
  apply H1.
  - simpl. right. right. left. reflexivity.
  - simpl. left. reflexivity.
Defined.

Lemma build_tag_index_returns_iff_witness :
  (forall e, In e (concat (dict_values sample_mapping)) -> tags e <> [] ->
     page_sortable e = true)
  /\ exists e, In e [appendix_entry]
       /\ MasterIndexGenerator.sort_key e = Raise ValueError.
Proof.
  split.
  - destruct (build_tag_index_returns_iff sample_mapping) as [[H _] _].
    apply H. exists sample_index. vm_compute. reflexivity.
  - destruct (build_tag_index_returns_iff [(1%Z, [appendix_entry])])
      as [_ H].
    destruct (H ValueError) as [e [H1 [_ [H3 _]]]].
    + vm_compute. reflexivity.
    + exists e. split; [|exact H3]. simpl in H1. exact H1.
Defined.

Lemma parse_multiple_books_witness :
  IndexParser.parse_multiple sample_fs []
    [lit "a.md"; lit "missing.md"; lit "b.md"] None
  = ([lit "Warning: Skipping missing.md: Index file not found: missing.md"],
     Ok sample_mapping)
  /\ dict_keys sample_mapping
     = first_seen Z.eqb []
         (map book_number
            (flat_map (file_entries sample_fs None)
               [lit "a.md"; lit "missing.md"; lit "b.md"]))
  /\ list_sum (map (fun item => length (snd item)) sample_mapping)
     = length (flat_map (file_entries sample_fs None)
                 [lit "a.md"; lit "missing.md"; lit "b.md"]).
Proof.
  assert (E : IndexParser.parse_multiple sample_fs []
                [lit "a.md"; lit "missing.md"; lit "b.md"] None
              = ([lit "Warning: Skipping missing.md: Index file not found: missing.md"],
                 Ok sample_mapping)) by (vm_compute; reflexivity).
  split; [exact E|].
  destruct (parse_multiple_books _ _ _ _ E) as [H1 [_ [_ H4]]].
  split; [exact H1 | exact H4].
Defined.

Lemma default_pipeline_builds_witness :
  exists out' d self,
    IndexParser.parse_multiple sample_fs [] [lit "a.md"; lit "b.md"] None
    = (out', Ok d)
    /\ MasterIndexGenerator.__init__ d = Ok self
    /\ total_slides (MasterIndexGenerator.get_statistics self) = 3.
Proof.
  destruct (@default_pipeline_builds sample_fs [] [lit "a.md"; lit "b.md"])
    as [out' [d [self [H1 [H2 [H3 _]]]]]].
  - intros e p He Hp. vm_compute in He.
    destruct He as [<-|[<-|[<-|[]]]]; inversion Hp; subst p;
      apply Nat.leb_le; vm_compute; reflexivity.
  - exists out', d, self. split; [exact H1|]. split; [exact H2|].
    rewrite H3. vm_compute. reflexivity.
Defined.

Lemma page_range_raises_witness :
  BookPDFGenerator._get_page_range
    (BookPDFGenerator.__init__ 1 [entry_a1; appendix_entry] (lit "output")
       None)
  = Raise ValueError.
Proof.
  destruct (page_range_raises
              (BookPDFGenerator.__init__ 1 [entry_a1; appendix_entry]
                 (lit "output") None)) as [_ [H _]].
  apply H. exists appendix_entry. split.
  - simpl. right. left. reflexivity.
  - vm_compute. reflexivity.
Defined.

Lemma page_range_result_witness :
  exists lo hi slo shi,
    BookPDFGenerator._get_page_range sample_book
    = Ok (slo ++ lit "-" ++ shi)
    /\ py_str lo = Ok slo /\ py_str hi = Ok shi
    /\ MasterIndexGenerator._parse_page_num (slo ++ lit "-" ++ shi) = Ok lo.
Proof.
  destruct (page_range_result sample_book) as [_ [H _]].
  - intros e He. simpl in He.
    destruct He as [<-|[<-|[]]]; vm_compute; reflexivity.
  - destruct H as [lo [hi [slo [shi [H1 [H2 [H3 [_ [_ [_ H7]]]]]]]]]].
    + vm_compute. discriminate.
    + exists lo, hi, slo, shi. auto.
Defined.

Lemma record_a1_is_record : is_record entry_a1 record_a1.
Proof.
  exists [" "%char], [" "%char], [" "%char], [" "%char], [" "%char],
    [" "%char], (lit "1"), (lit "6"), (lit "Intro"),
    (lit "#networking #basics").
  split; [reflexivity|].
  split; [repeat constructor; discriminate|].
  split; [split; [discriminate | repeat constructor]|].
  split; [apply Nat.leb_le; vm_compute; reflexivity|].
  split; [reflexivity|]. split; [reflexivity|].
  split.
  { exists (lit "6"). split; [|left; reflexivity].
    split; [discriminate | repeat constructor]. }
  split; [reflexivity|].
  split; [split; [discriminate | repeat constructor]|].
  apply (@tag_block_more (lit "#networking") (lit " ") [lit "#basics"]
           (lit "#basics")).
  - exists (lit "networking"). split; [reflexivity|].
    split; [discriminate | repeat constructor].
  - split; [discriminate | repeat constructor].
  - apply tag_block_one. exists (lit "basics"). split; [reflexivity|].
    split; [discriminate | repeat constructor].
Defined.

Lemma default_pattern_reads_record_witness :
  IndexParser.parse_file (fun _ => Readable record_a1) None (lit "a.md")
  = Ok (entry_a1 :: kept (finditer IndexParser.DEFAULT_PATTERN [])).
Proof.
  apply (@default_pattern_reads_record (fun _ => Readable record_a1)
           (lit "a.md") entry_a1 record_a1 []).
  - vm_compute. reflexivity.
  - exact record_a1_is_record.
  - split; [exact I|]. intros ws t post [Hne _] _ H.
    destruct ws; [contradiction | discriminate].
Defined.

Lemma record_a2_is_record : is_record entry_a2 record_a2.
Proof.
  exists [" "%char], [" "%char], [" "%char], [" "%char], [" "%char],
    [" "%char], (lit "2"), (lit "120-121"), (lit "Review"),
    (lit "#review #basics #review").
  split; [reflexivity|].
  split; [repeat constructor; discriminate|].
  split; [split; [discriminate | repeat constructor]|].
  split; [apply Nat.leb_le; vm_compute; reflexivity|].
  split; [reflexivity|]. split; [reflexivity|].
  split.
  { exists (lit "120"). split; [split; [discriminate | repeat constructor]|].
    right. exists (lit "121").
    split; [split; [discriminate | repeat constructor] | reflexivity]. }
  split; [reflexivity|].
  split; [split; [discriminate | repeat constructor]|].
  assert (Hreview : is_tag (lit "#review")).
  { exists (lit "review"). split; [reflexivity|].
    split; [discriminate | repeat constructor]. }
  assert (Hsp : is_blank (lit " ")).
  { split; [discriminate | repeat constructor]. }
  apply (@tag_block_more (lit "#review") (lit " ")
           [lit "#basics"; lit "#review"] (lit "#basics #review"));
    [exact Hreview | exact Hsp |].
  apply (@tag_block_more (lit "#basics") (lit " ") [lit "#review"]
           (lit "#review"));
    [| exact Hsp | apply tag_block_one; exact Hreview].
  exists (lit "basics"). split; [reflexivity|].
  split; [discriminate | repeat constructor].
Defined.

Lemma file_of_records_is_parsed_witness :
  IndexParser.parse_file sample_fs None (lit "a.md")
  = Ok [entry_a1; entry_a2].
Proof.
  apply (@file_of_records_is_parsed sample_fs (lit "a.md")
           [entry_a1; entry_a2] [record_a1; record_a2]).
  - vm_compute. reflexivity.
  - constructor; [exact record_a1_is_record|].
    constructor; [exact record_a2_is_record | constructor].
Defined.

Lemma entry_a1_wf : entry_wf entry_a1.
Proof.
  split; [vm_compute; discriminate|].
  split.
  { exists (lit "6"). split; [reflexivity|].
    exists (lit "6"). split; [|left; reflexivity].
    split; [discriminate | repeat constructor]. }
  split.
  { exists (lit "Intro"). split; [reflexivity|].
    split; [discriminate | repeat constructor]. }
  split; [discriminate|].
  constructor.
  { exists (lit "networking"). split; [reflexivity|].
    split; [discriminate | repeat constructor]. }
  constructor; [|constructor].
  exists (lit "basics"). split; [reflexivity|].
  split; [discriminate | repeat constructor].
Defined.

Lemma repr_round_trip_witness :
  exists s,
    __repr__ entry_a1 = Ok s /\ is_record entry_a1 s
    /\ kept (finditer IndexParser.DEFAULT_PATTERN s) = [entry_a1].
Proof.
  apply repr_round_trip.
  - exact entry_a1_wf.
  - vm_compute. reflexivity.
Defined.

Lemma parsed_entries_read_back_witness :
  kept (finditer IndexParser.DEFAULT_PATTERN
          (unlines [record_a1; record_a2]))
  = kept (finditer IndexParser.DEFAULT_PATTERN sample_a).
Proof.
  destruct (parsed_entries_read_back sample_a) as [_ H].
  apply (H [record_a1; record_a2]).
  replace (kept (finditer IndexParser.DEFAULT_PATTERN sample_a))
    with [entry_a1; entry_a2] by (vm_compute; reflexivity).
  constructor; [vm_compute; reflexivity|].
  constructor; [vm_compute; reflexivity | constructor].
Defined.

Lemma default_book_page_range_witness :
  exists lo hi slo shi,
    BookPDFGenerator._get_page_range sample_book
    = Ok (slo ++ lit "-" ++ shi)
    /\ py_str lo = Ok slo /\ py_str hi = Ok shi
    /\ exists e p, In e [entry_a1; entry_b1] /\ page_number e = Some p
         /\ MasterIndexGenerator._parse_page_num p = Ok lo.
Proof.
  destruct (@default_book_page_range sample_fs []
              [lit "Warning: Skipping missing.md: Index file not found: missing.md"]
              [lit "a.md"; lit "missing.md"; lit "b.md"] sample_mapping 1%Z
              [entry_a1; entry_b1] (lit "output") None)
    as [lo [hi [slo [shi [H1 [H2 [H3 [_ [H5 _]]]]]]]]].
  - vm_compute. reflexivity.
  - simpl. left. reflexivity.
  - intros e p He Hp. simpl in He.
    destruct He as [<-|[<-|[]]]; inversion Hp; subst p;
      apply Nat.leb_le; vm_compute; reflexivity.
  - exists lo, hi, slo, shi. auto.
Defined.

Lemma book_files_distinct_witness :
  exists names,
    Forall2 (fun item name =>
               BookPDFGenerator.file_name
                 (BookPDFGenerator.__init__ (fst item) (snd item)
                    (lit "output") None) = Ok name) sample_mapping names
    /\ NoDup names.
Proof.
  apply (@book_files_distinct sample_fs []
           [lit "Warning: Skipping missing.md: Index file not found: missing.md"]
           [lit "a.md"; lit "missing.md"; lit "b.md"] None sample_mapping
           (lit "output") None).
  vm_compute. reflexivity.
Defined.

Lemma sections_in_tag_order_witness :
  exists secs,
    MasterIndexGenerator.sections sample_generator = Some secs
    /\ Permutation secs sample_index
    /\ StronglySorted (fun s t => str_ltb s t = true) (map fst secs).
Proof.
  destruct (@sections_in_tag_order sample_mapping sample_generator)
    as [secs [H1 [H2 [H3 _]]]].
  - vm_compute. reflexivity.
  - exists secs. auto.
Defined.

(** ** The record that a match of the default pattern covers *)

Lemma mt_chr_lit (base : nat) (a : ascii) (w : str) (c c' : caps) :
  mt base (chr a) w c c' -> w = [a] /\ c' = c.
Proof.
  intros H. apply mt_chr_inv in H. destruct H as [b [-> [Hb ->]]].
  rewrite class_lit in Hb. apply ascii_eqb_eq in Hb. subst b. auto.
Qed.

Lemma mt_text (base : nat) (s w : str) (c c' : caps) :
  s <> [] -> mt base (text s) w c c' -> w = s /\ c' = c.
Proof.
  revert base w c c'. induction s as [|a s IH]; intros base w c c' Hne H;
    [contradiction|].
  destruct s as [|b s].
  - apply mt_chr_lit in H. exact H.
  - change (text (a :: b :: s)) with (Seq (chr a) (text (b :: s))) in H.
    apply mt_seq_inv in H. destruct H as [w1 [w2 [c1 [-> [H1 H2]]]]].
    apply mt_chr_lit in H1. destruct H1 as [-> ->].
    apply IH in H2; [|discriminate]. destruct H2 as [-> ->]. auto.
Qed.

(** A match of the default pattern is a record: the words, the commas and
    the quotes of the pattern with white space between them, and the four
    groups. *)
Lemma default_match_record (w : str) (c : caps) :
  mt 1 IndexParser.DEFAULT_PATTERN w no_caps c ->
  exists ws1 ws2 ws3 ws4 ws5 ws6 b p t block toks,
    w = lit "Book" ++ ws1 ++ b ++ ","%char :: ws2 ++ lit "Page" ++ ws3 ++ p
          ++ ","%char :: ws4 ++ lit "Slide:" ++ ws5 ++ dquote :: t
          ++ dquote :: ws6 ++ block
    /\ Forall is_blank [ws1; ws2; ws3; ws4; ws5; ws6]
    /\ is_digits b /\ is_page_token p /\ is_title t
    /\ tag_block toks block
    /\ c 1 = Some b /\ c 2 = Some p /\ c 3 = Some t /\ c 4 = Some block.
Proof.
  intros H.
  unfold IndexParser.DEFAULT_PATTERN in H.
  cbn [seqs fold_right] in H.
  spine H.
  repeat match goal with
  | H : mt _ (text _) _ _ _ |- _ =>
      apply mt_text in H; [destruct H; subst | vm_compute; discriminate]
  | H : mt _ (chr _) _ _ _ |- _ => apply mt_chr_lit in H; destruct H; subst
  | H : mt _ (Plus re_s) _ _ _ |- _ =>
      pose proof (mt_blank H); apply mt_nogroups in H; [subst | reflexivity]
  | H : mt _ (Group (Plus re_d)) _ _ _ |- _ => open_group H mt_digits
  | H : mt _ (Group (Seq (Plus re_d) _)) _ _ _ |- _ =>
      open_group H mt_page_token
  | H : mt _ (Group (Plus (Chr true _))) _ _ _ |- _ => open_group H mt_title
  | H : mt _ (Group (Seq TAG_PATTERN _)) _ _ _ |- _ =>
      open_group H mt_tag_block
  end.
  match goal with
  | H : exists toks, _ |- _ => destruct H as [toks [Hne Htb]]
  end.
  subst. cbn [app].
  eexists _, _, _, _, _, _, _, _, _, _, toks.
  split; [reflexivity|].
  split; [repeat (apply Forall_cons; [assumption|]); apply Forall_nil|].
  repeat (split; [reflexivity || eassumption|]). reflexivity.
Qed.

(** ** The block of tags of a match is the whole of the tags *)

Lemma is_tag_snoc (t : str) (a : ascii) :
  is_tag t -> tag_char a = true -> is_tag (t ++ [a]).
Proof.
  intros [body [-> [Hne Hall]]] Ha. exists (body ++ [a]).
  split; [reflexivity|]. split.
  - intros E. apply app_eq_nil in E. destruct E as [_ E]. discriminate.
  - apply Forall_app. split; [exact Hall|].
    constructor; [exact Ha | constructor].
Qed.

Lemma tag_block_snoc_char (toks : list str) (block : str) (a : ascii) :
  tag_block toks block -> tag_char a = true ->
  exists toks', tag_block toks' (block ++ [a]).
Proof.
  intros H Ha. induction H as [t Ht | t ws toks rest Ht Hws Hb IH].
  - exists [t ++ [a]]. apply tag_block_one. apply is_tag_snoc; assumption.
  - destruct IH as [toks' IH]. exists (t :: toks').
    rewrite <- !app_assoc. apply tag_block_more; assumption.
Qed.

Lemma tag_block_snoc_tag (toks : list str) (block ws t : str) :
  tag_block toks block -> is_blank ws -> is_tag t ->
  tag_block (toks ++ [t]) (block ++ ws ++ t).
Proof.
  intros H Hws Ht. induction H as [t0 Ht0 | t0 ws0 toks rest Ht0 Hws0 Hb IH].
  - apply tag_block_more; [exact Ht0 | exact Hws |].
    apply tag_block_one. exact Ht.
  - rewrite <- !app_assoc. cbn [app].
    apply tag_block_more; assumption.
Qed.

(** The white space at the head of a text, and what follows it. *)
Lemma blank_span (x : str) :
  exists ws r,
    x = ws ++ r
    /\ Forall (fun a => isspace a = true) ws
    /\ match r with
       | [] => True
       | a :: _ => isspace a = false
       end.
Proof.
  induction x as [|a x IH].
  - exists [], []. repeat split. constructor.
  - destruct (isspace a) eqn:E.
    + destruct IH as [ws [r [-> [H1 H2]]]].
      exists (a :: ws), r. split; [reflexivity|].
      split; [constructor; assumption | exact H2].
    + exists [], (a :: x). split; [reflexivity|].
      split; [constructor | exact E].
Qed.

Lemma blank_span_unique (ws1 ws2 r1 r2 : str) :
  Forall (fun a => isspace a = true) ws1 ->
  Forall (fun a => isspace a = true) ws2 ->
  match r1 with
  | [] => True
  | a :: _ => isspace a = false
  end ->
  match r2 with
  | [] => True
  | a :: _ => isspace a = false
  end ->
  ws1 ++ r1 = ws2 ++ r2 -> ws1 = ws2 /\ r1 = r2.
Proof.
  intros H1. revert ws2. induction H1 as [|a ws1 Ha _ IH];
    intros ws2 H2 Hr1 Hr2 E.
  - destruct H2 as [|b ws2 Hb _]; [auto|].
    simpl in E. subst r1. congruence.
  - destruct H2 as [|b ws2 Hb H2].
    + simpl in E. subst r2. congruence.
    + simpl in E. injection E as Eab E'. subst b.
      destruct (IH ws2 H2 Hr1 Hr2 E') as [-> ->]. auto.
Qed.

(** A block of tags in a text reaches as far as some block after which no
    tag follows. *)
Lemma tag_block_extend (n : nat) :
  forall (x : str) (toks : list str) (block : str),
    length x <= n -> tag_block toks block ->
    exists toks' block' rest',
      block ++ x = block' ++ rest'
      /\ tag_block toks' block' /\ no_tag_ahead rest'.
Proof.
  induction n as [|n IH]; intros x toks block Hlen Hb.
  - destruct x; [|simpl in Hlen; lia].
    exists toks, block, []. split; [reflexivity|].
    split; [exact Hb | exact no_tag_ahead_nil].
  - destruct x as [|a x'].
    { exists toks, block, []. split; [reflexivity|].
      split; [exact Hb | exact no_tag_ahead_nil]. }
    destruct (tag_char a) eqn:Ea.
    { destruct (tag_block_snoc_char a Hb Ea) as [toks1 Hb1].
      destruct (IH x' toks1 (block ++ [a])) as [toks' [block' [rest' H]]];
        [simpl in Hlen; lia | exact Hb1 |].
      exists toks', block', rest'. rewrite <- app_assoc in H. exact H. }
    destruct (blank_span (a :: x')) as [ws [r [Ex [Hws Hr]]]].
    destruct ws as [|s0 ws'].
    { (* the text does not begin with white space *)
      exists toks, block, (a :: x'). split; [reflexivity|].
      split; [exact Hb|]. split; [exact Ea|].
      intros ws1 t post [Hne Hall] _ E.
      destruct ws1 as [|b ws1]; [contradiction|].
      inversion Hall; subst. simpl in Ex. subst r.
      simpl in E. inversion E; subst. congruence. }
    assert (Hblank : is_blank (s0 :: ws')) by (split; [discriminate | exact Hws]).
    destruct r as [|h r1].
    { (* white space to the end *)
      exists toks, block, (a :: x'). split; [reflexivity|].
      split; [exact Hb|]. split; [exact Ea|].
      intros ws1 t post [Hne Hall] [body [-> _]] E.
      rewrite Ex in E.
      destruct (@blank_span_unique (s0 :: ws') ws1 []
                  (("#"%char :: body) ++ post) Hws Hall I eq_refl E)
        as [_ E2].
      discriminate E2. }
    destruct (ascii_eqb "#"%char h) eqn:Eh.
    2:{ exists toks, block, (a :: x'). split; [reflexivity|].
        split; [exact Hb|]. split; [exact Ea|].
        intros ws1 t post [Hne Hall] [body [-> _]] E.
        rewrite Ex in E.
        destruct (@blank_span_unique (s0 :: ws') ws1 (h :: r1)
                    (("#"%char :: body) ++ post) Hws Hall Hr eq_refl E)
          as [_ E2].
        inversion E2; subst. rewrite ascii_eqb_refl in Eh. discriminate. }
    apply ascii_eqb_eq in Eh. subst h.
    destruct r1 as [|c r2].
    { exists toks, block, (a :: x'). split; [reflexivity|].
      split; [exact Hb|]. split; [exact Ea|].
      intros ws1 t post [Hne Hall] [body [-> [Hbody _]]] E.
      rewrite Ex in E.
      destruct (@blank_span_unique (s0 :: ws') ws1 ["#"%char]
                  (("#"%char :: body) ++ post) Hws Hall eq_refl eq_refl E)
        as [_ E2].
      destruct body; [contradiction | discriminate]. }
    destruct (tag_char c) eqn:Ec.
    2:{ exists toks, block, (a :: x'). split; [reflexivity|].
        split; [exact Hb|]. split; [exact Ea|].
        intros ws1 t post [Hne Hall] [body [-> [Hbody Htc]]] E.
        rewrite Ex in E.
        destruct (@blank_span_unique (s0 :: ws') ws1 ("#"%char :: c :: r2)
                    (("#"%char :: body) ++ post) Hws Hall eq_refl eq_refl E)
          as [_ E2].
        destruct body as [|c' body]; [contradiction|].
        inversion E2; subst. inversion Htc; subst. congruence. }
    (* white space and a tag: the block goes on *)
    assert (Ht : is_tag ["#"%char; c]).
    { exists [c]. split; [reflexivity|]. split; [discriminate|].
      constructor; [exact Ec | constructor]. }
    destruct (IH r2 (toks ++ [["#"%char; c]])
                (block ++ (s0 :: ws') ++ ["#"%char; c]))
      as [toks' [block' [rest' [H1 H2]]]].
    + assert (El : length (a :: x')
                   = length (s0 :: ws') + length ("#"%char :: c :: r2))
        by (rewrite Ex, length_app; reflexivity).
      simpl in El, Hlen. lia.
    + apply tag_block_snoc_tag; assumption.
    + exists toks', block', rest'. split; [|exact H2].
      rewrite <- H1, Ex, <- !app_assoc. reflexivity.
Qed.

(** What an attempt of the default pattern returns: the text it took is a
    record, its groups are the fields of the record, and no tag follows
    the block of tags it took. *)
Lemma match_here_default_inv (adv : bool) (s s' : str) (c : caps) :
  match_here IndexParser.DEFAULT_PATTERN adv s = Some (s', c) ->
  exists ws1 ws2 ws3 ws4 ws5 ws6 b p t block toks,
    s = (lit "Book" ++ ws1 ++ b ++ ","%char :: ws2 ++ lit "Page" ++ ws3 ++ p
           ++ ","%char :: ws4 ++ lit "Slide:" ++ ws5 ++ dquote :: t
           ++ dquote :: ws6 ++ block) ++ s'
    /\ Forall is_blank [ws1; ws2; ws3; ws4; ws5; ws6]
    /\ is_digits b /\ is_page_token p /\ is_title t
    /\ tag_block toks block
    /\ c 1 = Some b /\ c 2 = Some p /\ c 3 = Some t /\ c 4 = Some block
    /\ no_tag_ahead s'.
Proof.
  intros Hm. assert (Hs := Hm). apply match_here_sound in Hs.
  destruct Hs as [w [Hs [Hmt _]]].
  destruct (default_match_record Hmt)
    as [ws1 [ws2 [ws3 [ws4 [ws5 [ws6 [b [p [t [block [toks H]]]]]]]]]]].
  destruct H as [Hw [Hws [Hb [Hp [Ht [Hblock [Hc1 [Hc2 [Hc3 Hc4]]]]]]]]].
  destruct (@tag_block_extend (length s') s' toks block (Nat.le_refl _) Hblock)
    as [toks' [block' [rest' [Hx [Hblock' Hrest']]]]].
  destruct (@match_here_record adv ws1 ws2 ws3 ws4 ws5 ws6 b p t block' rest'
              toks' Hws Hb Hp Ht Hblock' Hrest')
    as [c' [Hm' [_ [_ [_ Hc4']]]]].
  assert (Es : s = (lit "Book" ++ ws1 ++ b ++ ","%char :: ws2 ++ lit "Page"
                      ++ ws3 ++ p ++ ","%char :: ws4 ++ lit "Slide:" ++ ws5
                      ++ dquote :: t ++ dquote :: ws6 ++ block') ++ rest').
  { rewrite Hs, Hw.
    repeat (rewrite <- app_assoc || rewrite <- app_comm_cons).
    rewrite Hx. reflexivity. }
  rewrite <- Es, Hm in Hm'. inversion Hm'; subst rest' c'.
  rewrite Hc4 in Hc4'. inversion Hc4'; subst block'.
  exists ws1, ws2, ws3, ws4, ws5, ws6, b, p, t, block, toks.
  split; [rewrite Hs, Hw; reflexivity|].
  repeat (split; [assumption|]). exact Hrest'.
Qed.

Lemma records_skip_app (w s : str) (es : list SlideEntry) :
  records_in s es -> records_in (w ++ s) es.
Proof.
  intros H. induction w as [|a w IH]; [exact H|].
  simpl. apply records_skip. exact IH.
Qed.

(** The entries that the loop of [parse] keeps from the matches of the
    default pattern are those of records that follow one another in the
    text. *)
Lemma scan_records (fuel : nat) :
  forall (pos : nat) (adv : bool) (s : str),
    records_in s (kept (scan IndexParser.DEFAULT_PATTERN fuel pos adv s)).
Proof.
  induction fuel as [|fuel IH]; intros pos adv s; [apply records_end|].
  cbn [scan].
  destruct (match_here IndexParser.DEFAULT_PATTERN adv s) as [[s' c]|] eqn:E.
  - destruct (match_here_default_inv _ _ E)
      as [ws1 [ws2 [ws3 [ws4 [ws5 [ws6 [b [p [t [block [toks H]]]]]]]]]]].
    destruct H
      as [Hs [Hws [Hb [Hp [Ht [Hblock [Hc1 [Hc2 [Hc3 [Hc4 Hrest]]]]]]]]]].
    unfold kept. cbn [flat_map].
    fold (kept (scan IndexParser.DEFAULT_PATTERN fuel
                  (pos + (length s - length s'))
                  (length s - length s' =? 0) s')).
    specialize (IH (pos + (length s - length s'))
                  (length s - length s' =? 0) s').
    set (es := kept (scan IndexParser.DEFAULT_PATTERN fuel
                       (pos + (length s - length s'))
                       (length s - length s' =? 0) s')) in *.
    clearbody es.
    unfold IndexParser.parse_match, group.
    change (groups_of IndexParser.DEFAULT_PATTERN
              (firstn (length s - length s') s) c)
      with [Some (firstn (length s - length s') s); c 1; c 2; c 3; c 4].
    cbn [m_groups nth_error bind]. rewrite Hc1, Hc2, Hc3, Hc4.
    cbn [IndexParser.int_of IndexParser.findall_tags bind].
    rewrite (py_int_digits Hb).
    destruct (int_max_str_digits <? length b) eqn:El.
    + cbn [bind app]. rewrite Hs. apply records_skip_app. exact IH.
    + cbn [bind]. rewrite (findall_tag_block Hblock). cbn [app].
      rewrite Hs. apply records_here; [|exact Hrest | exact IH].
      exists ws1, ws2, ws3, ws4, ws5, ws6, b, p, t, block.
      split; [reflexivity|]. split; [exact Hws|]. split; [exact Hb|].
      split; [apply Nat.ltb_ge; exact El|].
      cbn [book_number page_number slide_title tags].
      repeat (split; [reflexivity || assumption|]). exact Hblock.
  - destruct s as [|a s1]; [apply records_end|].
    apply records_skip. apply IH.
Qed.

Lemma records_in_entries (s : str) (es : list SlideEntry) :
  records_in s es ->
  forall pre, Forall (tags_from (pre ++ s)) es.
Proof.
  induction 1 as [s | a s es _ IH | e record rest es He Hrest _ IH];
    intros pre.
  - constructor.
  - replace (pre ++ a :: s) with ((pre ++ [a]) ++ s)
      by (rewrite <- app_assoc; reflexivity).
    apply IH.
  - constructor.
    + assert (Hi := He).
      destruct Hi as [ws1 [ws2 [ws3 [ws4 [ws5 [ws6 [b [p [t [block H]]]]]]]]]].
      destruct H as [_ [_ [_ [_ [_ [_ [_ [_ [_ Hblock]]]]]]]]].
      split.
      { intros E. rewrite E in Hblock. inversion Hblock. }
      split; [apply (tag_block_tags Hblock)|].
      exists pre, record, rest. auto.
    + rewrite app_assoc. apply IH.
Qed.

(** The record at a place of the text fixes the entry: two entries whose
    records begin at one place, each with the whole of its tags, are the
    same entry. *)
Lemma record_entry_unique (e1 e2 : SlideEntry) (r1 r2 post1 post2 : str) :
  is_record e1 r1 -> is_record e2 r2 ->
  no_tag_ahead post1 -> no_tag_ahead post2 ->
  r1 ++ post1 = r2 ++ post2 -> e1 = e2 /\ r1 = r2.
Proof.
  intros H1 H2 Hp1 Hp2 E.
  destruct H1 as [a1 [a2 [a3 [a4 [a5 [a6 [b [p [t [block H1]]]]]]]]]].
  destruct H1 as [Hr1 [Hws [Hb [Hlen [Hbook [Hpage [Hp [Htitle [Ht Hblock]]]]]]]]].
  destruct (@match_here_record false a1 a2 a3 a4 a5 a6 b p t block post1
              (tags e1) Hws Hb Hp Ht Hblock Hp1)
    as [c1 [Hm1 [Hc11 [Hc12 [Hc13 Hc14]]]]].
  destruct H2 as [d1 [d2 [d3 [d4 [d5 [d6 [b' [p' [t' [block' H2]]]]]]]]]].
  destruct H2
    as [Hr2 [Hws' [Hb' [Hlen' [Hbook' [Hpage' [Hp' [Htitle' [Ht' Hblock']]]]]]]]].
  destruct (@match_here_record false d1 d2 d3 d4 d5 d6 b' p' t' block' post2
              (tags e2) Hws' Hb' Hp' Ht' Hblock' Hp2)
    as [c2 [Hm2 [Hc21 [Hc22 [Hc23 Hc24]]]]].
  rewrite <- Hr1 in Hm1. rewrite <- Hr2 in Hm2.
  rewrite E, Hm2 in Hm1. inversion Hm1; subst post2 c2.
  apply app_inv_tail in E.
  rewrite Hc11 in Hc21. rewrite Hc12 in Hc22. rewrite Hc13 in Hc23.
  rewrite Hc14 in Hc24.
  inversion Hc21; inversion Hc22; inversion Hc23; inversion Hc24; subst.
  split; [|exact E].
  assert (Et : tags e1 = tags e2).
  { rewrite <- (findall_tag_block Hblock), <- (findall_tag_block Hblock').
    reflexivity. }
  destruct e1 as [bk1 pg1 ti1 tg1], e2 as [bk2 pg2 ti2 tg2].
  simpl in *. congruence.
Qed.

(** C8: an entry that [parse] produces with the default pattern has at
    least one tag, each of its tags is [#] followed by one or more word
    characters or hyphens, and its tags are the tokens of its own block of
    tags: the text holds the record of the entry, whose block gives the
    tags, every one of them (a tag that is repeated in the block is
    repeated in the list) and in the order of the block, and no tag
    follows the block, so that no tag of the record is left out. The
    entries are those of records that follow one another in the text, in
    its order, and the record at a place fixes the entry, tags included. *)
Theorem default_pattern_tags (fs : filesystem) (self : IndexParser.t)
  (content : str) :
  IndexParser.pattern self = IndexParser.DEFAULT_PATTERN ->
  fs (IndexParser.index_file_path self) = Readable content ->
  exists new,
    snd (IndexParser.parse fs self) = Ok (IndexParser.entries self ++ new)
    /\ Forall (tags_from content) new
    /\ records_in content new
    /\ (forall e e' record record' post post',
          is_record e record -> is_record e' record' ->
          no_tag_ahead post -> no_tag_ahead post' ->
          record ++ post = record' ++ post' -> e = e').
Proof.
  intros Hp Hfs.
  exists (kept (finditer IndexParser.DEFAULT_PATTERN content)).
  rewrite (parse_default fs self Hp Hfs).
  assert (Hrec : records_in content
                   (kept (finditer IndexParser.DEFAULT_PATTERN content))).
  { unfold finditer. apply scan_records. }
  split; [reflexivity|]. split; [|split; [exact Hrec|]].
  - apply (records_in_entries Hrec []).
  - intros e e' record record' post post' H1 H2 H3 H4 E.
    apply (record_entry_unique H1 H2 H3 H4 E).
Qed.

(** ** Tag lists that are not those of the record *)

Lemma tags_from_head (content : str) (e : SlideEntry) :
  tags_from content e ->
  exists pre rest,
    content = pre ++ rest
    /\ hd_error (kept (finditer IndexParser.DEFAULT_PATTERN rest)) = Some e.
Proof.
  intros [_ [_ [pre [record [post [Hc [Hr Hp]]]]]]].
  exists pre, (record ++ post). split; [exact Hc|].
  rewrite (finditer_record Hr Hp). reflexivity.
Qed.

Lemma skipn_suffix (pre rest : str) : skipn (length pre) (pre ++ rest) = rest.
Proof. induction pre as [|a pre IH]; [reflexivity | exact IH]. Qed.

(** The entries of the records of [sample_a], wherever a record begins. *)
Lemma sample_a_records (e : SlideEntry) :
  tags_from sample_a e -> e = entry_a1 \/ e = entry_a2.
Proof.
  intros H. apply tags_from_head in H.
  destruct H as [pre [rest [Hc He]]].
  assert (Hi : In (Some e)
                 (map (fun i => hd_error
                                  (kept (finditer IndexParser.DEFAULT_PATTERN
                                           (skipn i sample_a))))
                    (seq 0 (S (length sample_a))))).
  { rewrite <- He. apply in_map_iff. exists (length pre). split.
    - rewrite Hc, skipn_suffix. reflexivity.
    - apply in_seq. rewrite Hc, length_app. lia. }
  clear - Hi. vm_compute in Hi.
  repeat (destruct Hi as [Hi|Hi];
          [try discriminate Hi; inversion Hi; auto|]).
  contradiction.
Qed.

(** The second record of [sample_a] with a tag left out, or the first with
    its last tag cut off, is no entry of the text. *)
Lemma tags_from_rejects_shortened :
  ~ tags_from sample_a
      (mkSlideEntry 2 (Some (lit "120-121")) (Some (lit "Review"))
         [lit "#review"; lit "#basics"])
  /\ ~ tags_from sample_a
         (mkSlideEntry 1 (Some (lit "6")) (Some (lit "Intro"))
            [lit "#networking"]).
Proof.
  split; intros H; apply sample_a_records in H;
    destruct H as [H|H]; vm_compute in H; discriminate H.
Qed.

Lemma default_pattern_tags_witness :
  exists new,
    snd (IndexParser.parse sample_fs
           (IndexParser.mk (lit "a.md") IndexParser.DEFAULT_PATTERN []))
    = Ok ([] ++ new)
    /\ Forall (tags_from sample_a) new
    /\ records_in sample_a new.
Proof.
  destruct (@default_pattern_tags sample_fs
              (IndexParser.mk (lit "a.md") IndexParser.DEFAULT_PATTERN [])
              sample_a) as [new [H1 [H2 [H3 _]]]]; [reflexivity..|].
  exists new. auto.
Defined.
